(** * Left-Right ordered linked list (CPP/lists/LROrderedLinkedList.h)

    A shallow embedding of the class [LROrderedLinkedList<T>] and the
    properties of its [add], [remove] and [contains] operations.

    The embedding has two layers.
    - A sequential layer: every member function is a computation in a small
      state-and-error monad that also records the atomic operations it
      performs, each with the object state right after it.
    - A concurrent layer (module [Concurrent]): the same code cut at its
      atomic operations into a step relation over a pool of threads. *)

From Stdlib Require Import ZArith Lia.
From stdpp Require Import base decidable option list numbers gmap.

Open Scope Z_scope.

(** ** Machine integers

    [int] is 32 bits and [std::size_t] is 64 bits.  Conversions to [int]
    wrap around; arithmetic on [std::size_t] is modulo 2^64. *)

Definition INT_MAX : Z := 2 ^ 31 - 1.
Definition INT_MIN : Z := - 2 ^ 31.

Definition to_int (z : Z) : Z := (z + 2 ^ 31) mod 2 ^ 32 - 2 ^ 31.
Definition to_size_t (z : Z) : Z := z mod 2 ^ 64.
Definition is_int (z : Z) : bool := (INT_MIN <=? z) && (z <=? INT_MAX).

(** ** Outcomes of running the code *)

Inductive fault : Set :=
| OutOfBounds       (* an array is indexed outside its allocation *)
| Uninitialised     (* a counter is read before anything was stored in it *)
| DivisionByZero    (* [%] with a zero divisor *)
| BadArrayLength    (* [new T[n]] with a negative [n] *)
| SignedOverflow    (* [int] arithmetic leaves the range of [int] *)
| Deadlock          (* [lock] on a mutex that is already held *)
| OutOfFuel.        (* a loop was cut before it finished *)

Inductive result (A : Type) : Type :=
| Ok (a : A)
| Fault (f : fault).
Arguments Ok {A} a.
Arguments Fault {A} f.


(** ** The sequential set [LinkedListSet<T>]

    [LinkedListSet.h] is included by the header but is not part of the
    sources at hand, so the set enters as an interface. *)

(** Modelled from the spec: the class [LinkedListSet<T>] of the missing
    header [LinkedListSet.h]: a state type with the three member functions
    [add], [remove] and [contains] of the sequential contract. *)
Class LinkedListSet (T : Type) := {
  lls : Type;
  lls_new : lls;
  lls_add : T → lls → bool * lls;
  lls_remove : T → lls → bool * lls;
  lls_contains : T → lls → bool;
}.

(** Modelled from the spec: the sequential contract of [LinkedListSet<T>].
    [add] inserts the key and returns true, or returns false without mutation
    when the key is already present; [remove] deletes the key and returns
    true, or returns false without mutation when it is absent; [contains] is
    the membership test; a new set is empty. *)
Class LinkedListSetContract (T : Type) `{EqDecision T} `{LinkedListSet T} : Prop := {
  lls_contains_new k : lls_contains k lls_new = false;
  lls_add_present k s :
    lls_contains k s = true → lls_add k s = (false, s);
  lls_add_absent k s :
    lls_contains k s = false → (lls_add k s).1 = true;
  lls_contains_add k s k' :
    lls_contains k s = false →
    lls_contains k' (lls_add k s).2 = bool_decide (k' = k) || lls_contains k' s;
  lls_remove_absent k s :
    lls_contains k s = false → lls_remove k s = (false, s);
  lls_remove_present k s :
    lls_contains k s = true → (lls_remove k s).1 = true;
  lls_contains_remove k s k' :
    lls_contains k s = true →
    lls_contains k' (lls_remove k s).2 = negb (bool_decide (k' = k)) && lls_contains k' s;
}.

(** Modelled from the spec: an instance of [LinkedListSet<T>] at [T = int],
    a sorted list of keys without duplicates. *)
Module SortedList.

Fixpoint contains (k : Z) (l : list Z) : bool :=
  match l with
  | [] => false
  | x :: l' => if x <? k then contains k l' else x =? k
  end.

Fixpoint insert (k : Z) (l : list Z) : list Z :=
  match l with
  | [] => [k]
  | x :: l' => if x <? k then x :: insert k l' else k :: l
  end.

Fixpoint erase (k : Z) (l : list Z) : list Z :=
  match l with
  | [] => []
  | x :: l' => if x <? k then x :: erase k l' else if x =? k then l' else l
  end.

Definition add (k : Z) (l : list Z) : bool * list Z :=
  if contains k l then (false, l) else (true, insert k l).

Definition remove (k : Z) (l : list Z) : bool * list Z :=
  if contains k l then (true, erase k l) else (false, l).

Fixpoint sorted (l : list Z) : bool :=
  match l with
  | [] => true
  | x :: l' => match l' with [] => true | y :: _ => x <? y end && sorted l'
  end.

Lemma sorted_tail x l : sorted (x :: l) = true → sorted l = true.
Proof. simpl. intros H. apply andb_prop in H. tauto. Qed.

Lemma contains_below k l :
  sorted l = true → match l with [] => True | x :: _ => k < x end →
  contains k l = false.
Proof.
  destruct l as [|x l]; [reflexivity|]. simpl. intros _ Hk.
  destruct (Z.ltb_spec x k); [lia|]. apply Z.eqb_neq. lia.
Qed.

Lemma sorted_cons_head x l :
  sorted (x :: l) = true → match l with [] => True | y :: _ => x < y end.
Proof.
  simpl. destruct l as [|y l]; [done|]. intros H.
  apply andb_prop in H as [H _]. by apply Z.ltb_lt.
Qed.

Lemma insert_head k l :
  match insert k l with
  | [] => False
  | y :: _ => y = k ∨ match l with [] => False | x :: _ => y = x ∧ x < k end
  end.
Proof.
  destruct l as [|x l]; simpl; [by left|].
  destruct (Z.ltb_spec x k); [right|left]; done.
Qed.

Lemma insert_sorted k l :
  sorted l = true → contains k l = false → sorted (insert k l) = true.
Proof.
  induction l as [|x l IH]; [reflexivity|].
  intros Hs Hc. pose proof (sorted_cons_head _ _ Hs) as Hh.
  simpl in Hc |- *. destruct (Z.ltb_spec x k) as [Hlt|Hge].
  - specialize (IH (sorted_tail _ _ Hs) Hc).
    change (sorted (x :: insert k l)) with
      (match insert k l with [] => true | y :: _ => x <? y end
       && sorted (insert k l)).
    rewrite IH, andb_true_r. pose proof (insert_head k l) as Hi.
    destruct (insert k l) as [|y l2]; [done|]. apply Z.ltb_lt.
    destruct Hi as [->|Hi]; [done|]. destruct l; [done|]. lia.
  - apply Z.eqb_neq in Hc.
    change (sorted (k :: x :: l)) with ((k <? x) && sorted (x :: l)).
    rewrite Hs, andb_true_r. apply Z.ltb_lt. lia.
Qed.

Lemma erase_head k l :
  sorted l = true →
  match erase k l, l with
  | [], _ => True
  | y :: _, [] => False
  | y :: _, x :: _ => x ≤ y
  end.
Proof.
  destruct l as [|x l]; simpl; [done|]. intros Hs.
  destruct (Z.ltb_spec x k); [lia|]. destruct (Z.eqb_spec x k); [|lia].
  apply andb_prop in Hs as [Hs _]. destruct l as [|y l]; [done|].
  apply Z.ltb_lt in Hs. lia.
Qed.

Lemma erase_sorted k l : sorted l = true → sorted (erase k l) = true.
Proof.
  induction l as [|x l IH]; [reflexivity|].
  intros Hs. pose proof (sorted_cons_head _ _ Hs) as Hh.
  pose proof (sorted_tail _ _ Hs) as Ht. simpl.
  destruct (Z.ltb_spec x k) as [Hlt|Hge].
  - change (sorted (x :: erase k l)) with
      (match erase k l with [] => true | y :: _ => x <? y end
       && sorted (erase k l)).
    rewrite (IH Ht), andb_true_r. pose proof (erase_head k l Ht) as He.
    destruct (erase k l) as [|y l2]; [done|]. apply Z.ltb_lt.
    destruct l; [done|]. lia.
  - destruct (x =? k); done.
Qed.

Lemma contains_insert k l k' :
  sorted l = true → contains k l = false →
  contains k' (insert k l) = (k' =? k) || contains k' l.
Proof.
  induction l as [|x l IH]; intros Hs Hc.
  - simpl. destruct (Z.ltb_spec k k'), (Z.eqb_spec k' k), (Z.eqb_spec k k'); (done || lia).
  - pose proof (sorted_cons_head _ _ Hs) as Hh.
    pose proof (sorted_tail _ _ Hs) as Ht. simpl in Hc |- *.
    destruct (Z.ltb_spec x k) as [Hlt|Hge]; simpl.
    + destruct (Z.ltb_spec x k'); [by apply IH|].
      destruct (Z.eqb_spec k' k); [lia|done].
    + apply Z.eqb_neq in Hc.
      destruct (Z.ltb_spec k k'), (Z.eqb_spec k' k), (Z.eqb_spec k k'),
        (Z.ltb_spec x k'), (Z.eqb_spec x k'); (done || lia).
Qed.

Lemma contains_erase k l k' :
  sorted l = true →
  contains k' (erase k l) = negb (k' =? k) && contains k' l.
Proof.
  induction l as [|x l IH]; intros Hs; [by rewrite andb_false_r|].
  pose proof (sorted_cons_head _ _ Hs) as Hh.
  pose proof (sorted_tail _ _ Hs) as Ht. simpl.
  destruct (Z.ltb_spec x k) as [Hlt|Hge]; simpl.
  - destruct (Z.ltb_spec x k'); [by apply IH|].
    destruct (Z.eqb_spec k' k); [lia|done].
  - destruct (Z.eqb_spec x k) as [->|Hne].
    + destruct (Z.eqb_spec k' k) as [Heq|Hne]; simpl.
      * subst k'. apply contains_below; [done|]. destruct l; [done|lia].
      * destruct (Z.ltb_spec k k'); [done|].
        destruct (Z.eqb_spec k k'); [lia|].
        apply contains_below; [done|]. destruct l; [done|lia].
    + simpl. destruct (Z.ltb_spec x k'), (Z.eqb_spec k' k), (Z.eqb_spec x k');
        (done || lia).
Qed.

(** The states of the set: sorted lists. *)
Definition t : Type := { l : list Z | sorted l = true }.

Definition new : t := exist _ [] eq_refl.

Definition contains' (k : Z) (s : t) : bool := contains k (proj1_sig s).

Definition add' (k : Z) (s : t) : bool * t :=
  match contains k (proj1_sig s) as b return contains k (proj1_sig s) = b → bool * t with
  | true => λ _, (false, s)
  | false => λ Hc, (true, exist _ (insert k (proj1_sig s))
                            (insert_sorted k _ (proj2_sig s) Hc))
  end eq_refl.

Definition remove' (k : Z) (s : t) : bool * t :=
  if contains k (proj1_sig s)
  then (true, exist _ (erase k (proj1_sig s)) (erase_sorted k _ (proj2_sig s)))
  else (false, s).

Lemma add'_unfold k s :
  (add' k s).1 = negb (contains k (proj1_sig s)) ∧
  proj1_sig (add' k s).2 = (add k (proj1_sig s)).2.
Proof.
  unfold add', add. generalize (insert_sorted k (proj1_sig s) (proj2_sig s)).
  destruct (contains k (proj1_sig s)); done.
Qed.

Lemma add'_present k s : contains' k s = true → add' k s = (false, s).
Proof.
  unfold add', contains'. generalize (insert_sorted k (proj1_sig s) (proj2_sig s)).
  destruct (contains k (proj1_sig s)); done.
Qed.

End SortedList.

#[export] Instance SortedList_set : LinkedListSet Z := {|
  lls := SortedList.t;
  lls_new := SortedList.new;
  lls_add := SortedList.add';
  lls_remove := SortedList.remove';
  lls_contains := SortedList.contains';
|}.

#[export] Instance SortedList_contract : LinkedListSetContract Z.
Proof.
  split; simpl.
  - done.
  - apply SortedList.add'_present.
  - intros k s Hc. destruct (SortedList.add'_unfold k s) as [-> _].
    unfold SortedList.contains' in Hc. by rewrite Hc.
  - intros k s k' Hc. unfold SortedList.contains' in *.
    destruct (SortedList.add'_unfold k s) as [_ ->]. unfold SortedList.add.
    rewrite Hc. simpl. rewrite SortedList.contains_insert by (done || apply (proj2_sig s)).
    f_equal. destruct (Z.eqb_spec k' k);
      [by rewrite bool_decide_eq_true_2|by rewrite bool_decide_eq_false_2].
  - intros k s Hc. unfold SortedList.remove', SortedList.contains' in *. by rewrite Hc.
  - intros k s Hc. unfold SortedList.remove', SortedList.contains' in *. by rewrite Hc.
  - intros k s k' Hc. unfold SortedList.remove', SortedList.contains' in *.
    rewrite Hc. simpl. rewrite SortedList.contains_erase by apply (proj2_sig s).
    f_equal. f_equal. destruct (Z.eqb_spec k' k);
      [by rewrite bool_decide_eq_true_2|by rewrite bool_decide_eq_false_2].
Qed.

(** ** The class [LROrderedLinkedList<T>] *)

Inductive mirror : Set := Set1 | Set2.            (* [_set1], [_set2] *)
Inductive readers : Set := Version0 | Version1.   (* [_readersVersion0], [_readersVersion1] *)

#[export] Instance mirror_eq_dec : EqDecision mirror.
Proof. solve_decision. Defined.

#[export] Instance readers_eq_dec : EqDecision readers.
Proof. solve_decision. Defined.

(** An array of [std::atomic<int>] obtained from [new]: a cell holds [None]
    until something is stored in it. *)
Abbreviation counters := (list (option Z)).

Definition counters_load (a : counters) (tid : Z) : result Z :=
  if tid <? 0 then Fault OutOfBounds else
  match a !! Z.to_nat tid with
  | None => Fault OutOfBounds
  | Some None => Fault Uninitialised
  | Some (Some c) => Ok c
  end.

Definition counters_store (a : counters) (tid : Z) (v : Z) : result counters :=
  if tid <? 0 then Fault OutOfBounds else
  match a !! Z.to_nat tid with
  | None => Fault OutOfBounds
  | Some _ => Ok (<[Z.to_nat tid := Some v]> a)
  end.

(** [a[tid].fetch_add(delta)]: the sum wraps around, as [std::atomic<int>]
    arithmetic does. *)
Definition counters_fetch_add (a : counters) (tid : Z) (delta : Z) : result (Z * counters) :=
  match counters_load a tid with
  | Ok c => Ok (c, <[Z.to_nat tid := Some (to_int (c + delta))]> a)
  | Fault e => Fault e
  end.

Declare Scope lr_scope.

Section LROrderedLinkedList.

Context {T : Type} `{T_countable : Countable T} `{T_set : LinkedListSet T}.

(** The header defines [LROLL_NUMBER_OF_CORES] and [LROLL_COUNTERS_RATIO]
    but the class body names [LROLLS_NUMBER_OF_CORES] and
    [LROLLS_COUNTERS_RATIO], which no source at hand defines: they are
    parameters of the development. *)
Variable LROLLS_NUMBER_OF_CORES : Z.
Variable LROLLS_COUNTERS_RATIO : Z.

Definition READS_ON_LEFT : Z := 0.
Definition READS_ON_RIGHT : Z := 1.

Record LROrderedLinkedList : Type := {
  _set1 : lls;
  _set2 : lls;
  _leftRight : Z;
  _versionIndex : Z;
  _readersVersion0 : counters;
  _readersVersion1 : counters;
  _writersMutex : bool;            (* true while the mutex is held *)
  _numCores : Z;
  _readersLength : Z;
}.

Definition with_set (m : mirror) (s : lls) (o : LROrderedLinkedList) :=
  match m with
  | Set1 => {| _set1 := s; _set2 := _set2 o; _leftRight := _leftRight o;
               _versionIndex := _versionIndex o;
               _readersVersion0 := _readersVersion0 o;
               _readersVersion1 := _readersVersion1 o;
               _writersMutex := _writersMutex o; _numCores := _numCores o;
               _readersLength := _readersLength o |}
  | Set2 => {| _set1 := _set1 o; _set2 := s; _leftRight := _leftRight o;
               _versionIndex := _versionIndex o;
               _readersVersion0 := _readersVersion0 o;
               _readersVersion1 := _readersVersion1 o;
               _writersMutex := _writersMutex o; _numCores := _numCores o;
               _readersLength := _readersLength o |}
  end.

Definition with_leftRight (v : Z) (o : LROrderedLinkedList) :=
  {| _set1 := _set1 o; _set2 := _set2 o; _leftRight := v;
     _versionIndex := _versionIndex o;
     _readersVersion0 := _readersVersion0 o;
     _readersVersion1 := _readersVersion1 o;
     _writersMutex := _writersMutex o; _numCores := _numCores o;
     _readersLength := _readersLength o |}.

Definition with_versionIndex (v : Z) (o : LROrderedLinkedList) :=
  {| _set1 := _set1 o; _set2 := _set2 o; _leftRight := _leftRight o;
     _versionIndex := v;
     _readersVersion0 := _readersVersion0 o;
     _readersVersion1 := _readersVersion1 o;
     _writersMutex := _writersMutex o; _numCores := _numCores o;
     _readersLength := _readersLength o |}.

Definition with_readers (a : readers) (c : counters) (o : LROrderedLinkedList) :=
  match a with
  | Version0 => {| _set1 := _set1 o; _set2 := _set2 o; _leftRight := _leftRight o;
                   _versionIndex := _versionIndex o;
                   _readersVersion0 := c;
                   _readersVersion1 := _readersVersion1 o;
                   _writersMutex := _writersMutex o; _numCores := _numCores o;
                   _readersLength := _readersLength o |}
  | Version1 => {| _set1 := _set1 o; _set2 := _set2 o; _leftRight := _leftRight o;
                   _versionIndex := _versionIndex o;
                   _readersVersion0 := _readersVersion0 o;
                   _readersVersion1 := c;
                   _writersMutex := _writersMutex o; _numCores := _numCores o;
                   _readersLength := _readersLength o |}
  end.

Definition with_writersMutex (b : bool) (o : LROrderedLinkedList) :=
  {| _set1 := _set1 o; _set2 := _set2 o; _leftRight := _leftRight o;
     _versionIndex := _versionIndex o;
     _readersVersion0 := _readersVersion0 o;
     _readersVersion1 := _readersVersion1 o;
     _writersMutex := b; _numCores := _numCores o;
     _readersLength := _readersLength o |}.

Definition set_of (m : mirror) (o : LROrderedLinkedList) : lls :=
  match m with Set1 => _set1 o | Set2 => _set2 o end.

Definition readers_of (a : readers) (o : LROrderedLinkedList) : counters :=
  match a with Version0 => _readersVersion0 o | Version1 => _readersVersion1 o end.

(** *** Atomic operations and the monad of member functions *)

Inductive event : Type :=
| EvLock                                   (* [_writersMutex.lock()] *)
| EvUnlock                                 (* [_writersMutex.unlock()] *)
| EvYield                                  (* [std::this_thread::yield()] *)
| EvLoadLeftRight (v : Z)                  (* [_leftRight.load()] *)
| EvStoreLeftRight (v : Z)                 (* [_leftRight.store(v)] *)
| EvLoadVersionIndex (v : Z)               (* [_versionIndex.load()] *)
| EvStoreVersionIndex (v : Z)              (* [_versionIndex.store(v)] *)
| EvLoadReaders (a : readers) (tid v : Z)  (* [a[tid].load()] *)
| EvFetchAdd (a : readers) (tid delta : Z) (* [a[tid].fetch_add(delta)] *)
| EvAdd (m : mirror) (key : T) (r : bool)       (* [m.add(key)] *)
| EvRemove (m : mirror) (key : T) (r : bool)    (* [m.remove(key)] *)
| EvContains (m : mirror) (key : T) (r : bool). (* [m.contains(key)] *)

(** A trace lists the operations on shared members in program order, each
    with the state of the object right after it. *)
Definition trace : Type := list (event * LROrderedLinkedList).

Definition M (A : Type) : Type :=
  LROrderedLinkedList → result (A * LROrderedLinkedList * trace).

Definition ret {A} (a : A) : M A := λ o, Ok (a, o, []).

Definition bind {A B} (m : M A) (f : A → M B) : M B := λ o,
  match m o with
  | Ok (a, o1, t1) =>
      match f a o1 with
      | Ok (b, o2, t2) => Ok (b, o2, t1 ++ t2)
      | Fault e => Fault e
      end
  | Fault e => Fault e
  end.

Definition throw {A} (e : fault) : M A := λ _, Fault e.

Definition member {A} (f : LROrderedLinkedList → A) : M A := λ o, Ok (f o, o, []).

Definition atomic {A} (f : LROrderedLinkedList → result (A * LROrderedLinkedList))
    (ev : A → event) : M A := λ o,
  match f o with
  | Ok (a, o') => Ok (a, o', [(ev a, o')])
  | Fault e => Fault e
  end.

Notation "x <- c1 ;; c2" := (bind c1 (λ x, c2))
  (at level 100, c1 at next level, c2 at level 200, right associativity) : lr_scope.
Notation "c1 ;; c2" := (bind c1 (λ _, c2))
  (at level 100, c2 at level 200, right associativity) : lr_scope.
Local Open Scope lr_scope.

Definition lock : M unit :=
  atomic (λ o, if _writersMutex o then Fault Deadlock
               else Ok (tt, with_writersMutex true o))
         (λ _, EvLock).

Definition unlock : M unit :=
  atomic (λ o, Ok (tt, with_writersMutex false o)) (λ _, EvUnlock).

Definition yield : M unit := atomic (λ o, Ok (tt, o)) (λ _, EvYield).

Definition load_leftRight : M Z :=
  atomic (λ o, Ok (_leftRight o, o)) EvLoadLeftRight.

Definition store_leftRight (v : Z) : M unit :=
  atomic (λ o, Ok (tt, with_leftRight v o)) (λ _, EvStoreLeftRight v).

Definition load_versionIndex : M Z :=
  atomic (λ o, Ok (_versionIndex o, o)) EvLoadVersionIndex.

Definition store_versionIndex (v : Z) : M unit :=
  atomic (λ o, Ok (tt, with_versionIndex v o)) (λ _, EvStoreVersionIndex v).

Definition load_readers (a : readers) (tid : Z) : M Z :=
  atomic (λ o, match counters_load (readers_of a o) tid with
               | Ok c => Ok (c, o)
               | Fault e => Fault e
               end)
         (EvLoadReaders a tid).

Definition fetch_add_readers (a : readers) (tid delta : Z) : M Z :=
  atomic (λ o, match counters_fetch_add (readers_of a o) tid delta with
               | Ok (c, r) => Ok (c, with_readers a r o)
               | Fault e => Fault e
               end)
         (λ _, EvFetchAdd a tid delta).

Definition set_add (m : mirror) (key : T) : M bool :=
  atomic (λ o, let (r, s) := lls_add key (set_of m o) in Ok (r, with_set m s o))
         (EvAdd m key).

Definition set_remove (m : mirror) (key : T) : M bool :=
  atomic (λ o, let (r, s) := lls_remove key (set_of m o) in Ok (r, with_set m s o))
         (EvRemove m key).

Definition set_contains (m : mirror) (key : T) : M bool :=
  atomic (λ o, Ok (lls_contains key (set_of m o), o)) (EvContains m key).

(** [int] addition; leaving the range of [int] is undefined behaviour. *)
Definition int_add (a b : Z) : M Z :=
  if is_int (a + b) then ret (a + b) else throw SignedOverflow.

(** *** The constructor

    [hardware_concurrency] is the value [std::thread::hardware_concurrency()]
    returns.  The loop writes a zero into the slots
    [0, LROLLS_COUNTERS_RATIO, 2*LROLLS_COUNTERS_RATIO, ...] of both arrays;
    the other cells stay as [new] left them. *)

Fixpoint constructor_loop (fuel : nat) (readersLength tid : Z)
    (r0 r1 : counters) : result (counters * counters) :=
  if tid <? readersLength then
    match fuel with
    | O => Fault OutOfFuel
    | S fuel' =>
        match counters_store r0 tid 0 with
        | Ok r0' =>
            match counters_store r1 tid 0 with
            | Ok r1' =>
                constructor_loop fuel' readersLength
                  (to_int (tid + LROLLS_COUNTERS_RATIO)) r0' r1'
            | Fault e => Fault e
            end
        | Fault e => Fault e
        end
    end
  else Ok (r0, r1).

Definition constructor (fuel : nat) (hardware_concurrency : Z)
    : result LROrderedLinkedList :=
  let hw_cores := to_int hardware_concurrency in
  let hw_cores :=
    if hw_cores =? 0 then to_int LROLLS_NUMBER_OF_CORES else hw_cores in
  let numCores := hw_cores in
  let readersLength := to_int (numCores * LROLLS_COUNTERS_RATIO) in
  if readersLength <? 0 then Fault BadArrayLength else
  let fresh := replicate (Z.to_nat readersLength) None in
  match constructor_loop fuel readersLength 0 fresh fresh with
  | Ok (r0, r1) =>
      Ok {| _set1 := lls_new; _set2 := lls_new;
            _leftRight := READS_ON_LEFT; _versionIndex := 0;
            _readersVersion0 := r0; _readersVersion1 := r1;
            _writersMutex := false;
            _numCores := numCores; _readersLength := readersLength |}
  | Fault e => Fault e
  end.

(** *** Private member functions *)

(** [thread_hash] is [hashFunc(std::this_thread::get_id())], a
    [std::size_t]. *)
Definition thread_2_tid (thread_hash : Z) : M Z :=
  let tid := to_size_t thread_hash in
  let tid := Z.lxor tid (to_size_t (Z.shiftl tid 21)) in
  let tid := Z.lxor tid (Z.shiftr tid 35) in
  let tid := Z.lxor tid (to_size_t (Z.shiftl tid 4)) in
  numCores <- member _numCores ;;
  let numCores := to_size_t numCores in
  if numCores =? 0 then throw DivisionByZero
  else ret (to_int ((tid mod numCores) * LROLLS_COUNTERS_RATIO)).

Definition readIndicatorArrive (tid : Z) : M Z :=
  localVersionIndex <- load_versionIndex ;;
  (if localVersionIndex =? 0
   then fetch_add_readers Version0 tid 1
   else fetch_add_readers Version1 tid 1) ;;
  ret localVersionIndex.

Definition readIndicatorDepart (tid localVersionIndex : Z) : M unit :=
  (if localVersionIndex =? 0
   then fetch_add_readers Version0 tid (-1)
   else fetch_add_readers Version1 tid (-1)) ;;
  ret tt.

(** The [for] loop of [readIndicatorIsEmpty], from slot [tid] on. *)
Fixpoint readIndicatorIsEmpty_loop (fuel : nat) (a : readers) (tid : Z) : M bool :=
  readersLength <- member _readersLength ;;
  if tid <? readersLength then
    match fuel with
    | O => throw OutOfFuel
    | S fuel' =>
        c <- load_readers a tid ;;
        if negb (c =? 0) then ret false
        else readIndicatorIsEmpty_loop fuel' a (to_int (tid + LROLLS_COUNTERS_RATIO))
    end
  else ret true.

Definition readIndicatorIsEmpty (fuel : nat) (localVersionIndex : Z) : M bool :=
  if localVersionIndex =? 0
  then readIndicatorIsEmpty_loop fuel Version0 0
  else readIndicatorIsEmpty_loop fuel Version1 0.

(** [while (!readIndicatorIsEmpty(v)) std::this_thread::yield();] with at
    most [spins] evaluations of the condition. *)
Fixpoint wait_for_readers (spins fuel : nat) (v : Z) : M unit :=
  match spins with
  | O => throw OutOfFuel
  | S spins' =>
      empty <- readIndicatorIsEmpty fuel v ;;
      if negb empty then yield ;; wait_for_readers spins' fuel v
      else ret tt
  end.

Definition toggleVersionAndWait (fuel : nat) : M unit :=
  localVersionIndex <- load_versionIndex ;;
  let prevVersionIndex := Z.rem localVersionIndex 2 in
  next <- int_add localVersionIndex 1 ;;
  let nextVersionIndex := Z.rem next 2 in
  wait_for_readers fuel fuel nextVersionIndex ;;
  store_versionIndex nextVersionIndex ;;
  wait_for_readers fuel fuel prevVersionIndex.

(** *** Public member functions

    The [std::lock_guard] holds the mutex from its declaration to every
    exit of the function. *)

Definition add (fuel : nat) (key : T) : M bool :=
  lock ;;
  leftRight <- load_leftRight ;;
  retValue <-
    (if leftRight =? READS_ON_LEFT then
       added <- set_add Set2 key ;;
       if negb added then ret false else
       store_leftRight READS_ON_RIGHT ;;
       toggleVersionAndWait fuel ;;
       set_add Set1 key ;;
       ret true
     else
       added <- set_add Set1 key ;;
       if negb added then ret false else
       store_leftRight READS_ON_LEFT ;;
       toggleVersionAndWait fuel ;;
       set_add Set2 key ;;
       ret true) ;;
  unlock ;;
  ret retValue.

Definition contains (thread_hash : Z) (key : T) : M bool :=
  tid <- thread_2_tid thread_hash ;;
  localVersionIndex <- readIndicatorArrive tid ;;
  leftRight <- load_leftRight ;;
  retValue <-
    (if leftRight =? READS_ON_LEFT
     then set_contains Set1 key
     else set_contains Set2 key) ;;
  readIndicatorDepart tid localVersionIndex ;;
  ret retValue.

Definition remove (fuel : nat) (key : T) : M bool :=
  lock ;;
  leftRight <- load_leftRight ;;
  retValue <-
    (if leftRight =? READS_ON_LEFT then
       removed <- set_remove Set2 key ;;
       if negb removed then ret false else
       store_leftRight READS_ON_RIGHT ;;
       toggleVersionAndWait fuel ;;
       set_remove Set1 key ;;
       ret true
     else
       removed <- set_remove Set1 key ;;
       if negb removed then ret false else
       store_leftRight READS_ON_LEFT ;;
       toggleVersionAndWait fuel ;;
       set_remove Set2 key ;;
       ret true) ;;
  unlock ;;
  ret retValue.

(** *** Sequences of calls by one thread *)

Inductive call : Type :=
| Add (key : T)
| Remove (key : T)
| Contains (key : T).

Definition invoke (fuel : nat) (thread_hash : Z) (c : call) : M bool :=
  match c with
  | Add key => add fuel key
  | Remove key => remove fuel key
  | Contains key => contains thread_hash key
  end.

Fixpoint run (fuel : nat) (thread_hash : Z) (cs : list call) : M (list bool) :=
  match cs with
  | [] => ret []
  | c :: cs' =>
      r <- invoke fuel thread_hash c ;;
      rs <- run fuel thread_hash cs' ;;
      ret (r :: rs)
  end.

(** The plain set the spec compares with: [add] answers whether the key was
    absent, [remove] whether it was present, [contains] whether it is
    present. *)
Definition plain_set_call (c : call) (S : gset T) : bool * gset T :=
  match c with
  | Add key => (bool_decide (key ∉ S), {[key]} ∪ S)
  | Remove key => (bool_decide (key ∈ S), S ∖ {[key]})
  | Contains key => (bool_decide (key ∈ S), S)
  end.

Fixpoint plain_set_run (cs : list call) (S : gset T) : list bool :=
  match cs with
  | [] => []
  | c :: cs' =>
      (plain_set_call c S).1 :: plain_set_run cs' (plain_set_call c S).2
  end.

(** *** Predicates on the state of the object *)

(** The number of cores the constructor settles on. *)
Definition cores_of (hardware_concurrency : Z) : Z :=
  if to_int hardware_concurrency =? 0 then to_int LROLLS_NUMBER_OF_CORES
  else to_int hardware_concurrency.

(** The configuration is usable: the ratio and the number of cores are
    positive, the length of the arrays fits an [int], and [fuel] covers one
    pass over the slots. *)
Definition config_ok (fuel : nat) (hardware_concurrency : Z) : bool :=
  (0 <? LROLLS_COUNTERS_RATIO)
  && (0 <? cores_of hardware_concurrency)
  && (cores_of hardware_concurrency * LROLLS_COUNTERS_RATIO <=? INT_MAX)
  && (cores_of hardware_concurrency <? Z.of_nat fuel).

(** Slot [i] of an array is the cell at index [i * LROLLS_COUNTERS_RATIO]. *)
Definition slot (a : counters) (i : nat) : option (option Z) :=
  a !! Z.to_nat (Z.of_nat i * LROLLS_COUNTERS_RATIO).

Definition slots_all (p : Z → bool) (n : Z) (a : counters) : bool :=
  forallb (λ i, match slot a i with Some (Some c) => p c | _ => false end)
          (seq 0 (Z.to_nat n)).

(** The arrays are as the constructor allocates them and every slot holds
    an [int]. *)
Definition well_formed (o : LROrderedLinkedList) : bool :=
  (0 <? LROLLS_COUNTERS_RATIO)
  && (0 <? _numCores o)
  && (_readersLength o =? _numCores o * LROLLS_COUNTERS_RATIO)
  && (_readersLength o <=? INT_MAX)
  && (Z.of_nat (length (_readersVersion0 o)) =? _readersLength o)
  && (Z.of_nat (length (_readersVersion1 o)) =? _readersLength o)
  && slots_all is_int (_numCores o) (_readersVersion0 o)
  && slots_all is_int (_numCores o) (_readersVersion1 o).

(** Every presence counter of both arrays is zero. *)
Definition no_readers (o : LROrderedLinkedList) : bool :=
  well_formed o
  && slots_all (Z.eqb 0) (_numCores o) (_readersVersion0 o)
  && slots_all (Z.eqb 0) (_numCores o) (_readersVersion1 o).

(** The epoch index is 0 or 1. *)
Definition epoch_ok (o : LROrderedLinkedList) : bool :=
  (_versionIndex o =? 0) || (_versionIndex o =? 1).

(** No reader is in flight and no writer holds the mutex. *)
Definition quiescent (o : LROrderedLinkedList) : bool :=
  no_readers o && epoch_ok o && negb (_writersMutex o).

(** The mirror the selector names, and the other one. *)
Definition foreground (o : LROrderedLinkedList) : mirror :=
  if _leftRight o =? READS_ON_LEFT then Set1 else Set2.

Definition background (o : LROrderedLinkedList) : mirror :=
  if _leftRight o =? READS_ON_LEFT then Set2 else Set1.

Definition readers_at (localVersionIndex : Z) : readers :=
  if localVersionIndex =? 0 then Version0 else Version1.

(** The state after [a[tid].fetch_add(delta)] when the cell held [c]. *)
Definition fetch_added (a : readers) (tid c delta : Z) (o : LROrderedLinkedList) :=
  with_readers a (<[Z.to_nat tid := Some (to_int (c + delta))]> (readers_of a o)) o.

(** Array [r] with a zero stored in the slots [i], ..., [i + k - 1]. *)
Definition zeroed (i k : nat) (r : counters) : counters :=
  foldl (λ r (j : nat), <[Z.to_nat (Z.of_nat j * LROLLS_COUNTERS_RATIO) := Some 0]> r)
        r (seq i k).

(** The two mirrors hold the same keys. *)
Definition mirrors_agree (o : LROrderedLinkedList) : Prop :=
  ∀ k, lls_contains k (_set1 o) = lls_contains k (_set2 o).

(** The two mirrors differ by exactly [key]. *)
Definition mirrors_differ_by (key : T) (o : LROrderedLinkedList) : Prop :=
  ∀ k, lls_contains k (_set1 o) ≠ lls_contains k (_set2 o) ↔ k = key.

(** The mirrors hold exactly the keys of [S]. *)
Definition represents (o : LROrderedLinkedList) (S : gset T) : Prop :=
  ∀ k, lls_contains k (_set1 o) = bool_decide (k ∈ S)
       ∧ lls_contains k (_set2 o) = bool_decide (k ∈ S).

(** *** Reading traces *)

Definition is_mutation (e : event) : bool :=
  match e with
  | EvAdd _ _ _ | EvRemove _ _ _ => true
  | _ => false
  end.

Definition is_set_call (e : event) : bool :=
  match e with
  | EvAdd _ _ _ | EvRemove _ _ _ | EvContains _ _ _ => true
  | _ => false
  end.

Definition is_store (e : event) : bool :=
  match e with
  | EvStoreLeftRight _ | EvStoreVersionIndex _ => true
  | _ => false
  end.

Definition events (t : trace) : list event := t.*1.

Fixpoint from_first_mutation (t : trace) : trace :=
  match t with
  | [] => []
  | (e, o) :: t' => if is_mutation e then t else from_first_mutation t'
  end.

Fixpoint until_mutation (t : trace) : trace :=
  match t with
  | [] => []
  | (e, o) :: t' => if is_mutation e then [] else (e, o) :: until_mutation t'
  end.

(** The states the object goes through from the first mutation of a mirror
    up to, and without, the second. *)
Definition between_mutations (t : trace) : list LROrderedLinkedList :=
  match from_first_mutation t with
  | [] => []
  | (_, o) :: t' => o :: (until_mutation t').*2
  end.

(** An entry of a trace that is no mutation of a mirror and whose state
    has the mirrors of [o]. *)
Definition mirrors_kept (o : LROrderedLinkedList) (eo : event * LROrderedLinkedList) : Prop :=
  is_mutation eo.1 = false ∧ _set1 eo.2 = _set1 o ∧ _set2 eo.2 = _set2 o.

(** The trace of one full pass of [readIndicatorIsEmpty] over array [a]
    when every slot reads zero. *)
Definition scan_trace (a : readers) (o : LROrderedLinkedList) : trace :=
  map (λ i : nat, (EvLoadReaders a (Z.of_nat i * LROLLS_COUNTERS_RATIO) 0, o))
      (seq 0 (Z.to_nat (_numCores o))).

(** *** Definitions the proofs go through *)

(** [well_formed], fact by fact. *)
Record well_formed_facts (o : LROrderedLinkedList) : Prop := {
  wf_ratio : 0 < LROLLS_COUNTERS_RATIO;
  wf_numCores : 0 < _numCores o;
  wf_readersLength : _readersLength o = _numCores o * LROLLS_COUNTERS_RATIO;
  wf_fits : _readersLength o ≤ INT_MAX;
  wf_length a : Z.of_nat (length (readers_of a o)) = _readersLength o;
  wf_slot a (i : nat) :
    (i < Z.to_nat (_numCores o))%nat →
    ∃ c, slot (readers_of a o) i = Some (Some c) ∧ is_int c = true;
}.

(** The object the constructor builds. *)
Definition constructed (hardware_concurrency : Z) : LROrderedLinkedList :=
  let n := cores_of hardware_concurrency in
  let fresh := replicate (Z.to_nat (n * LROLLS_COUNTERS_RATIO)) None in
  {| _set1 := lls_new; _set2 := lls_new;
     _leftRight := READS_ON_LEFT; _versionIndex := 0;
     _readersVersion0 := zeroed 0 (Z.to_nat n) fresh;
     _readersVersion1 := zeroed 0 (Z.to_nat n) fresh;
     _writersMutex := false;
     _numCores := n; _readersLength := n * LROLLS_COUNTERS_RATIO |}.

(** [add] and [remove] are the same code up to the member function of
    [LinkedListSet] they call; [writer] abstracts that call, and
    [writer_branch] is one arm of its [if]. *)
Definition set_call (f : T → lls → bool * lls) (ev : mirror → T → bool → event)
    (m : mirror) (key : T) : M bool :=
  atomic (λ o, let (r, s) := f key (set_of m o) in Ok (r, with_set m s o))
         (ev m key).

Definition writer (f : T → lls → bool * lls) (ev : mirror → T → bool → event)
    (fuel : nat) (key : T) : M bool :=
  lock ;;
  leftRight <- load_leftRight ;;
  retValue <-
    (if leftRight =? READS_ON_LEFT then
       done <- set_call f ev Set2 key ;;
       if negb done then ret false else
       store_leftRight READS_ON_RIGHT ;;
       toggleVersionAndWait fuel ;;
       set_call f ev Set1 key ;;
       ret true
     else
       done <- set_call f ev Set1 key ;;
       if negb done then ret false else
       store_leftRight READS_ON_LEFT ;;
       toggleVersionAndWait fuel ;;
       set_call f ev Set2 key ;;
       ret true) ;;
  unlock ;;
  ret retValue.

Definition writer_branch (f : T → lls → bool * lls) (ev : mirror → T → bool → event)
    (fuel : nat) (key : T) (bg fg : mirror) (leftRight : Z) : M bool :=
  done <- set_call f ev bg key ;;
  if negb done then ret false else
  store_leftRight leftRight ;;
  toggleVersionAndWait fuel ;;
  set_call f ev fg key ;;
  ret true.

(** The object after an arm of [writer] that mutates both mirrors, and after
    the [writer] itself. *)
Definition branch_result (f : T → lls → bool * lls) (key : T) (bg fg : mirror)
    (leftRight : Z) (o : LROrderedLinkedList) : LROrderedLinkedList :=
  let o1 := with_set bg (f key (set_of bg o)).2 o in
  let o2 := with_leftRight leftRight o1 in
  let o3 := with_versionIndex (1 - _versionIndex o2) o2 in
  with_set fg (f key (set_of fg o3)).2 o3.

Definition writer_result (f : T → lls → bool * lls) (key : T)
    (o : LROrderedLinkedList) : LROrderedLinkedList :=
  with_writersMutex false
    (if _leftRight o =? READS_ON_LEFT
     then branch_result f key Set2 Set1 READS_ON_RIGHT (with_writersMutex true o)
     else branch_result f key Set1 Set2 READS_ON_LEFT (with_writersMutex true o)).

(** The local [tid] of [thread_2_tid] after its three xor-shifts, before it
    is reduced modulo the number of cores. *)
Definition mixed_tid (thread_hash : Z) : Z :=
  let tid := to_size_t thread_hash in
  let tid := Z.lxor tid (to_size_t (Z.shiftl tid 21)) in
  let tid := Z.lxor tid (Z.shiftr tid 35) in
  Z.lxor tid (to_size_t (Z.shiftl tid 4)).

(** ** Properties of the sequential layer *)

Context `{!LinkedListSetContract T}.

(** *** Machine integers *)

Lemma to_int_id z : INT_MIN ≤ z ≤ INT_MAX → to_int z = z.
Proof.
  unfold to_int, INT_MIN, INT_MAX. intros Hz.
  rewrite Z.mod_small by lia. lia.
Qed.

Lemma is_int_spec z : is_int z = true ↔ INT_MIN ≤ z ≤ INT_MAX.
Proof. unfold is_int. rewrite andb_true_iff, !Z.leb_le. tauto. Qed.

Lemma to_int_is_int z : is_int (to_int z) = true.
Proof.
  apply is_int_spec. unfold to_int, INT_MIN, INT_MAX.
  pose proof (Z.mod_pos_bound (z + 2 ^ 31) (2 ^ 32)). lia.
Qed.

Lemma to_int_add_sub c d : is_int c = true → to_int (to_int (c + d) + - d) = c.
Proof.
  intros Hc%is_int_spec. unfold to_int, INT_MIN, INT_MAX in *.
  replace ((c + d + 2 ^ 31) mod 2 ^ 32 - 2 ^ 31 + - d + 2 ^ 31)
    with ((c + d + 2 ^ 31) mod 2 ^ 32 + - d) by lia.
  rewrite Zplus_mod_idemp_l.
  replace (c + d + 2 ^ 31 + - d) with (c + 2 ^ 31) by lia.
  rewrite Z.mod_small by lia. lia.
Qed.

(** *** The monad *)

Lemma bind_Ok {A B} (m : M A) (f : A → M B) o a o1 t1 :
  m o = Ok (a, o1, t1) →
  bind m f o = match f a o1 with
               | Ok (b, o2, t2) => Ok (b, o2, t1 ++ t2)
               | Fault e => Fault e
               end.
Proof. unfold bind. by intros ->. Qed.

Lemma bind_inv {A B} (m : M A) (f : A → M B) o b o2 t :
  bind m f o = Ok (b, o2, t) →
  ∃ a o1 t1 t2, m o = Ok (a, o1, t1) ∧ f a o1 = Ok (b, o2, t2) ∧ t = t1 ++ t2.
Proof.
  unfold bind. destruct (m o) as [[[a o1] t1]|]; [|done].
  destruct (f a o1) as [[[b' o2'] t2]|] eqn:Hf; [|done].
  intros [= -> -> <-]. by exists a, o1, t1, t2.
Qed.

Lemma atomic_inv {A} (f : LROrderedLinkedList → result (A * LROrderedLinkedList))
    ev o a o' t :
  atomic f ev o = Ok (a, o', t) → f o = Ok (a, o') ∧ t = [(ev a, o')].
Proof.
  unfold atomic. destruct (f o) as [[a' o'']|]; [|done]. by intros [= -> -> <-].
Qed.

(** *** Slots *)

Lemma slots_all_spec p n a :
  slots_all p n a = true ↔
  ∀ i : nat, (i < Z.to_nat n)%nat → ∃ c, slot a i = Some (Some c) ∧ p c = true.
Proof.
  unfold slots_all. rewrite forallb_forall. split.
  - intros Hall i Hi. specialize (Hall i). rewrite in_seq in Hall.
    specialize (Hall ltac:(lia)). destruct (slot a i) as [[c|]|]; [|done..].
    by exists c.
  - intros Hall i Hi%in_seq. destruct (Hall i ltac:(lia)) as (c & -> & Hc). done.
Qed.

Lemma slots_all_weaken (p q : Z → bool) n a :
  (∀ c, p c = true → q c = true) → slots_all p n a = true → slots_all q n a = true.
Proof.
  rewrite !slots_all_spec. intros Hpq Hp i Hi.
  destruct (Hp i Hi) as (c & ? & ?). exists c. auto.
Qed.

Lemma well_formed_spec o : well_formed o = true ↔ well_formed_facts o.
Proof.
  unfold well_formed. rewrite !andb_true_iff, !Z.ltb_lt, !Z.eqb_eq, Z.leb_le.
  rewrite !slots_all_spec. split.
  - intros (((((((?&?)&?)&?)&?)&?)&?)&?). split; try done; by intros [].
  - intros [? ? ? ? Hl Hs]. repeat split; try done.
    + apply (Hl Version0). + apply (Hl Version1).
    + apply (Hs Version0). + apply (Hs Version1).
Qed.

Lemma slot_index_bounds o (i : nat) :
  well_formed_facts o → (i < Z.to_nat (_numCores o))%nat →
  0 ≤ Z.of_nat i * LROLLS_COUNTERS_RATIO
  ∧ Z.of_nat i * LROLLS_COUNTERS_RATIO + LROLLS_COUNTERS_RATIO ≤ _readersLength o.
Proof.
  intros [HR Hn Hl Hf _ _] Hi. rewrite Hl. nia.
Qed.

Lemma counters_load_slot a (i : nat) c :
  0 ≤ Z.of_nat i * LROLLS_COUNTERS_RATIO →
  slot a i = Some (Some c) →
  counters_load a (Z.of_nat i * LROLLS_COUNTERS_RATIO) = Ok c.
Proof.
  unfold slot, counters_load. intros Hi ->.
  destruct (Z.ltb_spec (Z.of_nat i * LROLLS_COUNTERS_RATIO) 0); [lia|done].
Qed.

(** *** [thread_2_tid] *)

Lemma thread_2_tid_slot thread_hash o :
  well_formed_facts o →
  ∃ i : nat, (i < Z.to_nat (_numCores o))%nat
    ∧ thread_2_tid thread_hash o = Ok (Z.of_nat i * LROLLS_COUNTERS_RATIO, o, []).
Proof.
  intros Hwf. pose proof Hwf as [HR Hn Hl Hf _ _].
  unfold thread_2_tid, bind, member, ret, throw.
  set (tid := Z.lxor _ _).
  assert (Hnc : to_size_t (_numCores o) = _numCores o).
  { unfold to_size_t. apply Z.mod_small. unfold INT_MAX in Hf. nia. }
  rewrite Hnc. destruct (Z.eqb_spec (_numCores o) 0); [lia|].
  pose proof (Z.mod_pos_bound tid (_numCores o) Hn) as Hm.
  exists (Z.to_nat (tid mod _numCores o)). split; [lia|].
  rewrite Z2Nat.id by lia. rewrite to_int_id; [done|].
  unfold INT_MIN, INT_MAX in *. nia.
Qed.

(** *** [readIndicatorIsEmpty] *)

Lemma readIndicatorIsEmpty_loop_unfold fuel a tid o :
  readIndicatorIsEmpty_loop fuel a tid o =
  if tid <? _readersLength o then
    match fuel with
    | O => Fault OutOfFuel
    | S fuel' =>
        match counters_load (readers_of a o) tid with
        | Ok c =>
            if negb (c =? 0) then Ok (false, o, [(EvLoadReaders a tid c, o)])
            else
              match readIndicatorIsEmpty_loop fuel' a
                      (to_int (tid + LROLLS_COUNTERS_RATIO)) o with
              | Ok (b, o', t) => Ok (b, o', (EvLoadReaders a tid c, o) :: t)
              | Fault e => Fault e
              end
        | Fault e => Fault e
        end
    end
  else Ok (true, o, []).
Proof.
  destruct fuel; simpl; unfold bind, member, throw, ret, load_readers, atomic;
    destruct (tid <? _readersLength o); try done.
  destruct (counters_load (readers_of a o) tid); [|done].
  destruct (negb (a0 =? 0)); [done|].
  by destruct (readIndicatorIsEmpty_loop _ _ _ _) as [[[? ?] ?]|].
Qed.

Lemma scan_from a o (k i fuel : nat) :
  well_formed_facts o →
  slots_all (Z.eqb 0) (_numCores o) (readers_of a o) = true →
  (i + k = Z.to_nat (_numCores o))%nat → (k ≤ fuel)%nat →
  readIndicatorIsEmpty_loop fuel a (Z.of_nat i * LROLLS_COUNTERS_RATIO) o =
  Ok (true, o,
      map (λ j : nat, (EvLoadReaders a (Z.of_nat j * LROLLS_COUNTERS_RATIO) 0, o))
          (seq i k)).
Proof.
  intros Hwf Hz. pose proof Hwf as [HR Hn Hl Hf _ _].
  rewrite slots_all_spec in Hz.
  revert i fuel. induction k as [|k IH]; intros i fuel Hik Hfuel;
    rewrite readIndicatorIsEmpty_loop_unfold.
  - destruct (Z.ltb_spec (Z.of_nat i * LROLLS_COUNTERS_RATIO) (_readersLength o));
      [nia|done].
  - destruct (slot_index_bounds o i Hwf ltac:(lia)) as [Hlo Hhi].
    destruct (Z.ltb_spec (Z.of_nat i * LROLLS_COUNTERS_RATIO) (_readersLength o));
      [|lia].
    destruct fuel as [|fuel]; [lia|].
    destruct (Hz i ltac:(lia)) as (c & Hc & <-%Z.eqb_eq).
    rewrite (counters_load_slot _ _ _ Hlo Hc). simpl.
    rewrite to_int_id by (unfold INT_MIN, INT_MAX in *; lia).
    replace (Z.of_nat i * LROLLS_COUNTERS_RATIO + LROLLS_COUNTERS_RATIO)
      with (Z.of_nat (S i) * LROLLS_COUNTERS_RATIO) by lia.
    by rewrite (IH (S i) fuel) by lia.
Qed.

Lemma no_readers_spec o :
  no_readers o = true ↔
  well_formed_facts o ∧
  ∀ a, slots_all (Z.eqb 0) (_numCores o) (readers_of a o) = true.
Proof.
  unfold no_readers. rewrite !andb_true_iff, well_formed_spec. split.
  - intros [[? ?] ?]. split; [done|]. by intros [].
  - intros [? Hs]. split; [split|]; [done|apply (Hs Version0)|apply (Hs Version1)].
Qed.

Lemma readIndicatorIsEmpty_quiet fuel v o :
  no_readers o = true → (Z.to_nat (_numCores o) ≤ fuel)%nat →
  readIndicatorIsEmpty fuel v o = Ok (true, o, scan_trace (readers_at v) o).
Proof.
  intros [Hwf Hz]%no_readers_spec Hfuel.
  pose proof (scan_from (readers_at v) o (Z.to_nat (_numCores o)) 0 fuel
                Hwf (Hz _) eq_refl Hfuel) as Hscan.
  unfold readIndicatorIsEmpty, readers_at in *. by destruct (v =? 0).
Qed.

Lemma wait_for_readers_quiet spins fuel v o :
  no_readers o = true → (0 < spins)%nat → (Z.to_nat (_numCores o) ≤ fuel)%nat →
  wait_for_readers spins fuel v o = Ok (tt, o, scan_trace (readers_at v) o).
Proof.
  intros Hq Hspins Hfuel. destruct spins as [|spins]; [lia|]. simpl. unfold bind.
  rewrite readIndicatorIsEmpty_quiet by done. simpl. by rewrite app_nil_r.
Qed.

(** *** [toggleVersionAndWait] without readers *)

Lemma toggleVersionAndWait_quiet fuel o :
  no_readers o = true → epoch_ok o = true →
  (Z.to_nat (_numCores o) < fuel)%nat →
  toggleVersionAndWait fuel o =
  Ok (tt, with_versionIndex (1 - _versionIndex o) o,
      (EvLoadVersionIndex (_versionIndex o), o)
      :: scan_trace (readers_at (1 - _versionIndex o)) o
      ++ (EvStoreVersionIndex (1 - _versionIndex o),
          with_versionIndex (1 - _versionIndex o) o)
      :: scan_trace (readers_at (_versionIndex o))
           (with_versionIndex (1 - _versionIndex o) o)).
Proof.
  intros Hq Hv Hfuel.
  assert (Hq' : ∀ v, no_readers (with_versionIndex v o) = true) by done.
  pose proof (λ v, wait_for_readers_quiet fuel fuel v o Hq
                     ltac:(lia) ltac:(lia)) as Hw1.
  pose proof (λ v v', wait_for_readers_quiet fuel fuel v
                        (with_versionIndex v' o) (Hq' v')
                        ltac:(lia) ltac:(simpl; lia)) as Hw2.
  unfold toggleVersionAndWait.
  rewrite (bind_Ok _ _ o (_versionIndex o) o [(EvLoadVersionIndex (_versionIndex o), o)])
    by done.
  unfold epoch_ok in Hv. apply orb_prop in Hv.
  destruct Hv as [->%Z.eqb_eq| ->%Z.eqb_eq]; simpl;
    unfold bind at 1; simpl;
    rewrite (bind_Ok _ _ _ _ _ _ (Hw1 _));
    unfold bind at 1; simpl; rewrite Hw2; done.
Qed.

(** *** What the drain protocol leaves alone *)

Lemma readIndicatorIsEmpty_loop_frame fuel a tid o b o' t :
  readIndicatorIsEmpty_loop fuel a tid o = Ok (b, o', t) →
  o' = o ∧ Forall (mirrors_kept o) t.
Proof.
  revert tid b o' t. induction fuel as [|fuel IH]; intros tid b o' t;
    rewrite readIndicatorIsEmpty_loop_unfold;
    destruct (tid <? _readersLength o); try done;
    try (intros [= <- <- <-]; by split).
  destruct (counters_load (readers_of a o) tid) as [c|]; [|done].
  destruct (negb (c =? 0)).
  - intros [= <- <- <-]. split; [done|]. by repeat constructor.
  - destruct (readIndicatorIsEmpty_loop fuel a _ o) as [[[b1 o1] t1]|] eqn:Hloop;
      [|done].
    intros [= <- <- <-]. destruct (IH _ _ _ _ Hloop) as [-> Ht].
    split; [done|]. by repeat constructor.
Qed.

Lemma readIndicatorIsEmpty_frame fuel v o b o' t :
  readIndicatorIsEmpty fuel v o = Ok (b, o', t) →
  o' = o ∧ Forall (mirrors_kept o) t.
Proof.
  unfold readIndicatorIsEmpty.
  destruct (v =? 0); apply readIndicatorIsEmpty_loop_frame.
Qed.

Lemma wait_for_readers_frame spins fuel v o u o' t :
  wait_for_readers spins fuel v o = Ok (u, o', t) →
  o' = o ∧ Forall (mirrors_kept o) t.
Proof.
  revert u o' t. induction spins as [|spins IH]; intros u o' t; [done|].
  simpl. intros (e & o1 & t1 & t2 & He & Hrest & ->)%bind_inv.
  apply readIndicatorIsEmpty_frame in He as [-> Ht1].
  destruct e; simpl in Hrest.
  - injection Hrest as <- <- <-. split; [done|]. by rewrite app_nil_r.
  - apply bind_inv in Hrest as (? & o2 & t3 & t4 & Hy & Hw & ->).
    unfold yield in Hy. apply atomic_inv in Hy as [[= <- <-] ->].
    apply IH in Hw as [-> Ht4]. split; [done|].
    apply Forall_app. split; [done|]. constructor; [done|done].
Qed.

Lemma mirrors_kept_with_versionIndex v o eo :
  mirrors_kept (with_versionIndex v o) eo → mirrors_kept o eo.
Proof. done. Qed.

Lemma toggleVersionAndWait_frame fuel o u o' t :
  toggleVersionAndWait fuel o = Ok (u, o', t) →
  (∃ v, o' = with_versionIndex v o) ∧ Forall (mirrors_kept o) t.
Proof.
  unfold toggleVersionAndWait.
  intros (v & o1 & t1 & t2 & Hload & Hrest & ->)%bind_inv.
  unfold load_versionIndex in Hload. apply atomic_inv in Hload as [[= <- <-] ->].
  apply bind_inv in Hrest as (next & o2 & t3 & t4 & Hadd & Hrest & ->).
  unfold int_add in Hadd. destruct (is_int _); [|done].
  injection Hadd as <- <- <-.
  apply bind_inv in Hrest as (? & o3 & t5 & t6 & Hw1 & Hrest & ->).
  apply wait_for_readers_frame in Hw1 as [-> Ht5].
  apply bind_inv in Hrest as (? & o4 & t7 & t8 & Hst & Hw2 & ->).
  unfold store_versionIndex in Hst. apply atomic_inv in Hst as [[= <- <-] ->].
  apply wait_for_readers_frame in Hw2 as [-> Ht8].
  split; [by eexists|]. simpl.
  constructor; [done|]. apply Forall_app. split; [done|].
  constructor; [done|].
  eapply Forall_impl; [exact Ht8|]. apply mirrors_kept_with_versionIndex.
Qed.

(** *** [readIndicatorArrive] and [readIndicatorDepart] *)

Lemma fetch_add_readers_Ok a tid delta c o :
  counters_load (readers_of a o) tid = Ok c →
  fetch_add_readers a tid delta o =
  Ok (c, fetch_added a tid c delta o, [(EvFetchAdd a tid delta, fetch_added a tid c delta o)]).
Proof.
  intros Hc. unfold fetch_add_readers, atomic, counters_fetch_add. by rewrite Hc.
Qed.

Lemma readIndicatorArrive_Ok tid c o :
  counters_load (readers_of (readers_at (_versionIndex o)) o) tid = Ok c →
  readIndicatorArrive tid o =
  Ok (_versionIndex o, fetch_added (readers_at (_versionIndex o)) tid c 1 o,
      [(EvLoadVersionIndex (_versionIndex o), o);
       (EvFetchAdd (readers_at (_versionIndex o)) tid 1,
        fetch_added (readers_at (_versionIndex o)) tid c 1 o)]).
Proof.
  intros Hc. unfold readIndicatorArrive, readers_at in *.
  rewrite (bind_Ok _ _ o (_versionIndex o) o [(EvLoadVersionIndex (_versionIndex o), o)])
    by done.
  destruct (_versionIndex o =? 0);
    rewrite (bind_Ok _ _ _ _ _ _ (fetch_add_readers_Ok _ _ _ _ _ Hc)); done.
Qed.

Lemma readIndicatorDepart_Ok tid v c o :
  counters_load (readers_of (readers_at v) o) tid = Ok c →
  readIndicatorDepart tid v o =
  Ok (tt, fetch_added (readers_at v) tid c (-1) o,
      [(EvFetchAdd (readers_at v) tid (-1), fetch_added (readers_at v) tid c (-1) o)]).
Proof.
  intros Hc. unfold readIndicatorDepart, readers_at in *.
  destruct (v =? 0);
    rewrite (bind_Ok _ _ _ _ _ _ (fetch_add_readers_Ok _ _ _ _ _ Hc)); done.
Qed.

Lemma counters_load_Ok a tid c :
  counters_load a tid = Ok c ↔ 0 ≤ tid ∧ a !! Z.to_nat tid = Some (Some c).
Proof.
  unfold counters_load. destruct (Z.ltb_spec tid 0).
  - split; [done|lia].
  - destruct (a !! Z.to_nat tid) as [[c'|]|]; split; try done; try tauto;
      try (by intros [_ [=]]). { by intros [= ->]. } { by intros [_ [= ->]]. }
Qed.

Lemma counters_load_fetch_added a tid c delta o :
  counters_load (readers_of a o) tid = Ok c →
  counters_load (readers_of a (fetch_added a tid c delta o)) tid = Ok (to_int (c + delta)).
Proof.
  rewrite !counters_load_Ok. intros [? Hc]. split; [done|].
  assert (Hlt := lookup_lt_Some _ _ _ Hc).
  unfold fetch_added. destruct a; simpl in *; by rewrite list_lookup_insert_eq.
Qed.

Lemma fetch_added_other a tid c delta o a' (j : nat) :
  (a', j) ≠ (a, Z.to_nat tid) →
  readers_of a' (fetch_added a tid c delta o) !! j = readers_of a' o !! j.
Proof.
  intros Hne. unfold fetch_added.
  destruct a, a'; simpl; try done; apply list_lookup_insert_ne; congruence.
Qed.

Lemma fetch_added_back a tid c delta o :
  counters_load (readers_of a o) tid = Ok c → is_int c = true →
  fetch_added a tid (to_int (c + delta)) (- delta) (fetch_added a tid c delta o) = o.
Proof.
  rewrite counters_load_Ok. intros [? Hc] Hint. unfold fetch_added.
  rewrite to_int_add_sub by done.
  destruct o, a; simpl in *; f_equal;
    by rewrite list_insert_insert_eq, list_insert_id.
Qed.

Lemma arrive_depart_facts thread_hash o :
  well_formed o = true →
  ∃ (i : nat) c,
    (i < Z.to_nat (_numCores o))%nat
    ∧ thread_2_tid thread_hash o = Ok (Z.of_nat i * LROLLS_COUNTERS_RATIO, o, [])
    ∧ readIndicatorArrive (Z.of_nat i * LROLLS_COUNTERS_RATIO) o
      = Ok (_versionIndex o,
            fetch_added (readers_at (_versionIndex o))
              (Z.of_nat i * LROLLS_COUNTERS_RATIO) c 1 o,
            [(EvLoadVersionIndex (_versionIndex o), o);
             (EvFetchAdd (readers_at (_versionIndex o))
                (Z.of_nat i * LROLLS_COUNTERS_RATIO) 1,
              fetch_added (readers_at (_versionIndex o))
                (Z.of_nat i * LROLLS_COUNTERS_RATIO) c 1 o)])
    ∧ readIndicatorDepart (Z.of_nat i * LROLLS_COUNTERS_RATIO) (_versionIndex o)
        (fetch_added (readers_at (_versionIndex o))
           (Z.of_nat i * LROLLS_COUNTERS_RATIO) c 1 o)
      = Ok (tt, o,
            [(EvFetchAdd (readers_at (_versionIndex o))
                (Z.of_nat i * LROLLS_COUNTERS_RATIO) (-1), o)]).
Proof.
  intros Hwf%well_formed_spec.
  destruct (thread_2_tid_slot thread_hash o Hwf) as (i & Hi & Htid).
  destruct (wf_slot o Hwf (readers_at (_versionIndex o)) i Hi) as (c & Hslot & Hc).
  destruct (slot_index_bounds o i Hwf Hi) as [Hlo _].
  pose proof (counters_load_slot _ _ _ Hlo Hslot) as Hload.
  exists i, c. split; [done|]. split; [done|].
  split; [by apply readIndicatorArrive_Ok|].
  rewrite (readIndicatorDepart_Ok _ _ (to_int (c + 1)))
    by by apply counters_load_fetch_added.
  by rewrite (fetch_added_back _ _ _ 1) by done.
Qed.

(** C6: for a well-formed object and any calling thread, [readIndicatorArrive]
    adds one (in [int] arithmetic) to the caller's slot of the array of the
    current epoch index, touches no other cell and returns that epoch index;
    [readIndicatorDepart] with the returned epoch subtracts one from the same
    cell; after the pair the object is exactly what it was. *)
Theorem arrive_depart_round_trip thread_hash o :
  well_formed o = true →
  ∃ tid c o1,
    let v := _versionIndex o in
    let a := readers_at v in
    thread_2_tid thread_hash o = Ok (tid, o, [])
    ∧ counters_load (readers_of a o) tid = Ok c
    ∧ readIndicatorArrive tid o =
        Ok (v, o1, [(EvLoadVersionIndex v, o); (EvFetchAdd a tid 1, o1)])
    ∧ counters_load (readers_of a o1) tid = Ok (to_int (c + 1))
    ∧ (c < INT_MAX → to_int (c + 1) = c + 1)
    ∧ (∀ a' (j : nat), (a', j) ≠ (a, Z.to_nat tid) →
         readers_of a' o1 !! j = readers_of a' o !! j)
    ∧ readIndicatorDepart tid v o1 = Ok (tt, o, [(EvFetchAdd a tid (-1), o)])
    ∧ to_int (to_int (c + 1) - 1) = c.
Proof.
  intros Hwf%well_formed_spec.
  destruct (thread_2_tid_slot thread_hash o Hwf) as (i & Hi & Htid).
  destruct (wf_slot o Hwf (readers_at (_versionIndex o)) i Hi) as (c & Hslot & Hc).
  destruct (slot_index_bounds o i Hwf Hi) as [Hlo _].
  pose proof (counters_load_slot _ _ _ Hlo Hslot) as Hload.
  exists (Z.of_nat i * LROLLS_COUNTERS_RATIO), c,
    (fetch_added (readers_at (_versionIndex o))
       (Z.of_nat i * LROLLS_COUNTERS_RATIO) c 1 o).
  simpl. repeat split.
  - done.
  - done.
  - by apply readIndicatorArrive_Ok.
  - by apply counters_load_fetch_added.
  - apply is_int_spec in Hc. intros ?. apply to_int_id.
    unfold INT_MIN, INT_MAX in *. lia.
  - intros a' j Hne. by apply fetch_added_other.
  - rewrite (readIndicatorDepart_Ok _ _ (to_int (c + 1)))
      by by apply counters_load_fetch_added.
    by rewrite (fetch_added_back _ _ _ 1) by done.
  - by apply (to_int_add_sub c 1).
Qed.

(** *** [contains] *)

Lemma contains_Ok thread_hash key o :
  well_formed o = true →
  ∃ tid c,
    let v := _versionIndex o in
    let a := readers_at v in
    let o1 := fetch_added a tid c 1 o in
    let r := lls_contains key (set_of (foreground o) o) in
    contains thread_hash key o =
    Ok (r, o,
        [(EvLoadVersionIndex v, o); (EvFetchAdd a tid 1, o1);
         (EvLoadLeftRight (_leftRight o), o1);
         (EvContains (foreground o) key r, o1);
         (EvFetchAdd a tid (-1), o)]).
Proof.
  intros Hwf%well_formed_spec.
  destruct (thread_2_tid_slot thread_hash o Hwf) as (i & Hi & Htid).
  destruct (wf_slot o Hwf (readers_at (_versionIndex o)) i Hi) as (c & Hslot & Hc).
  destruct (slot_index_bounds o i Hwf Hi) as [Hlo _].
  pose proof (counters_load_slot _ _ _ Hlo Hslot) as Hload.
  exists (Z.of_nat i * LROLLS_COUNTERS_RATIO), c. simpl.
  unfold contains.
  rewrite (bind_Ok _ _ _ _ _ _ Htid).
  rewrite (bind_Ok _ _ _ _ _ _ (readIndicatorArrive_Ok _ _ _ Hload)).
  set (o1 := fetch_added _ _ _ _ _).
  assert (Hlr : _leftRight o1 = _leftRight o) by by destruct (readers_at _).
  assert (Hsets : ∀ m, set_of m o1 = set_of m o)
    by (intros []; by destruct (readers_at _)).
  rewrite (bind_Ok _ _ o1 (_leftRight o) o1 [(EvLoadLeftRight (_leftRight o), o1)])
    by (unfold load_leftRight, atomic; by rewrite Hlr).
  assert (Hc1 : (if _leftRight o =? READS_ON_LEFT
                 then set_contains Set1 key else set_contains Set2 key) o1
                = Ok (lls_contains key (set_of (foreground o) o), o1,
                      [(EvContains (foreground o) key
                          (lls_contains key (set_of (foreground o) o)), o1)])).
  { unfold foreground, set_contains, atomic.
    destruct (_leftRight o =? READS_ON_LEFT); by rewrite Hsets. }
  rewrite (bind_Ok _ _ _ _ _ _ Hc1).
  assert (Hdep := readIndicatorDepart_Ok _ _ _ _
                    (counters_load_fetch_added _ _ _ 1 _ Hload)).
  rewrite (fetch_added_back _ _ _ 1) in Hdep by done.
  by rewrite (bind_Ok _ _ _ _ _ _ Hdep).
Qed.

(** C7: on a well-formed object [contains] returns the answer of the mirror
    the selector names and of no other; every state it goes through has the
    mirrors, the selector and the epoch index of the start, and the state it
    returns in is the start state, every counter included. *)
Theorem contains_reads_foreground thread_hash key o :
  well_formed o = true →
  ∃ t,
    contains thread_hash key o = Ok (lls_contains key (set_of (foreground o) o), o, t)
    ∧ List.filter is_set_call (events t)
      = [EvContains (foreground o) key (lls_contains key (set_of (foreground o) o))]
    ∧ Forall (λ eo : event * LROrderedLinkedList,
                _set1 eo.2 = _set1 o ∧ _set2 eo.2 = _set2 o
                ∧ _leftRight eo.2 = _leftRight o
                ∧ _versionIndex eo.2 = _versionIndex o
                ∧ is_store eo.1 = false) t.
Proof.
  intros Hwf. destruct (contains_Ok thread_hash key o Hwf) as (tid & c & Hc).
  simpl in Hc. eexists. split; [exact Hc|]. split; [done|].
  repeat constructor; simpl; by destruct (readers_at _).
Qed.

(** *** The common shape of [add] and [remove] *)

Lemma add_writer fuel key : add fuel key = writer lls_add EvAdd fuel key.
Proof. reflexivity. Qed.

Lemma remove_writer fuel key : remove fuel key = writer lls_remove EvRemove fuel key.
Proof. reflexivity. Qed.

Lemma with_writersMutex_id o : with_writersMutex (_writersMutex o) o = o.
Proof. by destruct o. Qed.

Lemma with_set_id m o : with_set m (set_of m o) o = o.
Proof. by destruct o, m. Qed.

Lemma unlock_lock o :
  _writersMutex o = false → with_writersMutex false (with_writersMutex true o) = o.
Proof. destruct o; simpl. by intros ->. Qed.

Lemma set_call_Ok f ev m key o :
  set_call f ev m key o =
  Ok ((f key (set_of m o)).1, with_set m (f key (set_of m o)).2 o,
      [(ev m key (f key (set_of m o)).1, with_set m (f key (set_of m o)).2 o)]).
Proof. unfold set_call, atomic. by destruct (f key (set_of m o)). Qed.

(** A writer whose first call on the background mirror answers false returns
    false at once: the mutex is taken and released and nothing else is
    touched. *)
Lemma writer_noop f ev fuel key o :
  _writersMutex o = false →
  f key (set_of (background o) o) = (false, set_of (background o) o) →
  writer f ev fuel key o =
  Ok (false, o,
      [(EvLock, with_writersMutex true o);
       (EvLoadLeftRight (_leftRight o), with_writersMutex true o);
       (ev (background o) key false, with_writersMutex true o);
       (EvUnlock, o)]).
Proof.
  intros Hm Hf. unfold writer.
  rewrite (bind_Ok _ _ o tt (with_writersMutex true o) [(EvLock, with_writersMutex true o)])
    by (unfold lock, atomic; by rewrite Hm).
  set (oL := with_writersMutex true o).
  rewrite (bind_Ok _ _ oL (_leftRight o) oL [(EvLoadLeftRight (_leftRight o), oL)])
    by done.
  assert (Hbody :
    (if _leftRight o =? READS_ON_LEFT then
       done <- set_call f ev Set2 key ;;
       if negb done then ret false else
       store_leftRight READS_ON_RIGHT ;; toggleVersionAndWait fuel ;;
       set_call f ev Set1 key ;; ret true
     else
       done <- set_call f ev Set1 key ;;
       if negb done then ret false else
       store_leftRight READS_ON_LEFT ;; toggleVersionAndWait fuel ;;
       set_call f ev Set2 key ;; ret true) oL
    = Ok (false, oL, [(ev (background o) key false, oL)])).
  { unfold background in *.
    destruct (_leftRight o =? READS_ON_LEFT);
      rewrite (bind_Ok _ _ _ _ _ _ (set_call_Ok _ _ _ _ _));
      change (set_of _ oL) with (set_of Set2 o) || change (set_of _ oL) with (set_of Set1 o);
      rewrite Hf; reflexivity. }
  rewrite (bind_Ok _ _ _ _ _ _ Hbody).
  unfold bind, unlock, atomic, ret. simpl. subst oL. by rewrite unlock_lock.
Qed.

Lemma mirrors_agree_sets o m m' k :
  mirrors_agree o → lls_contains k (set_of m o) = lls_contains k (set_of m' o).
Proof. intros Ha. specialize (Ha k). by destruct m, m'. Qed.

(** C4: on an object at rest (mutex free, mirrors equal), [add] of a key that
    is present returns false and [remove] of a key that is absent returns
    false; either call returns in the very state it started in, no fault is
    raised, and its only operations are taking the mutex, reading the
    selector, the one refused call on the background mirror and releasing the
    mutex: no store to the selector or to the epoch index and no step of the
    drain protocol. *)
Theorem noop_leaves_state fuel key o :
  _writersMutex o = false → mirrors_agree o →
  (lls_contains key (set_of (foreground o) o) = true →
   ∃ t, add fuel key o = Ok (false, o, t)
        ∧ events t = [EvLock; EvLoadLeftRight (_leftRight o);
                      EvAdd (background o) key false; EvUnlock]
        ∧ Forall (λ eo : event * LROrderedLinkedList,
                    with_writersMutex false eo.2 = o) t)
  ∧ (lls_contains key (set_of (foreground o) o) = false →
     ∃ t, remove fuel key o = Ok (false, o, t)
          ∧ events t = [EvLock; EvLoadLeftRight (_leftRight o);
                        EvRemove (background o) key false; EvUnlock]
          ∧ Forall (λ eo : event * LROrderedLinkedList,
                      with_writersMutex false eo.2 = o) t).
Proof.
  intros Hm Ha. split; intros Hk;
    rewrite (mirrors_agree_sets o _ (background o)) in Hk by done.
  - rewrite add_writer, (writer_noop lls_add EvAdd) by (done || by apply lls_add_present).
    eexists. split; [done|]. split; [done|].
    repeat constructor; simpl; by rewrite ?unlock_lock, <-?Hm, ?with_writersMutex_id.
  - rewrite remove_writer, (writer_noop lls_remove EvRemove)
      by (done || by apply lls_remove_absent).
    eexists. split; [done|]. split; [done|].
    repeat constructor; simpl; by rewrite ?unlock_lock, <-?Hm, ?with_writersMutex_id.
Qed.

(** C5: when every presence counter of both arrays is zero,
    [toggleVersionAndWait] returns (given fuel for one pass over the slots);
    after reading the epoch index [cur] it makes one full pass over the array
    of [next = 1 - cur], then stores [next] into the epoch index, then makes
    one full pass over the array of [cur], never yielding; on return the epoch
    index is [1 - cur] and nothing else, the two arrays included, has
    changed. *)
Theorem toggleVersionAndWait_order fuel o :
  no_readers o = true → epoch_ok o = true →
  (Z.to_nat (_numCores o) < fuel)%nat →
  let cur := _versionIndex o in
  let next := 1 - cur in
  ∃ o',
    toggleVersionAndWait fuel o =
      Ok (tt, o',
          (EvLoadVersionIndex cur, o)
          :: scan_trace (readers_at next) o
          ++ (EvStoreVersionIndex next, o')
          :: scan_trace (readers_at cur) o')
    ∧ length (scan_trace (readers_at next) o) = Z.to_nat (_numCores o)
    ∧ length (scan_trace (readers_at cur) o') = Z.to_nat (_numCores o)
    ∧ _versionIndex o' = 1 - cur
    ∧ _readersVersion0 o' = _readersVersion0 o
    ∧ _readersVersion1 o' = _readersVersion1 o
    ∧ o' = with_versionIndex next o.
Proof.
  intros Hq Hv Hfuel cur next. exists (with_versionIndex next o).
  split; [by apply toggleVersionAndWait_quiet|].
  unfold scan_trace. by rewrite !length_map, !length_seq.
Qed.

(** *** A writer that succeeds *)

Lemma background_foreground o :
  (background o = Set2 ∧ foreground o = Set1 ∧ (_leftRight o =? READS_ON_LEFT) = true)
  ∨ (background o = Set1 ∧ foreground o = Set2 ∧ (_leftRight o =? READS_ON_LEFT) = false).
Proof.
  unfold background, foreground. destruct (_leftRight o =? READS_ON_LEFT); tauto.
Qed.

Lemma writer_success_inv f ev fuel key o o' t :
  writer f ev fuel key o = Ok (true, o', t) →
  (f key (set_of (background o) o)).1 = true
  ∧ ∃ o1 t2 r2 o2,
      t = [(EvLock, with_writersMutex true o);
           (EvLoadLeftRight (_leftRight o), with_writersMutex true o);
           (ev (background o) key true, o1)]
          ++ t2 ++ [(ev (foreground o) key r2, o2); (EvUnlock, o')]
      ∧ set_of (background o) o1 = (f key (set_of (background o) o)).2
      ∧ set_of (foreground o) o1 = set_of (foreground o) o
      ∧ Forall (mirrors_kept o1) t2
      ∧ set_of (background o) o' = (f key (set_of (background o) o)).2
      ∧ set_of (foreground o) o' = (f key (set_of (foreground o) o)).2.
Proof.
  unfold writer.
  intros (? & oL & tL & ta & Hlock & Hrest & ->)%bind_inv.
  unfold lock in Hlock. apply atomic_inv in Hlock as [Hlock ->].
  destruct (_writersMutex o); [done|]. injection Hlock as <- <-.
  apply bind_inv in Hrest as (lr & ? & ? & tb & Hload & Hrest & ->).
  unfold load_leftRight in Hload. apply atomic_inv in Hload as [[= <- <-] ->].
  apply bind_inv in Hrest as (r & o3 & tc & tu & Hbody & Hunlock & ->).
  apply bind_inv in Hunlock as (? & o4 & ? & ? & Hunlock & Hret & ->).
  unfold unlock in Hunlock. apply atomic_inv in Hunlock as [[= <- <-] ->].
  injection Hret as -> <- <-.
  set (oL := with_writersMutex true o) in *.
  change (_leftRight oL) with (_leftRight o) in *.
  destruct (background_foreground o) as [(-> & -> & Hlr)|(-> & -> & Hlr)];
    rewrite Hlr in Hbody;
    apply bind_inv in Hbody as (r1 & o1 & t1 & td & Hc1 & Hbody & ->);
    rewrite set_call_Ok in Hc1; injection Hc1 as <- <- <-;
    (match type of Hbody with context [negb ?b] => destruct b eqn:Hr1 end;
     simpl in Hbody; [|done]);
    apply bind_inv in Hbody as (? & o5 & ? & te & Hst & Hbody & ->);
    unfold store_leftRight in Hst; apply atomic_inv in Hst as [[= <- <-] ->];
    apply bind_inv in Hbody as (? & o6 & tt' & tf & Htog & Hbody & ->);
    apply toggleVersionAndWait_frame in Htog as [[v ->] Htt];
    apply bind_inv in Hbody as (r2 & o7 & ? & ? & Hc2 & Hret & ->);
    rewrite set_call_Ok in Hc2; injection Hc2 as <- <- <-;
    injection Hret as <- <-;
    (split; [exact Hr1|]);
    eexists _, (_ :: tt'), _, _;
    (split; [simpl; rewrite <-!app_assoc; reflexivity|]);
    (split; [reflexivity|]); (split; [reflexivity|]);
    (split; [constructor; [done|]; eapply Forall_impl; [exact Htt|]; by intros [] (?&?&?)|]);
    done.
Qed.

(** *** Traces with two mutations *)

Lemma from_first_mutation_app t1 t :
  Forall (λ eo : event * LROrderedLinkedList, is_mutation eo.1 = false) t1 →
  from_first_mutation (t1 ++ t) = from_first_mutation t.
Proof.
  induction 1 as [|[e o1] t1 He _ IH]; [done|]. simpl in *. by rewrite He.
Qed.

Lemma until_mutation_app t2 e o t :
  Forall (λ eo : event * LROrderedLinkedList, is_mutation eo.1 = false) t2 →
  is_mutation e = true →
  until_mutation (t2 ++ (e, o) :: t) = t2.
Proof.
  intros Ht2 He. induction Ht2 as [|[e2 o2] t2 He2 _ IH]; simpl in *.
  - by rewrite He.
  - by rewrite He2, IH.
Qed.

Lemma filter_mutation_none t :
  Forall (λ eo : event * LROrderedLinkedList, is_mutation eo.1 = false) t →
  List.filter is_mutation (events t) = [].
Proof.
  induction 1 as [|[e o1] t He _ IH]; [done|]. simpl in *. by rewrite He.
Qed.

Lemma mirrors_kept_no_mutation o1 t :
  Forall (mirrors_kept o1) t →
  Forall (λ eo : event * LROrderedLinkedList, is_mutation eo.1 = false) t.
Proof. intros Hk. eapply Forall_impl; [exact Hk|]. by intros ? [? _]. Qed.

Lemma lls_add_true k s : (lls_add k s).1 = true → lls_contains k s = false.
Proof.
  intros Hr. destruct (lls_contains k s) eqn:Hc; [|done].
  by rewrite (lls_add_present k s Hc) in Hr.
Qed.

Lemma lls_remove_true k s : (lls_remove k s).1 = true → lls_contains k s = true.
Proof.
  intros Hr. destruct (lls_contains k s) eqn:Hc; [done|].
  by rewrite (lls_remove_absent k s Hc) in Hr.
Qed.

Lemma mirrors_differ_by_sets key o (s_bg s_fg : lls) m m' :
  m ≠ m' →
  set_of m o = s_bg → set_of m' o = s_fg →
  (∀ k, lls_contains k s_bg = xorb (bool_decide (k = key)) (lls_contains k s_fg)) →
  mirrors_differ_by key o.
Proof.
  intros Hne Hbg Hfg Hc k. specialize (Hc k). rewrite <-Hbg, <-Hfg in Hc.
  destruct m, m'; try done; simpl in Hc; rewrite Hc;
    case_bool_decide;
    match goal with |- context [lls_contains k ?s] => destruct (lls_contains k s) end;
    naive_solver.
Qed.

Lemma writer_converges f ev fuel key o o' t :
  (∀ m k r, is_mutation (ev m k r) = true) →
  (∀ s s', (f key s).1 = true → (∀ k, lls_contains k s = lls_contains k s') →
     (∀ k, lls_contains k (f key s).2
           = xorb (bool_decide (k = key)) (lls_contains k s))
     ∧ (∀ k, lls_contains k (f key s).2 = lls_contains k (f key s').2)) →
  mirrors_agree o →
  writer f ev fuel key o = Ok (true, o', t) →
  mirrors_agree o'
  ∧ length (List.filter is_mutation (events t)) = 2%nat
  ∧ between_mutations t ≠ []
  ∧ Forall (mirrors_differ_by key) (between_mutations t).
Proof.
  intros Hev Hf Ha Hw.
  apply writer_success_inv in Hw
    as (Hr & o1 & t2 & r2 & o2 & -> & Hbg1 & Hfg1 & Ht2 & Hbg' & Hfg').
  pose proof (mirrors_kept_no_mutation _ _ Ht2) as Hnm.
  destruct (Hf (set_of (background o) o) (set_of (foreground o) o) Hr
              (λ k, mirrors_agree_sets o _ _ k Ha)) as [Hx Hsame].
  assert (Hne : background o ≠ foreground o)
    by (destruct (background_foreground o) as [(-> & -> & _)|(-> & -> & _)]; done).
  assert (Hd1 : mirrors_differ_by key o1).
  { eapply (mirrors_differ_by_sets key o1); [exact Hne|exact Hbg1|exact Hfg1|].
    intros k. rewrite Hx. f_equal. by apply mirrors_agree_sets. }
  split; [|split; [|split]].
  - intros k. specialize (Hsame k). rewrite <-Hbg', <-Hfg' in Hsame.
    destruct (background_foreground o) as [(Hb & Hg & _)|(Hb & Hg & _)];
      rewrite Hb, Hg in Hsame; simpl in Hsame; congruence.
  - unfold events. rewrite !fmap_app, !List.filter_app. simpl.
    rewrite !Hev. fold (events t2). rewrite filter_mutation_none by done. done.
  - unfold between_mutations. simpl. by rewrite Hev.
  - unfold between_mutations. simpl. rewrite Hev.
    rewrite until_mutation_app by (done || apply Hev).
    constructor; [done|]. apply Forall_fmap.
    eapply Forall_impl; [exact Ht2|]. intros [e oi] (_ & H1 & H2) k. simpl in *.
    unfold mirrors_differ_by in Hd1. by rewrite H1, H2.
Qed.

(** C3: from a state whose mirrors hold the same keys, an [add] or a [remove]
    that returns true returns with the mirrors again holding the same keys;
    it mutates a mirror exactly twice, and in every state from its first
    mutation up to its second the mirrors differ by exactly the key of the
    call. *)
Theorem mirrors_converge fuel key o o' t :
  mirrors_agree o →
  add fuel key o = Ok (true, o', t) ∨ remove fuel key o = Ok (true, o', t) →
  mirrors_agree o'
  ∧ length (List.filter is_mutation (events t)) = 2%nat
  ∧ between_mutations t ≠ []
  ∧ Forall (mirrors_differ_by key) (between_mutations t).
Proof.
  intros Ha [Hw|Hw].
  - rewrite add_writer in Hw. revert Hw. apply writer_converges; [done| |done].
    intros s s' Hr%lls_add_true Hss. split; intros k.
    + rewrite lls_contains_add by done.
      case_bool_decide as Hk; [subst k; by rewrite Hr|done].
    + rewrite !lls_contains_add by (done || by rewrite <-Hss). by rewrite Hss.
  - rewrite remove_writer in Hw. revert Hw. apply writer_converges; [done| |done].
    intros s s' Hr%lls_remove_true Hss. split; intros k.
    + rewrite lls_contains_remove by done.
      case_bool_decide as Hk; [subst k; by rewrite Hr|done].
    + rewrite !lls_contains_remove by (done || by rewrite <-Hss). by rewrite Hss.
Qed.

(** *** Writers on an object at rest *)

Lemma quiescent_spec o :
  quiescent o = true ↔
  no_readers o = true ∧ epoch_ok o = true ∧ _writersMutex o = false.
Proof.
  unfold quiescent. rewrite !andb_true_iff, negb_true_iff. tauto.
Qed.

Lemma epoch_ok_toggle o v :
  epoch_ok o = true → epoch_ok (with_versionIndex (1 - _versionIndex o) v) = true.
Proof.
  unfold epoch_ok. simpl. intros [->%Z.eqb_eq| ->%Z.eqb_eq]%orb_prop; done.
Qed.

Lemma writer_branch_success f ev fuel key bg fg lr o :
  no_readers o = true → epoch_ok o = true →
  (Z.to_nat (_numCores o) < fuel)%nat →
  (f key (set_of bg o)).1 = true →
  ∃ t, writer_branch f ev fuel key bg fg lr o
       = Ok (true, branch_result f key bg fg lr o, t)
       ∧ no_readers (branch_result f key bg fg lr o) = true
       ∧ epoch_ok (branch_result f key bg fg lr o) = true
       ∧ _writersMutex (branch_result f key bg fg lr o) = _writersMutex o
       ∧ _numCores (branch_result f key bg fg lr o) = _numCores o.
Proof.
  intros Hnr Hep Hfuel Hr. unfold writer_branch.
  rewrite (bind_Ok _ _ _ _ _ _ (set_call_Ok _ _ _ _ _)), Hr. cbn [negb].
  set (o1 := with_set bg _ o).
  assert (Hnr1 : no_readers (with_leftRight lr o1) = true) by by destruct bg.
  assert (Hep1 : epoch_ok (with_leftRight lr o1) = true) by by destruct bg.
  assert (Hfuel1 : (Z.to_nat (_numCores (with_leftRight lr o1)) < fuel)%nat)
    by by destruct bg.
  rewrite (bind_Ok _ _ o1 tt (with_leftRight lr o1)
             [(EvStoreLeftRight lr, with_leftRight lr o1)]) by done.
  rewrite (bind_Ok _ _ _ _ _ _ (toggleVersionAndWait_quiet _ _ Hnr1 Hep1 Hfuel1)).
  rewrite (bind_Ok _ _ _ _ _ _ (set_call_Ok _ _ _ _ _)).
  unfold ret. eexists. split; [reflexivity|]. unfold branch_result.
  split; [by destruct fg, bg|]. split; [|by destruct fg, bg].
  pose proof (epoch_ok_toggle _ (with_leftRight lr o1) Hep1) as Hep2.
  by destruct fg, bg.
Qed.

Lemma writer_success f ev fuel key o :
  quiescent o = true → (Z.to_nat (_numCores o) < fuel)%nat →
  (f key (set_of (background o) o)).1 = true →
  ∃ t, writer f ev fuel key o = Ok (true, writer_result f key o, t)
       ∧ quiescent (writer_result f key o) = true
       ∧ _numCores (writer_result f key o) = _numCores o.
Proof.
  intros (Hnr & Hep & Hm)%quiescent_spec Hfuel Hr. unfold writer.
  rewrite (bind_Ok _ _ o tt (with_writersMutex true o) [(EvLock, with_writersMutex true o)])
    by (unfold lock, atomic; by rewrite Hm).
  set (oL := with_writersMutex true o).
  rewrite (bind_Ok _ _ oL (_leftRight o) oL [(EvLoadLeftRight (_leftRight o), oL)])
    by done.
  unfold writer_result. fold oL.
  destruct (background_foreground o) as [(Hb & _ & Hlr)|(Hb & _ & Hlr)];
    rewrite Hb in Hr; rewrite Hlr.
  - destruct (writer_branch_success f ev fuel key Set2 Set1 READS_ON_RIGHT oL)
      as (t & Hw & Hnr' & Hep' & Hm' & Hn'); try done.
    unfold writer_branch in Hw. rewrite (bind_Ok _ _ _ _ _ _ Hw).
    unfold bind, unlock, atomic, ret. eexists. split; [reflexivity|].
    split; [|exact Hn']. apply quiescent_spec.
    by destruct (branch_result _ _ _ _ _ _).
  - destruct (writer_branch_success f ev fuel key Set1 Set2 READS_ON_LEFT oL)
      as (t & Hw & Hnr' & Hep' & Hm' & Hn'); try done.
    unfold writer_branch in Hw. rewrite (bind_Ok _ _ _ _ _ _ Hw).
    unfold bind, unlock, atomic, ret. eexists. split; [reflexivity|].
    split; [|exact Hn']. apply quiescent_spec.
    by destruct (branch_result _ _ _ _ _ _).
Qed.

(** *** Membership in the plain set *)

Lemma bool_decide_union (k key : T) (S : gset T) :
  bool_decide (k ∈ {[key]} ∪ S) = bool_decide (k = key) || bool_decide (k ∈ S).
Proof.
  apply eq_true_iff_eq. rewrite orb_true_iff, !bool_decide_eq_true.
  rewrite elem_of_union, elem_of_singleton. tauto.
Qed.

Lemma bool_decide_difference (k key : T) (S : gset T) :
  bool_decide (k ∈ S ∖ {[key]}) = negb (bool_decide (k = key)) && bool_decide (k ∈ S).
Proof.
  apply eq_true_iff_eq.
  rewrite andb_true_iff, negb_true_iff, bool_decide_eq_false, !bool_decide_eq_true.
  rewrite elem_of_difference, elem_of_singleton. tauto.
Qed.

Lemma bool_decide_empty (k : T) : bool_decide (k ∈ (∅ : gset T)) = false.
Proof. apply bool_decide_eq_false_2, not_elem_of_empty. Qed.

Lemma bool_decide_not (P : Prop) `{Decision P} : bool_decide (¬ P) = negb (bool_decide P).
Proof. by repeat case_bool_decide. Qed.

(** *** Sequences of calls refine the plain set *)

Lemma represents_sets o S :
  represents o S ↔ ∀ m k, lls_contains k (set_of m o) = bool_decide (k ∈ S).
Proof.
  split.
  - intros Hr m k. destruct (Hr k). by destruct m.
  - intros Hr k. split; [apply (Hr Set1)|apply (Hr Set2)].
Qed.

Lemma represents_by_sets o o' (S S' : gset T) (g : lls → lls) :
  (∀ s, (∀ k, lls_contains k s = bool_decide (k ∈ S)) →
        ∀ k, lls_contains k (g s) = bool_decide (k ∈ S')) →
  represents o S →
  set_of (background o) o' = g (set_of (background o) o) →
  set_of (foreground o) o' = g (set_of (foreground o) o) →
  represents o' S'.
Proof.
  intros Hg Hr Hb Hf. pose proof (proj1 (represents_sets _ _) Hr) as Hs.
  apply represents_sets. intros m k.
  destruct (background_foreground o) as [(Hbg & Hfg & _)|(Hbg & Hfg & _)];
    rewrite Hbg in Hb; rewrite Hfg in Hf; destruct m;
    rewrite ?Hb, ?Hf; by apply Hg.
Qed.

Lemma invoke_refines fuel thread_hash c o S :
  quiescent o = true → represents o S →
  (Z.to_nat (_numCores o) < fuel)%nat →
  ∃ o' t,
    invoke fuel thread_hash c o = Ok ((plain_set_call c S).1, o', t)
    ∧ quiescent o' = true ∧ represents o' (plain_set_call c S).2
    ∧ _numCores o' = _numCores o.
Proof.
  intros Hq Hr Hfuel. pose proof Hq as (Hnr & Hep & Hm)%quiescent_spec.
  pose proof (proj1 (represents_sets o S) Hr) as Hs.
  destruct c as [key|key|key]; simpl.
  - (* add *)
    destruct (decide (key ∈ S)) as [Hin|Hnin].
    + rewrite add_writer, (writer_noop lls_add EvAdd);
        [|done|apply lls_add_present; rewrite Hs; by apply bool_decide_eq_true_2].
      rewrite bool_decide_eq_false_2 by (by intros ?).
      eexists _, _. split; [done|]. split; [done|]. split; [|done].
      apply represents_sets. intros m k. rewrite Hs, bool_decide_union.
      destruct (decide (k = key)) as [->|Hne].
      * by rewrite (bool_decide_eq_true_2 (key ∈ S)), orb_true_r.
      * by rewrite (bool_decide_eq_false_2 (k = key)).
    + assert (Hc : ∀ m, lls_contains key (set_of m o) = false)
        by (intros m; rewrite Hs; by apply bool_decide_eq_false_2).
      destruct (writer_success lls_add EvAdd fuel key o Hq Hfuel)
        as (t & Hw & Hq' & Hn'); [by apply lls_add_absent|].
      rewrite add_writer, Hw, bool_decide_eq_true_2 by done.
      eexists _, _. split; [done|]. split; [done|]. split; [|done].
      apply writer_success_inv in Hw as (_ & _ & _ & _ & _ & _ & _ & _ & _ & Hb & Hf).
      apply (represents_by_sets o _ S _ (λ s, (lls_add key s).2)); try done.
      intros s Hk k.
      rewrite lls_contains_add, Hk
        by (rewrite Hk; by apply bool_decide_eq_false_2).
      by rewrite bool_decide_union.
  - (* remove *)
    destruct (decide (key ∈ S)) as [Hin|Hnin].
    + assert (Hc : ∀ m, lls_contains key (set_of m o) = true)
        by (intros m; rewrite Hs; by apply bool_decide_eq_true_2).
      destruct (writer_success lls_remove EvRemove fuel key o Hq Hfuel)
        as (t & Hw & Hq' & Hn'); [by apply lls_remove_present|].
      rewrite remove_writer, Hw, bool_decide_eq_true_2 by done.
      eexists _, _. split; [done|]. split; [done|]. split; [|done].
      apply writer_success_inv in Hw as (_ & _ & _ & _ & _ & _ & _ & _ & _ & Hb & Hf).
      apply (represents_by_sets o _ S _ (λ s, (lls_remove key s).2)); try done.
      intros s Hk k.
      rewrite lls_contains_remove, Hk
        by (rewrite Hk; by apply bool_decide_eq_true_2).
      by rewrite bool_decide_difference.
    + rewrite remove_writer, (writer_noop lls_remove EvRemove);
        [|done|apply lls_remove_absent; rewrite Hs; by apply bool_decide_eq_false_2].
      rewrite bool_decide_eq_false_2 by done.
      eexists _, _. split; [done|]. split; [done|]. split; [|done].
      apply represents_sets. intros m k. rewrite Hs, bool_decide_difference.
      destruct (decide (k = key)) as [->|Hne].
      * by rewrite (bool_decide_eq_false_2 (key ∈ S)), andb_false_r.
      * by rewrite (bool_decide_eq_false_2 (k = key)).
  - (* contains *)
    destruct (contains_Ok thread_hash key o) as (tid & c & Hc).
    { apply no_readers_spec in Hnr as [Hwf _]. by apply well_formed_spec. }
    simpl in Hc. rewrite Hc, Hs. by eexists _, _.
Qed.

Lemma run_refines fuel thread_hash cs o S :
  quiescent o = true → represents o S →
  (Z.to_nat (_numCores o) < fuel)%nat →
  ∃ o' t,
    run fuel thread_hash cs o = Ok (plain_set_run cs S, o', t)
    ∧ quiescent o' = true ∧ represents o' (foldl (λ S c, (plain_set_call c S).2) S cs).
Proof.
  revert o S. induction cs as [|c cs IH]; intros o S Hq Hr Hfuel.
  - by eexists _, _.
  - destruct (invoke_refines fuel thread_hash c o S Hq Hr Hfuel)
      as (o1 & t1 & Hc & Hq1 & Hr1 & Hn1).
    destruct (IH o1 _ Hq1 Hr1 ltac:(by rewrite Hn1)) as (o2 & t2 & Hrun & Hq2 & Hr2).
    simpl. rewrite (bind_Ok _ _ _ _ _ _ Hc), (bind_Ok _ _ _ _ _ _ Hrun).
    by eexists _, _.
Qed.

(** *** The constructor *)

Lemma zeroed_length i k r : length (zeroed i k r) = length r.
Proof.
  unfold zeroed. revert i r. induction k as [|k IH]; intros i r; [done|].
  simpl. by rewrite IH, length_insert.
Qed.

Lemma zeroed_other i k r (p : nat) :
  (∀ j : nat, (i ≤ j < i + k)%nat → p ≠ Z.to_nat (Z.of_nat j * LROLLS_COUNTERS_RATIO)) →
  zeroed i k r !! p = r !! p.
Proof.
  unfold zeroed. revert i r. induction k as [|k IH]; intros i r Hp; [done|].
  simpl. rewrite IH by (intros j Hj; apply Hp; lia).
  apply list_lookup_insert_ne. apply not_eq_sym, Hp. lia.
Qed.

Lemma zeroed_slot i k r (j : nat) :
  0 < LROLLS_COUNTERS_RATIO → (i ≤ j < i + k)%nat →
  (Z.to_nat (Z.of_nat j * LROLLS_COUNTERS_RATIO) < length r)%nat →
  zeroed i k r !! Z.to_nat (Z.of_nat j * LROLLS_COUNTERS_RATIO) = Some (Some 0).
Proof.
  intros HR. unfold zeroed. revert i r. induction k as [|k IH]; intros i r Hj Hlen; [lia|].
  simpl. destruct (decide (j = i)) as [->|Hne].
  - fold (zeroed (S i) k (<[Z.to_nat (Z.of_nat i * LROLLS_COUNTERS_RATIO):=Some 0]> r)).
    rewrite zeroed_other by (intros j' Hj'; nia).
    by apply list_lookup_insert_eq.
  - apply IH; [lia|]. by rewrite length_insert.
Qed.

Lemma constructor_loop_Ok (n k i fuel : nat) r0 r1 :
  0 < LROLLS_COUNTERS_RATIO →
  Z.of_nat n * LROLLS_COUNTERS_RATIO ≤ INT_MAX →
  (i + k = n)%nat → (k ≤ fuel)%nat →
  length r0 = Z.to_nat (Z.of_nat n * LROLLS_COUNTERS_RATIO) →
  length r1 = Z.to_nat (Z.of_nat n * LROLLS_COUNTERS_RATIO) →
  constructor_loop fuel (Z.of_nat n * LROLLS_COUNTERS_RATIO)
    (Z.of_nat i * LROLLS_COUNTERS_RATIO) r0 r1
  = Ok (zeroed i k r0, zeroed i k r1).
Proof.
  intros HR Hfit. revert i fuel r0 r1.
  induction k as [|k IH]; intros i fuel r0 r1 Hik Hfuel Hl0 Hl1.
  - assert (i = n) as -> by lia.
    destruct fuel; simpl; by rewrite Z.ltb_irrefl.
  - destruct fuel as [|fuel]; [lia|]. simpl.
    destruct (Z.ltb_spec (Z.of_nat i * LROLLS_COUNTERS_RATIO)
                (Z.of_nat n * LROLLS_COUNTERS_RATIO)); [|nia].
    unfold counters_store.
    destruct (Z.ltb_spec (Z.of_nat i * LROLLS_COUNTERS_RATIO) 0); [nia|].
    destruct (lookup_lt_is_Some_2 r0 (Z.to_nat (Z.of_nat i * LROLLS_COUNTERS_RATIO)))
      as [c0 ->]; [lia|].
    destruct (lookup_lt_is_Some_2 r1 (Z.to_nat (Z.of_nat i * LROLLS_COUNTERS_RATIO)))
      as [c1 ->]; [lia|].
    rewrite to_int_id by (unfold INT_MIN, INT_MAX in *; nia).
    replace (Z.of_nat i * LROLLS_COUNTERS_RATIO + LROLLS_COUNTERS_RATIO)
      with (Z.of_nat (S i) * LROLLS_COUNTERS_RATIO) by lia.
    rewrite (IH (S i)) by (rewrite ?length_insert; (done || lia)).
    done.
Qed.

Lemma config_ok_spec fuel hw :
  config_ok fuel hw = true ↔
  0 < LROLLS_COUNTERS_RATIO ∧ 0 < cores_of hw
  ∧ cores_of hw * LROLLS_COUNTERS_RATIO ≤ INT_MAX
  ∧ cores_of hw < Z.of_nat fuel.
Proof.
  unfold config_ok. rewrite !andb_true_iff, !Z.ltb_lt, Z.leb_le. tauto.
Qed.

Lemma constructor_Ok fuel hw :
  config_ok fuel hw = true → constructor fuel hw = Ok (constructed hw).
Proof.
  intros (HR & Hn & Hfit & Hfuel)%config_ok_spec.
  unfold constructor. fold (cores_of hw).
  rewrite to_int_id by (unfold INT_MIN, INT_MAX in *; nia).
  destruct (Z.ltb_spec (cores_of hw * LROLLS_COUNTERS_RATIO) 0); [nia|].
  pose proof (constructor_loop_Ok (Z.to_nat (cores_of hw)) (Z.to_nat (cores_of hw))
                0 fuel
                (replicate (Z.to_nat (cores_of hw * LROLLS_COUNTERS_RATIO)) None)
                (replicate (Z.to_nat (cores_of hw * LROLLS_COUNTERS_RATIO)) None)
                HR) as Hloop.
  rewrite Z2Nat.id in Hloop by lia.
  change (Z.of_nat 0 * LROLLS_COUNTERS_RATIO) with 0 in Hloop.
  rewrite Hloop; try done; try lia; by rewrite length_replicate.
Qed.

Lemma constructed_quiescent fuel hw :
  config_ok fuel hw = true → quiescent (constructed hw) = true.
Proof.
  intros (HR & Hn & Hfit & Hfuel)%config_ok_spec.
  assert (Hz : slots_all (Z.eqb 0) (cores_of hw)
                 (zeroed 0 (Z.to_nat (cores_of hw))
                    (replicate (Z.to_nat (cores_of hw * LROLLS_COUNTERS_RATIO)) None))
               = true).
  { apply slots_all_spec. intros i Hi. exists 0. split; [|done].
    apply zeroed_slot; [done|lia|]. rewrite length_replicate. nia. }
  apply quiescent_spec. split; [|done]. apply no_readers_spec.
  split; [|by intros []]. apply well_formed_spec.
  unfold well_formed. simpl. rewrite !zeroed_length, !length_replicate.
  assert (Hi : slots_all is_int (cores_of hw)
                 (zeroed 0 (Z.to_nat (cores_of hw))
                    (replicate (Z.to_nat (cores_of hw * LROLLS_COUNTERS_RATIO)) None))
               = true).
  { eapply slots_all_weaken; [|exact Hz]. by intros c <-%Z.eqb_eq. }
  rewrite Hi.
  repeat (apply andb_true_intro; split); try done;
    (apply Z.ltb_lt || apply Z.eqb_eq || apply Z.leb_le); lia.
Qed.

Lemma constructed_represents hw : represents (constructed hw) ∅.
Proof.
  intros k. simpl. rewrite lls_contains_new.
  split; symmetry; apply bool_decide_eq_false_2, not_elem_of_empty.
Qed.

Lemma constructed_cell hw a (p : nat) :
  0 < LROLLS_COUNTERS_RATIO → 0 < cores_of hw →
  (p < Z.to_nat (cores_of hw * LROLLS_COUNTERS_RATIO))%nat →
  readers_of a (constructed hw) !! p
  = Some (if Z.of_nat p mod LROLLS_COUNTERS_RATIO =? 0 then Some 0 else None).
Proof.
  intros HR Hn Hp.
  assert (readers_of a (constructed hw)
          = zeroed 0 (Z.to_nat (cores_of hw))
              (replicate (Z.to_nat (cores_of hw * LROLLS_COUNTERS_RATIO)) None))
    as -> by by destruct a.
  destruct (Z.eqb_spec (Z.of_nat p mod LROLLS_COUNTERS_RATIO) 0) as [Hmod|Hmod].
  - apply Z.mod_divide in Hmod as [q Hq]; [|lia].
    assert (0 ≤ q < cores_of hw) by nia.
    replace p with (Z.to_nat (Z.of_nat (Z.to_nat q) * LROLLS_COUNTERS_RATIO)) by lia.
    apply zeroed_slot; [done|lia|]. rewrite length_replicate. nia.
  - rewrite zeroed_other.
    + by apply lookup_replicate_2.
    + intros j Hj ->. apply Hmod. rewrite Z2Nat.id by nia. apply Z.mod_mul. lia.
Qed.

(** *** The slots [readIndicatorIsEmpty] examines *)

Lemma readIndicatorIsEmpty_loop_total (k i fuel : nat) a o :
  well_formed_facts o →
  (i + k = Z.to_nat (_numCores o))%nat → (k ≤ fuel)%nat →
  ∃ b t,
    readIndicatorIsEmpty_loop fuel a (Z.of_nat i * LROLLS_COUNTERS_RATIO) o = Ok (b, o, t)
    ∧ Forall (λ eo : event * LROrderedLinkedList,
                ∃ (j : nat) c, (j < Z.to_nat (_numCores o))%nat
                  ∧ eo.1 = EvLoadReaders a (Z.of_nat j * LROLLS_COUNTERS_RATIO) c) t.
Proof.
  intros Hwf. pose proof Hwf as [HR Hn Hl Hf _ _].
  revert i fuel. induction k as [|k IH]; intros i fuel Hik Hfuel;
    rewrite readIndicatorIsEmpty_loop_unfold.
  - destruct (Z.ltb_spec (Z.of_nat i * LROLLS_COUNTERS_RATIO) (_readersLength o));
      [nia|]. by eexists _, _.
  - destruct (slot_index_bounds o i Hwf ltac:(lia)) as [Hlo Hhi].
    destruct (Z.ltb_spec (Z.of_nat i * LROLLS_COUNTERS_RATIO) (_readersLength o));
      [|lia].
    destruct fuel as [|fuel]; [lia|].
    destruct (wf_slot o Hwf a i ltac:(lia)) as (c & Hc & _).
    rewrite (counters_load_slot _ _ _ Hlo Hc).
    destruct (negb (c =? 0)).
    + eexists _, _. split; [done|]. constructor; [|done]. exists i, c. split; [lia|done].
    + rewrite to_int_id by (unfold INT_MIN, INT_MAX in *; lia).
      replace (Z.of_nat i * LROLLS_COUNTERS_RATIO + LROLLS_COUNTERS_RATIO)
        with (Z.of_nat (S i) * LROLLS_COUNTERS_RATIO) by lia.
      destruct (IH (S i) fuel ltac:(lia) ltac:(lia)) as (b & t & -> & Ht).
      eexists _, _. split; [done|]. constructor; [|done].
      exists i, c. split; [lia|done].
Qed.

Lemma readIndicatorIsEmpty_total fuel v o :
  well_formed o = true → (Z.to_nat (_numCores o) ≤ fuel)%nat →
  ∃ b t,
    readIndicatorIsEmpty fuel v o = Ok (b, o, t)
    ∧ Forall (λ eo : event * LROrderedLinkedList,
                ∃ (j : nat) c, (j < Z.to_nat (_numCores o))%nat
                  ∧ eo.1 = EvLoadReaders (readers_at v)
                             (Z.of_nat j * LROLLS_COUNTERS_RATIO) c) t.
Proof.
  intros Hwf%well_formed_spec Hfuel.
  pose proof (λ a, readIndicatorIsEmpty_loop_total (Z.to_nat (_numCores o)) 0 fuel a o
                     Hwf eq_refl Hfuel) as Hloop.
  unfold readIndicatorIsEmpty, readers_at. destruct (v =? 0); apply Hloop.
Qed.

(** *** Runs *)

Lemma plain_set_run_app cs1 cs2 S :
  plain_set_run (cs1 ++ cs2) S
  = plain_set_run cs1 S ++ plain_set_run cs2 (foldl (λ S c, (plain_set_call c S).2) S cs1).
Proof.
  revert S. induction cs1 as [|c cs1 IH]; intros S; [done|]. simpl. by rewrite IH.
Qed.

Lemma plain_set_keeps key cs S :
  key ∈ S → Forall (λ c, c ≠ Remove key) cs →
  key ∈ foldl (λ S c, (plain_set_call c S).2) S cs.
Proof.
  intros Hin Hcs. revert S Hin.
  induction Hcs as [|c cs Hc _ IH]; intros S Hin; [done|].
  simpl. apply IH. destruct c as [k|k|k]; simpl; [| |done].
  - apply elem_of_union. by right.
  - apply elem_of_difference. split; [done|].
    rewrite elem_of_singleton. intros ->. by apply Hc.
Qed.

Lemma run_constructed fuel hw thread_hash cs :
  config_ok fuel hw = true →
  ∃ o' t, run fuel thread_hash cs (constructed hw) = Ok (plain_set_run cs ∅, o', t).
Proof.
  intros Hok.
  destruct (run_refines fuel thread_hash cs (constructed hw) ∅)
    as (o' & t & Hrun & _).
  - by apply (constructed_quiescent fuel).
  - apply constructed_represents.
  - apply config_ok_spec in Hok. simpl. lia.
  - by exists o', t.
Qed.

(** C1: the constructor succeeds on a usable configuration, and every
    sequence of [add], [remove] and [contains] calls one thread issues on the
    new object runs to its end and returns, call by call, what the plain
    set returns from the empty set: [add] whether the key was absent,
    [remove] whether it was present, [contains] whether it is present. *)
Theorem sequential_refinement fuel hw thread_hash cs :
  config_ok fuel hw = true →
  ∃ o o' t,
    constructor fuel hw = Ok o
    ∧ run fuel thread_hash cs o = Ok (plain_set_run cs ∅, o', t).
Proof.
  intros Hok. destruct (run_constructed fuel hw thread_hash cs Hok) as (o' & t & Hrun).
  exists (constructed hw), o', t. split; [by apply constructor_Ok|done].
Qed.

(** C9: on a new object the calls add(k), add(k), contains(k), remove(k),
    contains(k), remove(k) of one thread return true, false, true, true,
    false, false, for every key k (5 included); add(k), then any calls that
    do not remove k, then add(k) return true first and false last; and
    remove(k) on the new object returns false. *)
Theorem scenario fuel hw thread_hash k :
  config_ok fuel hw = true →
  ∃ o,
    constructor fuel hw = Ok o
    ∧ (∃ o' t,
         run fuel thread_hash
           [Add k; Add k; Contains k; Remove k; Contains k; Remove k] o
         = Ok ([true; false; true; true; false; false], o', t))
    ∧ (∀ cs, Forall (λ c, c ≠ Remove k) cs →
         ∃ rs o' t,
           run fuel thread_hash (Add k :: cs ++ [Add k]) o
           = Ok (true :: rs ++ [false], o', t))
    ∧ (∃ o' t, run fuel thread_hash [Remove k] o = Ok ([false], o', t)).
Proof.
  intros Hok. exists (constructed hw). split; [by apply constructor_Ok|].
  split; [|split].
  - destruct (run_constructed fuel hw thread_hash
                [Add k; Add k; Contains k; Remove k; Contains k; Remove k] Hok)
      as (o' & t & ->).
    exists o', t. simpl.
    repeat (rewrite bool_decide_not || rewrite bool_decide_difference
            || rewrite bool_decide_union || rewrite bool_decide_empty
            || rewrite (bool_decide_eq_true_2 (k = k)) by done).
    done.
  - intros cs Hcs.
    destruct (run_constructed fuel hw thread_hash (Add k :: cs ++ [Add k]) Hok)
      as (o' & t & ->).
    eexists _, o', t. simpl. rewrite plain_set_run_app. simpl.
    rewrite (bool_decide_eq_true_2 (k ∉ ∅)) by apply not_elem_of_empty.
    rewrite bool_decide_eq_false_2; [done|].
    intros Hnin. apply Hnin. apply plain_set_keeps; [|done].
    apply elem_of_union. left. by apply elem_of_singleton.
  - destruct (run_constructed fuel hw thread_hash [Remove k] Hok) as (o' & t & ->).
    exists o', t. simpl.
    by rewrite bool_decide_eq_false_2 by apply not_elem_of_empty.
Qed.

Lemma thread_2_tid_modulus thread_hash o :
  thread_2_tid thread_hash o
  = if to_size_t (_numCores o) =? 0 then Fault DivisionByZero
    else Ok (to_int ((mixed_tid thread_hash mod to_size_t (_numCores o))
                     * LROLLS_COUNTERS_RATIO), o, []).
Proof.
  unfold thread_2_tid, mixed_tid, bind, member, throw, ret.
  by destruct (to_size_t (_numCores o) =? 0).
Qed.

Lemma constructor_loop_inv fuel readersLength tid r0 r1 r0' r1' :
  constructor_loop fuel readersLength tid r0 r1 = Ok (r0', r1') →
  length r0' = length r0 ∧ length r1' = length r1
  ∧ ∀ fuel' x, constructor_loop fuel' readersLength tid r0 r1 = Ok x → x = (r0', r1').
Proof.
  revert tid r0 r1. induction fuel as [|fuel IH]; intros tid r0 r1; simpl.
  - destruct (tid <? readersLength) eqn:Hlt; [done|]. intros [= <- <-].
    split; [done|]. split; [done|]. intros fuel' x.
    destruct fuel'; simpl; rewrite Hlt; by intros [= <-].
  - destruct (tid <? readersLength) eqn:Hlt.
    + destruct (counters_store r0 tid 0) as [s0|] eqn:H0; [|done].
      destruct (counters_store r1 tid 0) as [s1|] eqn:H1; [|done].
      intros Hloop. destruct (IH _ _ _ Hloop) as (Hl0 & Hl1 & Hsame).
      assert (Hlen : ∀ r s, counters_store r tid 0 = Ok s → length s = length r).
      { intros r s. unfold counters_store. destruct (tid <? 0); [done|].
        destruct (r !! Z.to_nat tid); [|done]. intros [= <-]. apply length_insert. }
      split; [by rewrite Hl0, (Hlen _ _ H0)|]. split; [by rewrite Hl1, (Hlen _ _ H1)|].
      intros fuel' x. destruct fuel'; simpl; rewrite Hlt; [done|].
      rewrite H0, H1. apply Hsame.
    + intros [= <- <-]. split; [done|]. split; [done|]. intros fuel' x.
      destruct fuel'; simpl; rewrite Hlt; by intros [= <-].
Qed.

(** Whatever the configuration, an object the constructor returns has the
    number of cores the hardware reports, or the constant when it reports 0,
    and arrays of the length [int] arithmetic gives; it is the same object
    for every bound on the iterations of the loop. *)
Lemma constructor_inv fuel hw o :
  constructor fuel hw = Ok o →
  _numCores o = cores_of hw
  ∧ _readersLength o = to_int (cores_of hw * LROLLS_COUNTERS_RATIO)
  ∧ (∀ a, Z.of_nat (length (readers_of a o)) = _readersLength o)
  ∧ ∀ fuel' o', constructor fuel' hw = Ok o' → o' = o.
Proof.
  unfold constructor. fold (cores_of hw).
  set (len := to_int (cores_of hw * LROLLS_COUNTERS_RATIO)).
  destruct (Z.ltb_spec len 0) as [|Hlen]; [done|].
  destruct (constructor_loop fuel len 0 _ _) as [[r0 r1]|] eqn:Hloop; [|done].
  intros [= <-]. simpl.
  destruct (constructor_loop_inv _ _ _ _ _ _ _ Hloop) as (Hl0 & Hl1 & Hsame).
  rewrite length_replicate in Hl0, Hl1.
  split; [done|]. split; [done|]. split; [intros []; simpl; lia|].
  intros fuel' o'.
  destruct (constructor_loop fuel' len 0 _ _) as [x|] eqn:Hloop'; [|done].
  rewrite (Hsame fuel' x Hloop'). by intros [= <-].
Qed.

(** C8, as the code has it.  The constructor takes no argument, so there is
    no hint: every object it returns has, as its number of cores, the value
    [std::thread::hardware_concurrency()] reports or, when that is 0,
    [LROLLS_NUMBER_OF_CORES], and is the same object whenever the hardware
    reports the same value; its two arrays have
    [(int)(numCores * LROLLS_COUNTERS_RATIO)] cells; and the number of cores
    is also the modulus of [thread_2_tid], whose slot is the mixed hash
    modulo the number of cores, times the ratio.  When the ratio and the
    number of cores are positive and their product fits an [int], the arrays
    have exactly [numCores * LROLLS_COUNTERS_RATIO] cells, the slot is below
    that length, and every sequence of calls returns what the plain set
    returns, whatever the number of cores. *)
Theorem core_count_use fuel hw hw' thread_hash cs :
  (∀ fuel0 hw0 o0,
     constructor fuel0 hw0 = Ok o0 →
     _numCores o0
     = (if to_int hw0 =? 0 then to_int LROLLS_NUMBER_OF_CORES else to_int hw0)
     ∧ _readersLength o0 = to_int (_numCores o0 * LROLLS_COUNTERS_RATIO)
     ∧ (∀ a, Z.of_nat (length (readers_of a o0)) = _readersLength o0)
     ∧ thread_2_tid thread_hash o0
       = (if to_size_t (_numCores o0) =? 0 then Fault DivisionByZero
          else Ok (to_int ((mixed_tid thread_hash mod to_size_t (_numCores o0))
                           * LROLLS_COUNTERS_RATIO), o0, []))
     ∧ ∀ fuel1 o1, constructor fuel1 hw0 = Ok o1 → o1 = o0)
  ∧ (config_ok fuel hw = true → config_ok fuel hw' = true →
     ∃ o o',
       constructor fuel hw = Ok o ∧ constructor fuel hw' = Ok o'
       ∧ _numCores o
         = (if to_int hw =? 0 then to_int LROLLS_NUMBER_OF_CORES else to_int hw)
       ∧ _readersLength o = _numCores o * LROLLS_COUNTERS_RATIO
       ∧ Z.of_nat (length (_readersVersion0 o)) = _numCores o * LROLLS_COUNTERS_RATIO
       ∧ Z.of_nat (length (_readersVersion1 o)) = _numCores o * LROLLS_COUNTERS_RATIO
       ∧ 0 ≤ mixed_tid thread_hash mod _numCores o < _numCores o
       ∧ thread_2_tid thread_hash o
         = Ok ((mixed_tid thread_hash mod _numCores o) * LROLLS_COUNTERS_RATIO, o, [])
       ∧ (mixed_tid thread_hash mod _numCores o) * LROLLS_COUNTERS_RATIO
         < _readersLength o
       ∧ ∃ o1 t1 o1' t1',
           run fuel thread_hash cs o = Ok (plain_set_run cs ∅, o1, t1)
           ∧ run fuel thread_hash cs o' = Ok (plain_set_run cs ∅, o1', t1')).
Proof.
  split.
  - intros fuel0 hw0 o0 Hc.
    destruct (constructor_inv fuel0 hw0 o0 Hc) as (Hn & Hl & Hlen & Hsame).
    split; [done|]. split; [by rewrite Hn|]. split; [done|].
    split; [apply thread_2_tid_modulus|done].
  - intros Hok Hok'. exists (constructed hw), (constructed hw').
    pose proof (constructed_quiescent fuel hw Hok) as Hq.
    apply quiescent_spec in Hq as [[Hwf _]%no_readers_spec _].
    pose proof Hwf as [HR Hn Hl Hf _ _].
    split; [by apply constructor_Ok|]. split; [by apply constructor_Ok|].
    split; [done|]. split; [done|].
    split; [apply (wf_length _ Hwf Version0)|].
    split; [apply (wf_length _ Hwf Version1)|].
    pose proof (Z.mod_pos_bound (mixed_tid thread_hash) (_numCores (constructed hw)) Hn)
      as Hm.
    split; [done|]. split.
    + rewrite thread_2_tid_modulus.
      assert (Hnc : to_size_t (_numCores (constructed hw)) = _numCores (constructed hw)).
      { unfold to_size_t. apply Z.mod_small. unfold INT_MAX in Hf. nia. }
      rewrite Hnc. destruct (Z.eqb_spec (_numCores (constructed hw)) 0); [lia|].
      rewrite to_int_id; [done|]. unfold INT_MIN, INT_MAX in *. nia.
    + split; [rewrite Hl; apply Z.mul_lt_mono_pos_r; lia|].
      destruct (run_constructed fuel hw thread_hash cs Hok) as (o1 & t1 & H1).
      destruct (run_constructed fuel hw' thread_hash cs Hok') as (o1' & t1' & H1').
      by eexists _, _, _, _.
Qed.

(** C10: on the object the constructor builds, and on every well-formed
    state with the same number of cores, [thread_2_tid] returns for every
    thread an index that is non-negative, a multiple of
    [LROLLS_COUNTERS_RATIO] and smaller than the length of the arrays (the
    number of cores times the ratio), so [readIndicatorArrive] and
    [readIndicatorDepart] at that index raise no fault; the constructor
    stores a zero in exactly the cells whose index is a multiple of the
    ratio, and [readIndicatorIsEmpty] returns having loaded only such
    cells. *)
Theorem slot_accesses_in_bounds fuel hw thread_hash v :
  config_ok fuel hw = true →
  ∃ o,
    constructor fuel hw = Ok o
    ∧ well_formed o = true
    ∧ (∀ a (p : nat), (p < length (readers_of a o))%nat →
         readers_of a o !! p
         = Some (if Z.of_nat p mod LROLLS_COUNTERS_RATIO =? 0 then Some 0 else None))
    ∧ ∀ o', well_formed o' = true → _numCores o' = _numCores o →
        (∃ tid,
           thread_2_tid thread_hash o' = Ok (tid, o', [])
           ∧ 0 ≤ tid ∧ tid mod LROLLS_COUNTERS_RATIO = 0
           ∧ tid < _readersLength o'
           ∧ _readersLength o' = _numCores o' * LROLLS_COUNTERS_RATIO
           ∧ (∀ a, Z.of_nat (length (readers_of a o')) = _readersLength o')
           ∧ (∀ a, readers_of a o !! Z.to_nat tid = Some (Some 0))
           ∧ ∃ o1 t1 t2,
               readIndicatorArrive tid o' = Ok (_versionIndex o', o1, t1)
               ∧ readIndicatorDepart tid (_versionIndex o') o1 = Ok (tt, o', t2))
        ∧ ∃ b t,
            readIndicatorIsEmpty fuel v o' = Ok (b, o', t)
            ∧ Forall (λ eo : event * LROrderedLinkedList,
                        ∃ tid c, eo.1 = EvLoadReaders (readers_at v) tid c
                                 ∧ 0 ≤ tid < _readersLength o'
                                 ∧ readers_of (readers_at v) o !! Z.to_nat tid
                                   = Some (Some 0)) t.
Proof.
  intros Hok. exists (constructed hw).
  pose proof (constructed_quiescent fuel hw Hok) as Hq.
  apply quiescent_spec in Hq as [[Hwf _]%no_readers_spec _].
  pose proof Hok as (HR & Hn & Hfit & Hfuel)%config_ok_spec.
  assert (Hcell : ∀ a (j : nat), (j < Z.to_nat (cores_of hw))%nat →
            readers_of a (constructed hw)
              !! Z.to_nat (Z.of_nat j * LROLLS_COUNTERS_RATIO) = Some (Some 0)).
  { intros a j Hj. rewrite constructed_cell by (done || nia).
    rewrite Z2Nat.id by nia. by rewrite Z.mod_mul by lia. }
  split; [by apply constructor_Ok|]. split; [by apply well_formed_spec|].
  split.
  { intros a p Hp. apply constructed_cell; [done..|].
    pose proof (wf_length _ Hwf a). simpl in *. lia. }
  intros o' Hwf' Hn'. simpl in Hn'. split.
  - pose proof Hwf' as Hwf2%well_formed_spec.
    destruct (arrive_depart_facts thread_hash o' Hwf') as (i & c & Hi & Htid & Harr & Hdep).
    destruct (slot_index_bounds o' i Hwf2 Hi) as [Hlo Hhi].
    exists (Z.of_nat i * LROLLS_COUNTERS_RATIO).
    split; [done|]. split; [done|]. split; [by apply Z.mod_mul; lia|].
    split; [lia|]. split; [apply Hwf2|]. split; [apply Hwf2|].
    split; [intros a; apply Hcell; lia|].
    eexists _, _, _. split; [exact Harr|exact Hdep].
  - destruct (readIndicatorIsEmpty_total fuel v o' Hwf' ltac:(lia)) as (b & t & Hs & Ht).
    exists b, t. split; [done|]. eapply Forall_impl; [exact Ht|].
    intros [e oi] (j & c & Hj & ->). exists (Z.of_nat j * LROLLS_COUNTERS_RATIO), c.
    split; [done|].
    apply well_formed_spec in Hwf'.
    destruct (slot_index_bounds o' j Hwf' Hj) as [Hlo Hhi].
    split; [lia|]. apply Hcell. lia.
Qed.

(** *** What [readIndicatorIsEmpty] answers *)

Lemma bind_Fault {A B} (m : M A) (f : A → M B) o e :
  m o = Fault e → bind m f o = Fault e.
Proof. unfold bind. by intros ->. Qed.

Lemma counters_load_beyond a tid :
  Z.of_nat (length a) ≤ tid → counters_load a tid = Fault OutOfBounds.
Proof.
  intros Hlen. unfold counters_load. destruct (Z.ltb_spec tid 0); [done|].
  by rewrite lookup_ge_None_2 by lia.
Qed.

(** A thread whose slot lies beyond the arrays cannot arrive: its
    [contains] indexes out of bounds. *)
Lemma contains_beyond thread_hash key o tid :
  thread_2_tid thread_hash o = Ok (tid, o, []) →
  (∀ a, Z.of_nat (length (readers_of a o)) ≤ tid) →
  contains thread_hash key o = Fault OutOfBounds.
Proof.
  intros Htid Hlen.
  assert (Hf : ∀ a, fetch_add_readers a tid 1 o = Fault OutOfBounds).
  { intros a. unfold fetch_add_readers, atomic, counters_fetch_add.
    by rewrite counters_load_beyond by apply Hlen. }
  unfold contains. rewrite (bind_Ok _ _ _ _ _ _ Htid).
  rewrite (bind_Fault _ _ _ OutOfBounds); [done|].
  unfold readIndicatorArrive.
  rewrite (bind_Ok _ _ o (_versionIndex o) o [(EvLoadVersionIndex (_versionIndex o), o)])
    by done.
  rewrite (bind_Fault _ _ _ OutOfBounds); [done|].
  destruct (_versionIndex o =? 0); apply Hf.
Qed.

Lemma scan_result a o (k i fuel : nat) :
  well_formed_facts o →
  (i + k = Z.to_nat (_numCores o))%nat → (k ≤ fuel)%nat →
  ∃ t,
    readIndicatorIsEmpty_loop fuel a (Z.of_nat i * LROLLS_COUNTERS_RATIO) o
    = Ok (forallb (λ j, match slot (readers_of a o) j with
                        | Some (Some c) => 0 =? c
                        | _ => false
                        end) (seq i k), o, t)
    ∧ (length t ≤ k)%nat
    ∧ Forall (λ eo : event * LROrderedLinkedList,
                eo.2 = o
                ∧ ∃ (j : nat) c,
                    (j < Z.to_nat (_numCores o))%nat
                    ∧ eo.1 = EvLoadReaders a (Z.of_nat j * LROLLS_COUNTERS_RATIO) c) t.
Proof.
  intros Hwf. pose proof Hwf as [HR Hn Hl Hf _ _].
  revert i fuel. induction k as [|k IH]; intros i fuel Hik Hfuel;
    rewrite readIndicatorIsEmpty_loop_unfold.
  - destruct (Z.ltb_spec (Z.of_nat i * LROLLS_COUNTERS_RATIO) (_readersLength o));
      [nia|]. by exists [].
  - destruct (slot_index_bounds o i Hwf ltac:(lia)) as [Hlo Hhi].
    destruct (Z.ltb_spec (Z.of_nat i * LROLLS_COUNTERS_RATIO) (_readersLength o));
      [|lia].
    destruct fuel as [|fuel]; [lia|].
    destruct (wf_slot o Hwf a i ltac:(lia)) as (c & Hc & _).
    rewrite (counters_load_slot _ _ _ Hlo Hc).
    cbn [seq forallb]. rewrite Hc, (Z.eqb_sym 0 c).
    destruct (c =? 0); cbn [negb andb].
    + rewrite to_int_id by (unfold INT_MIN, INT_MAX in *; lia).
      replace (Z.of_nat i * LROLLS_COUNTERS_RATIO + LROLLS_COUNTERS_RATIO)
        with (Z.of_nat (S i) * LROLLS_COUNTERS_RATIO) by lia.
      destruct (IH (S i) fuel ltac:(lia) ltac:(lia)) as (t & -> & Ht & Hall).
      eexists. split; [done|]. split; [simpl; lia|].
      constructor; [|done]. split; [done|]. exists i, c. split; [lia|done].
    + eexists. split; [done|]. split; [simpl; lia|].
      constructor; [|done]. split; [done|]. exists i, c. split; [lia|done].
Qed.

Lemma readIndicatorIsEmpty_slots fuel v o :
  well_formed o = true → (Z.to_nat (_numCores o) ≤ fuel)%nat →
  ∃ t,
    readIndicatorIsEmpty fuel v o
    = Ok (slots_all (Z.eqb 0) (_numCores o) (readers_of (readers_at v) o), o, t)
    ∧ (length t ≤ Z.to_nat (_numCores o))%nat
    ∧ Forall (λ eo : event * LROrderedLinkedList,
                eo.2 = o
                ∧ ∃ (j : nat) c,
                    (j < Z.to_nat (_numCores o))%nat
                    ∧ eo.1 = EvLoadReaders (readers_at v)
                               (Z.of_nat j * LROLLS_COUNTERS_RATIO) c) t.
Proof.
  intros Hwf%well_formed_spec Hfuel.
  destruct (scan_result (readers_at v) o (Z.to_nat (_numCores o)) 0 fuel
              Hwf eq_refl Hfuel) as (t & Hscan & Ht).
  exists t. split; [|done].
  unfold readIndicatorIsEmpty, readers_at, slots_all in *. by destruct (v =? 0).
Qed.

(** X1: on a well-formed object, with fuel for one pass, [readIndicatorIsEmpty]
    returns true exactly when every slot of the array of the given version
    holds zero, and false otherwise; it loads slot cells only, at most one
    for each core, and leaves the object as it is. *)
Theorem readIndicatorIsEmpty_result fuel v o :
  well_formed o = true → (Z.to_nat (_numCores o) ≤ fuel)%nat →
  ∃ b t,
    readIndicatorIsEmpty fuel v o = Ok (b, o, t)
    ∧ (b = true ↔
       ∀ i : nat, (i < Z.to_nat (_numCores o))%nat →
         counters_load (readers_of (readers_at v) o)
           (Z.of_nat i * LROLLS_COUNTERS_RATIO) = Ok 0)
    ∧ (length t ≤ Z.to_nat (_numCores o))%nat
    ∧ Forall (λ eo : event * LROrderedLinkedList,
                eo.2 = o
                ∧ ∃ (j : nat) c,
                    (j < Z.to_nat (_numCores o))%nat
                    ∧ eo.1 = EvLoadReaders (readers_at v)
                               (Z.of_nat j * LROLLS_COUNTERS_RATIO) c) t.
Proof.
  intros Hwf Hfuel.
  destruct (readIndicatorIsEmpty_slots fuel v o Hwf Hfuel) as (t & Hs & Hlen & Hall).
  eexists _, t. split; [exact Hs|]. split; [|done].
  pose proof Hwf as Hwf'%well_formed_spec. rewrite slots_all_spec. split.
  - intros Hz i Hi. destruct (Hz i Hi) as (c & Hc & <-%Z.eqb_eq).
    destruct (slot_index_bounds o i Hwf' Hi) as [Hlo _].
    by apply counters_load_slot.
  - intros Hz i Hi. exists 0. split; [|done].
    specialize (Hz i Hi). apply counters_load_Ok in Hz as [_ Hz]. exact Hz.
Qed.

(** *** A writer and a reader that has arrived *)

Lemma wait_for_readers_zero spins fuel v o :
  well_formed o = true → (0 < spins)%nat → (Z.to_nat (_numCores o) ≤ fuel)%nat →
  slots_all (Z.eqb 0) (_numCores o) (readers_of (readers_at v) o) = true →
  ∃ t, wait_for_readers spins fuel v o = Ok (tt, o, t).
Proof.
  intros Hwf Hspins Hfuel Hz. destruct spins as [|spins]; [lia|].
  destruct (readIndicatorIsEmpty_slots fuel v o Hwf Hfuel) as (t & Hs & _).
  rewrite Hz in Hs. cbn [wait_for_readers].
  rewrite (bind_Ok _ _ _ _ _ _ Hs). cbn [negb]. by eexists.
Qed.

Lemma wait_for_readers_busy spins fuel v o :
  well_formed o = true → (Z.to_nat (_numCores o) ≤ fuel)%nat →
  slots_all (Z.eqb 0) (_numCores o) (readers_of (readers_at v) o) = false →
  wait_for_readers spins fuel v o = Fault OutOfFuel.
Proof.
  intros Hwf Hfuel Hz.
  destruct (readIndicatorIsEmpty_slots fuel v o Hwf Hfuel) as (t & Hs & _).
  rewrite Hz in Hs.
  induction spins as [|spins IH]; [done|]. cbn [wait_for_readers].
  rewrite (bind_Ok _ _ _ _ _ _ Hs). cbn [negb].
  rewrite (bind_Ok _ _ o tt o [(EvYield, o)]) by done.
  by rewrite IH.
Qed.

Lemma toggleVersionAndWait_busy fuel o :
  well_formed o = true → epoch_ok o = true →
  (Z.to_nat (_numCores o) < fuel)%nat →
  slots_all (Z.eqb 0) (_numCores o)
    (readers_of (readers_at (1 - _versionIndex o)) o) = true →
  slots_all (Z.eqb 0) (_numCores o)
    (readers_of (readers_at (_versionIndex o)) o) = false →
  toggleVersionAndWait fuel o = Fault OutOfFuel.
Proof.
  intros Hwf Hv Hfuel Hnext Hprev.
  destruct (wait_for_readers_zero fuel fuel (1 - _versionIndex o) o Hwf
              ltac:(lia) ltac:(lia) Hnext) as (t1 & Hw1).
  pose proof (wait_for_readers_busy fuel fuel (_versionIndex o)
                (with_versionIndex (1 - _versionIndex o) o) Hwf
                ltac:(simpl; lia) Hprev) as Hw2.
  unfold toggleVersionAndWait.
  rewrite (bind_Ok _ _ o (_versionIndex o) o [(EvLoadVersionIndex (_versionIndex o), o)])
    by done.
  unfold epoch_ok in Hv. apply orb_prop in Hv.
  destruct Hv as [Hv%Z.eqb_eq|Hv%Z.eqb_eq]; rewrite Hv in *;
    unfold bind at 1; simpl;
    rewrite (bind_Ok _ _ _ _ _ _ Hw1);
    unfold bind at 1; simpl.
  - change (Z.rem 0 2) with 0. change (Z.rem (0 + 1) 2) with (1 - 0).
    by rewrite Hw2.
  - change (Z.rem 1 2) with 1. change (Z.rem (1 + 1) 2) with (1 - 1).
    by rewrite Hw2.
Qed.

Lemma writer_busy f ev fuel key o :
  well_formed o = true → epoch_ok o = true → _writersMutex o = false →
  (Z.to_nat (_numCores o) < fuel)%nat →
  slots_all (Z.eqb 0) (_numCores o)
    (readers_of (readers_at (1 - _versionIndex o)) o) = true →
  slots_all (Z.eqb 0) (_numCores o)
    (readers_of (readers_at (_versionIndex o)) o) = false →
  (f key (set_of (background o) o)).1 = true →
  writer f ev fuel key o = Fault OutOfFuel.
Proof.
  intros Hwf Hep Hm Hfuel Hnext Hprev Hr. unfold writer.
  rewrite (bind_Ok _ _ o tt (with_writersMutex true o) [(EvLock, with_writersMutex true o)])
    by (unfold lock, atomic; by rewrite Hm).
  set (oL := with_writersMutex true o).
  rewrite (bind_Ok _ _ oL (_leftRight o) oL [(EvLoadLeftRight (_leftRight o), oL)])
    by done.
  assert (Hbusy : ∀ bg lr s,
            toggleVersionAndWait fuel (with_leftRight lr (with_set bg s oL))
            = Fault OutOfFuel).
  { intros bg lr s. apply toggleVersionAndWait_busy; by destruct bg. }
  destruct (background_foreground o) as [(Hb & _ & Hlr)|(Hb & _ & Hlr)];
    rewrite Hb in Hr; rewrite Hlr;
    unfold bind at 1;
    rewrite (bind_Ok _ _ _ _ _ _ (set_call_Ok _ _ _ _ _));
    change (set_of _ oL) with (set_of Set2 o) || change (set_of _ oL) with (set_of Set1 o);
    rewrite Hr; cbn [negb];
    unfold bind at 1, store_leftRight at 1, atomic at 1;
    unfold bind at 1; by rewrite Hbusy.
Qed.

Lemma fetch_added_fields a tid c delta o :
  _leftRight (fetch_added a tid c delta o) = _leftRight o
  ∧ _versionIndex (fetch_added a tid c delta o) = _versionIndex o
  ∧ _writersMutex (fetch_added a tid c delta o) = _writersMutex o
  ∧ _numCores (fetch_added a tid c delta o) = _numCores o
  ∧ _readersLength (fetch_added a tid c delta o) = _readersLength o
  ∧ ∀ m, set_of m (fetch_added a tid c delta o) = set_of m o.
Proof. destruct a; repeat split; by intros []. Qed.

(** X2: a reader that has arrived and not departed keeps a writer waiting.
    From an object at rest on which the two mirrors agree, after
    [readIndicatorArrive] by any thread, an [add] of an absent key and a
    [remove] of a present key do not return: whatever the bound on the
    number of times the wait loops of [toggleVersionAndWait] may run, it is
    exhausted. *)
Theorem writer_waits_for_reader fuel thread_hash key o :
  quiescent o = true → mirrors_agree o →
  (Z.to_nat (_numCores o) < fuel)%nat →
  ∃ tid o1 t1,
    thread_2_tid thread_hash o = Ok (tid, o, [])
    ∧ readIndicatorArrive tid o = Ok (_versionIndex o, o1, t1)
    ∧ (lls_contains key (set_of (foreground o) o) = false →
       add fuel key o1 = Fault OutOfFuel)
    ∧ (lls_contains key (set_of (foreground o) o) = true →
       remove fuel key o1 = Fault OutOfFuel).
Proof.
  intros (Hnr & Hep & Hm)%quiescent_spec Hagree Hfuel.
  pose proof Hnr as [Hwf Hz]%no_readers_spec.
  pose proof Hwf as [HR Hn Hl Hf Hlen _].
  destruct (thread_2_tid_slot thread_hash o Hwf) as (i & Hi & Htid).
  destruct (slot_index_bounds o i Hwf Hi) as [Hlo Hhi].
  set (a := readers_at (_versionIndex o)).
  pose proof (Hz a) as Hza. rewrite slots_all_spec in Hza.
  destruct (Hza i Hi) as (c & Hslot & <-%Z.eqb_eq).
  pose proof (counters_load_slot _ _ _ Hlo Hslot) as Hload.
  set (tid := Z.of_nat i * LROLLS_COUNTERS_RATIO) in *.
  destruct (fetch_added_fields a tid 0 1 o) as (Hlr1 & Hv1 & Hm1 & Hn1 & Hl1 & Hs1).
  set (o1 := fetch_added a tid 0 1 o) in *.
  exists tid, o1. eexists. split; [exact Htid|].
  split; [by apply readIndicatorArrive_Ok|].
  assert (Hcell : ∀ a' (j : nat),
            slot (readers_of a' o1) j
            = if bool_decide (a' = a ∧ j = i) then Some (Some 1)
              else slot (readers_of a' o) j).
  { intros a' j. unfold slot. case_bool_decide as Hd.
    - destruct Hd as [-> ->]. fold tid.
      pose proof (counters_load_fetch_added a tid 0 1 o Hload) as Hc.
      apply counters_load_Ok in Hc as [_ Hc]. exact Hc.
    - apply fetch_added_other. intros [= -> Hj]. apply Hd. split; [done|].
      unfold tid in Hj. apply Z2Nat.inj in Hj; [|nia|lia]. nia. }
  assert (Hwf1 : well_formed o1 = true).
  { apply well_formed_spec. split; rewrite ?Hn1, ?Hl1; try done.
    - intros a'. rewrite <-(Hlen a'). unfold o1, fetch_added.
      destruct a, a'; simpl; by rewrite ?length_insert.
    - intros a' j Hj. rewrite Hcell. case_bool_decide; [by exists 1|].
      by apply (wf_slot o Hwf). }
  assert (Hother : slots_all (Z.eqb 0) (_numCores o1)
                     (readers_of (readers_at (1 - _versionIndex o1)) o1) = true).
  { apply slots_all_spec. rewrite Hn1, Hv1. intros j Hj. rewrite Hcell.
    rewrite bool_decide_eq_false_2.
    - pose proof (Hz (readers_at (1 - _versionIndex o))) as Hzo.
      rewrite slots_all_spec in Hzo. by apply Hzo.
    - intros [Ha _]. revert Ha. unfold a, readers_at.
      unfold epoch_ok in Hep.
      apply orb_prop in Hep as [->%Z.eqb_eq| ->%Z.eqb_eq]; done. }
  assert (Hsame : slots_all (Z.eqb 0) (_numCores o1)
                    (readers_of (readers_at (_versionIndex o1)) o1) = false).
  { apply not_true_is_false. rewrite slots_all_spec, Hn1, Hv1. intros Hall.
    destruct (Hall i Hi) as (c & Hc & Hzero). fold a in Hc.
    rewrite Hcell, bool_decide_eq_true_2 in Hc by done.
    by injection Hc as <-. }
  assert (Hbg : ∀ k, lls_contains k (set_of (background o1) o1)
                     = lls_contains k (set_of (foreground o) o)).
  { intros k. rewrite Hs1. unfold background, foreground. rewrite Hlr1.
    destruct (_leftRight o =? READS_ON_LEFT); simpl; by rewrite (Hagree k). }
  assert (Hep1 : epoch_ok o1 = true) by (unfold epoch_ok; by rewrite Hv1).
  assert (Hfuel1 : (Z.to_nat (_numCores o1) < fuel)%nat) by by rewrite Hn1.
  assert (Hmx1 : _writersMutex o1 = false) by by rewrite Hm1.
  split.
  - intros Hk. rewrite add_writer.
    apply writer_busy; try done. apply lls_add_absent. by rewrite Hbg.
  - intros Hk. rewrite remove_writer.
    apply writer_busy; try done. apply lls_remove_present. by rewrite Hbg.
Qed.

(** *** The slots of two threads *)

(** X3: on a well-formed object the slots [thread_2_tid] gives to any two
    threads are the same cell or lie at least [LROLLS_COUNTERS_RATIO] cells
    apart: no two counters in use are closer than the padding. *)
Theorem thread_2_tid_spacing thread_hash thread_hash' o :
  well_formed o = true →
  ∃ tid tid',
    thread_2_tid thread_hash o = Ok (tid, o, [])
    ∧ thread_2_tid thread_hash' o = Ok (tid', o, [])
    ∧ (tid = tid' ∨ LROLLS_COUNTERS_RATIO ≤ Z.abs (tid - tid')).
Proof.
  intros Hwf%well_formed_spec. pose proof Hwf as [HR _ _ _ _ _].
  destruct (thread_2_tid_slot thread_hash o Hwf) as (i & Hi & Htid).
  destruct (thread_2_tid_slot thread_hash' o Hwf) as (i' & Hi' & Htid').
  eexists _, _. split; [exact Htid|]. split; [exact Htid'|].
  destruct (decide (i = i')) as [->|Hne]; [by left|right].
  replace (Z.of_nat i * LROLLS_COUNTERS_RATIO - Z.of_nat i' * LROLLS_COUNTERS_RATIO)
    with ((Z.of_nat i - Z.of_nat i') * LROLLS_COUNTERS_RATIO) by lia.
  rewrite Z.abs_mul, (Z.abs_eq LROLLS_COUNTERS_RATIO) by lia.
  assert (1 ≤ Z.abs (Z.of_nat i - Z.of_nat i')) by lia. nia.
Qed.

(** *** What a successful mutation leaves behind *)

(** X4: an [add] or [remove] that returns true on an object at rest has moved
    the selector to the other mirror and the version index to the other
    version, has left every presence counter as it was and has released the
    mutex: the object is at rest again, with the roles of the two mirrors
    exchanged. *)
Theorem successful_write_flips fuel key o o' t :
  quiescent o = true → (Z.to_nat (_numCores o) < fuel)%nat →
  add fuel key o = Ok (true, o', t) ∨ remove fuel key o = Ok (true, o', t) →
  foreground o' = background o
  ∧ background o' = foreground o
  ∧ _leftRight o'
    = (if _leftRight o =? READS_ON_LEFT then READS_ON_RIGHT else READS_ON_LEFT)
  ∧ _versionIndex o' = 1 - _versionIndex o
  ∧ (∀ a, readers_of a o' = readers_of a o)
  ∧ _numCores o' = _numCores o
  ∧ _readersLength o' = _readersLength o
  ∧ quiescent o' = true.
Proof.
  intros Hq Hfuel Hcall.
  assert (∃ f ev, writer f ev fuel key o = Ok (true, o', t)) as (f & ev & Hw).
  { destruct Hcall as [Ha|Hr]; [exists lls_add, EvAdd|exists lls_remove, EvRemove]; done. }
  destruct (writer_success_inv _ _ _ _ _ _ _ Hw) as [Hr _].
  destruct (writer_success f ev fuel key o Hq Hfuel Hr) as (t' & Hw' & Hq' & _).
  rewrite Hw in Hw'. injection Hw' as -> _.
  split; [|split; [|split; [|split; [|split; [|split; [|split]]]]]]; try done;
    unfold writer_result, branch_result, foreground, background;
    destruct (_leftRight o =? READS_ON_LEFT); try done; by intros [].
Qed.

(** *** Calls on an object at rest *)

(** X5: being at rest is kept by every call.  On an object at rest (every
    presence counter zero, the mutex free, the version index 0 or 1) whose
    mirrors hold the keys of [S], any sequence of calls by one thread
    returns, answers as the plain set does from [S], and leaves an object
    at rest whose mirrors hold the keys of the plain set after the calls;
    the number of cores and the arrays' length are not changed. *)
Theorem calls_keep_at_rest fuel thread_hash cs o S :
  quiescent o = true → represents o S →
  (Z.to_nat (_numCores o) < fuel)%nat →
  ∃ o' t,
    run fuel thread_hash cs o = Ok (plain_set_run cs S, o', t)
    ∧ quiescent o' = true
    ∧ represents o' (foldl (λ S c, (plain_set_call c S).2) S cs)
    ∧ mirrors_agree o'
    ∧ _numCores o' = _numCores o
    ∧ _readersLength o' = _readersLength o.
Proof.
  revert o S. induction cs as [|c cs IH]; intros o S Hq Hrep Hfuel.
  - exists o, []. split; [done|]. split; [done|]. split; [done|].
    split; [|done]. intros k. destruct (Hrep k) as [-> ->]. done.
  - destruct (invoke_refines fuel thread_hash c o S Hq Hrep Hfuel)
      as (o1 & t1 & Hinv & Hq1 & Hrep1 & Hn1).
    destruct (IH o1 _ Hq1 Hrep1 ltac:(by rewrite Hn1))
      as (o' & t' & Hrun & Hq' & Hrep' & Hag' & Hn' & Hl').
    cbn [run]. rewrite (bind_Ok _ _ _ _ _ _ Hinv), (bind_Ok _ _ _ _ _ _ Hrun).
    eexists _, _. split; [reflexivity|]. split; [done|]. split; [done|].
    split; [done|]. split; [by rewrite Hn'|].
    rewrite Hl'.
    pose proof Hq as ([[_ _ Hl _ _ _] _]%no_readers_spec & _)%quiescent_spec.
    pose proof Hq1 as ([[_ _ Hl1 _ _ _] _]%no_readers_spec & _)%quiescent_spec.
    by rewrite Hl, Hl1, Hn1.
Qed.

End LROrderedLinkedList.

(** ** The concurrent layer

    Every operation on [_leftRight], [_versionIndex], the counters and the
    mutex is a sequentially consistent atomic ([load()], [store()] and
    [fetch_add()] with the default memory order), so a run of the class with
    several threads is an interleaving of these operations.  A thread is at a
    program point ([pc]) holding its locals, and one step of a thread is one
    operation of the sequential layer.  The calls into the two mirrors are
    not atomic: a thread counts as being inside a mirror from the step that
    chose the mirror up to the step that completes the call. *)

Module Concurrent.

Inductive op : Set := OpAdd | OpRemove.

(** The two waits of [toggleVersionAndWait]: for the readers of the next
    version, then for the readers of the previous version. *)
Inductive phase : Set := WaitNext | WaitPrev.

Section Threads.

Context {T : Type} `{T_eq : EqDecision T} `{T_set : LinkedListSet T}.

Variable LROLLS_NUMBER_OF_CORES : Z.
Variable LROLLS_COUNTERS_RATIO : Z.

Inductive pc : Type :=
| Idle
(* [contains(key)], with [tid = thread_2_tid()] *)
| C_arrive_load (key : T) (tid : Z)
    (* before [_versionIndex.load()] of [readIndicatorArrive] *)
| C_arrive_add (key : T) (tid localVersionIndex : Z)
    (* before [fetch_add(1)] of [readIndicatorArrive] *)
| C_load_lr (key : T) (tid localVersionIndex : Z)
    (* before [_leftRight.load()] *)
| C_inside (key : T) (tid localVersionIndex : Z) (m : mirror)
    (* inside [m.contains(key)] *)
| C_depart (key : T) (tid localVersionIndex : Z) (retValue : bool)
    (* before [fetch_add(-1)] of [readIndicatorDepart] *)
(* [add(key)] and [remove(key)] *)
| W_lock (w : op) (key : T)
    (* before the mutex is taken *)
| W_load_lr (w : op) (key : T)
    (* before [_leftRight.load()] *)
| W_first (w : op) (key : T) (leftRight : Z)
    (* inside the call on the mirror readers are not sent to *)
| W_store_lr (w : op) (key : T) (leftRight : Z)
    (* before [_leftRight.store()] *)
| W_toggle_load (w : op) (key : T) (leftRight : Z)
    (* before [_versionIndex.load()] of [toggleVersionAndWait] *)
| W_scan (w : op) (key : T) (leftRight prevVersionIndex nextVersionIndex : Z)
    (ph : phase) (tid : Z)
    (* at the test of the [for] loop of [readIndicatorIsEmpty] *)
| W_yield (w : op) (key : T) (leftRight prevVersionIndex nextVersionIndex : Z)
    (ph : phase)
    (* before [std::this_thread::yield()] *)
| W_store_version (w : op) (key : T) (leftRight prevVersionIndex nextVersionIndex : Z)
    (* before [_versionIndex.store(nextVersionIndex)] *)
| W_second (w : op) (key : T) (leftRight : Z)
    (* inside the call on the other mirror *)
| W_unlock (retValue : bool).
    (* before the mutex is released *)

(** The mirror readers are sent to when the selector reads [leftRight], and
    the other one. *)
Definition fg_of (leftRight : Z) : mirror :=
  if leftRight =? READS_ON_LEFT then Set1 else Set2.

Definition bg_of (leftRight : Z) : mirror :=
  if leftRight =? READS_ON_LEFT then Set2 else Set1.

Definition set_op (w : op) (m : mirror) (key : T) : M bool :=
  match w with
  | OpAdd => set_add m key
  | OpRemove => set_remove m key
  end.

Inductive outcome : Type :=
| Step (o : LROrderedLinkedList) (p : pc) (retValue : option bool)
| Blocked
| Failed (e : fault).

(** Run one operation [m] of the sequential layer and move to the program
    point [k] gives.  Only [lock] can block. *)
Definition atomically {A} (m : M A) (o : LROrderedLinkedList)
    (k : A → pc * option bool) : outcome :=
  match m o with
  | Ok (a, o', _) => Step o' (k a).1 (k a).2
  | Fault Deadlock => Blocked
  | Fault e => Failed e
  end.

(** A thread enters a member function. *)
Definition enter (thread_hash : Z) (c : @call T) (o : LROrderedLinkedList) : outcome :=
  match c with
  | Add key => Step o (W_lock OpAdd key) None
  | Remove key => Step o (W_lock OpRemove key) None
  | Contains key =>
      atomically (thread_2_tid LROLLS_COUNTERS_RATIO thread_hash) o
        (λ tid, (C_arrive_load key tid, None))
  end.

(** One step of a thread that is inside a member function. *)
Definition run_pc (p : pc) (o : LROrderedLinkedList) : outcome :=
  match p with
  | Idle => Blocked
  | C_arrive_load key tid =>
      atomically load_versionIndex o
        (λ localVersionIndex, (C_arrive_add key tid localVersionIndex, None))
  | C_arrive_add key tid localVersionIndex =>
      atomically (if localVersionIndex =? 0
                  then fetch_add_readers Version0 tid 1
                  else fetch_add_readers Version1 tid 1) o
        (λ _, (C_load_lr key tid localVersionIndex, None))
  | C_load_lr key tid localVersionIndex =>
      atomically load_leftRight o
        (λ leftRight,
           (C_inside key tid localVersionIndex
              (if leftRight =? READS_ON_LEFT then Set1 else Set2), None))
  | C_inside key tid localVersionIndex m =>
      atomically (set_contains m key) o
        (λ retValue, (C_depart key tid localVersionIndex retValue, None))
  | C_depart key tid localVersionIndex retValue =>
      atomically (readIndicatorDepart tid localVersionIndex) o
        (λ _, (Idle, Some retValue))
  | W_lock w key =>
      atomically lock o (λ _, (W_load_lr w key, None))
  | W_load_lr w key =>
      atomically load_leftRight o (λ leftRight, (W_first w key leftRight, None))
  | W_first w key leftRight =>
      atomically (if leftRight =? READS_ON_LEFT
                  then set_op w Set2 key else set_op w Set1 key) o
        (λ done, (if negb done then W_unlock false
                  else W_store_lr w key leftRight, None))
  | W_store_lr w key leftRight =>
      atomically (if leftRight =? READS_ON_LEFT
                  then store_leftRight READS_ON_RIGHT
                  else store_leftRight READS_ON_LEFT) o
        (λ _, (W_toggle_load w key leftRight, None))
  | W_toggle_load w key leftRight =>
      atomically (bind load_versionIndex (λ localVersionIndex,
                  bind (int_add localVersionIndex 1) (λ next,
                  ret (Z.rem localVersionIndex 2, Z.rem next 2)))) o
        (λ '(prevVersionIndex, nextVersionIndex),
           (W_scan w key leftRight prevVersionIndex nextVersionIndex WaitNext 0, None))
  | W_scan w key leftRight prevVersionIndex nextVersionIndex ph tid =>
      let localVersionIndex :=
        match ph with WaitNext => nextVersionIndex | WaitPrev => prevVersionIndex end in
      if tid <? _readersLength o then
        atomically (load_readers (if localVersionIndex =? 0 then Version0 else Version1)
                      tid) o
          (λ c, (if negb (c =? 0)
                 then W_yield w key leftRight prevVersionIndex nextVersionIndex ph
                 else W_scan w key leftRight prevVersionIndex nextVersionIndex ph
                        (to_int (tid + LROLLS_COUNTERS_RATIO)), None))
      else
        Step o
          match ph with
          | WaitNext => W_store_version w key leftRight prevVersionIndex nextVersionIndex
          | WaitPrev => W_second w key leftRight
          end None
  | W_yield w key leftRight prevVersionIndex nextVersionIndex ph =>
      atomically yield o
        (λ _, (W_scan w key leftRight prevVersionIndex nextVersionIndex ph 0, None))
  | W_store_version w key leftRight prevVersionIndex nextVersionIndex =>
      atomically (store_versionIndex nextVersionIndex) o
        (λ _, (W_scan w key leftRight prevVersionIndex nextVersionIndex WaitPrev 0, None))
  | W_second w key leftRight =>
      atomically (if leftRight =? READS_ON_LEFT
                  then set_op w Set1 key else set_op w Set2 key) o
        (λ _, (W_unlock true, None))
  | W_unlock retValue =>
      atomically unlock o (λ _, (Idle, Some retValue))
  end.

(** The object and the threads that use it; a thread is the hash of its
    identity and its program point. *)
Record system : Type := {
  object : LROrderedLinkedList;
  threads : list (Z * pc);
}.

(** What a step shows: a call is entered, a call returns, or neither. *)
Inductive label : Type :=
| Call (i : nat) (c : @call T)
| Return (i : nat) (retValue : bool)
| Internal (i : nat).

Inductive step : system → label → system → Prop :=
| step_enter i h c o ths o' p :
    ths !! i = Some (h, Idle) →
    enter h c o = Step o' p None →
    step {| object := o; threads := ths |} (Call i c)
         {| object := o'; threads := <[i := (h, p)]> ths |}
| step_run i h p o ths o' p' r :
    ths !! i = Some (h, p) →
    run_pc p o = Step o' p' r →
    step {| object := o; threads := ths |}
         (match r with Some b => Return i b | None => Internal i end)
         {| object := o'; threads := <[i := (h, p')]> ths |}.

Inductive reachable (s0 : system) : system → Prop :=
| reachable_start : reachable s0 s0
| reachable_step s l s' : reachable s0 s → step s l s' → reachable s0 s'.

(** A new object used by the threads of the given identities, all of them
    outside the class. *)
Definition initial (hardware_concurrency : Z) (hashes : list Z) : system :=
  {| object := constructed LROLLS_NUMBER_OF_CORES LROLLS_COUNTERS_RATIO
                 hardware_concurrency;
     threads := (λ h, (h, Idle)) <$> hashes |}.

(** Thread [i] takes one step: it enters the call [c], or, with no call
    given, runs on from where it is. *)
Definition step_thread (i : nat) (c : option (@call T)) (s : system) : option system :=
  match threads s !! i with
  | Some (h, p) =>
      match match c, p with
            | Some c, Idle => enter h c (object s)
            | Some _, _ => Blocked
            | None, _ => run_pc p (object s)
            end with
      | Step o' p' _ => Some {| object := o'; threads := <[i := (h, p')]> (threads s) |}
      | _ => None
      end
  | None => None
  end.

(** The steps of a schedule, one after the other. *)
Fixpoint schedule (l : list (nat * option (@call T))) (s : system) : option system :=
  match l with
  | [] => Some s
  | (i, c) :: l' =>
      match step_thread i c s with
      | Some s' => schedule l' s'
      | None => None
      end
  end.

(** A thread that runs alone, from the program point [p] to the return of
    its call, in at most [n] steps. *)
Fixpoint solo (n : nat) (p : pc) (o : LROrderedLinkedList)
    : result (bool * LROrderedLinkedList) :=
  match n with
  | O => Fault OutOfFuel
  | S n' =>
      match run_pc p o with
      | Step o' _ (Some retValue) => Ok (retValue, o')
      | Step o' p' None => solo n' p' o'
      | Blocked => Fault Deadlock
      | Failed e => Fault e
      end
  end.

Definition solo_call (n : nat) (thread_hash : Z) (c : @call T)
    (o : LROrderedLinkedList) : result (bool * LROrderedLinkedList) :=
  match enter thread_hash c o with
  | Step o' p _ => solo n p o'
  | Blocked => Fault Deadlock
  | Failed e => Fault e
  end.

(** The call a writer's program points belong to. *)
Definition call_of (w : op) (key : T) : @call T :=
  match w with
  | OpAdd => Add key
  | OpRemove => Remove key
  end.

(** *** Where a thread is *)

(** The mirror a reader is inside of. *)
Definition reading (p : pc) : option mirror :=
  match p with
  | C_inside _ _ _ m => Some m
  | _ => None
  end.

(** The mirror a writer is inside of. *)
Definition mutating (p : pc) : option mirror :=
  match p with
  | W_first _ _ leftRight => Some (bg_of leftRight)
  | W_second _ _ leftRight => Some (fg_of leftRight)
  | _ => None
  end.

(** The counter a reader has incremented and not yet decremented. *)
Definition present (p : pc) : option (readers * Z) :=
  match p with
  | C_load_lr _ tid v | C_inside _ tid v _ | C_depart _ tid v _ =>
      Some (readers_at v, tid)
  | _ => None
  end.

(** The thread holds the mutex. *)
Definition writing (p : pc) : bool :=
  match p with
  | W_load_lr _ _ | W_first _ _ _ | W_store_lr _ _ _ | W_toggle_load _ _ _
  | W_scan _ _ _ _ _ _ _ | W_yield _ _ _ _ _ _ | W_store_version _ _ _ _ _
  | W_second _ _ _ | W_unlock _ => true
  | _ => false
  end.

(** The writer is between its two mutations: the key and the selector value
    it started from. *)
Definition between (p : pc) : option (op * T * Z) :=
  match p with
  | W_store_lr w key lr | W_toggle_load w key lr
  | W_scan w key lr _ _ _ _ | W_yield w key lr _ _ _
  | W_store_version w key lr _ _ | W_second w key lr => Some (w, key, lr)
  | _ => None
  end.

(** The member function of [LinkedListSet] a writer calls. *)
Definition op_fun (w : op) : T → lls → bool * lls :=
  match w with
  | OpAdd => lls_add
  | OpRemove => lls_remove
  end.

(** The version whose readers a writer waits for. *)
Definition phase_version (ph : phase) (prevVersionIndex nextVersionIndex : Z) : Z :=
  match ph with
  | WaitNext => nextVersionIndex
  | WaitPrev => prevVersionIndex
  end.

(** The steps of a thread, one rule for each program point and outcome. *)
Inductive trans (o : LROrderedLinkedList) : pc → LROrderedLinkedList → pc → Prop :=
| t_add key :
    trans o Idle o (W_lock OpAdd key)
| t_remove key :
    trans o Idle o (W_lock OpRemove key)
| t_contains h key tid :
    thread_2_tid LROLLS_COUNTERS_RATIO h o = Ok (tid, o, []) →
    trans o Idle o (C_arrive_load key tid)
| t_arrive_load key tid :
    trans o (C_arrive_load key tid) o (C_arrive_add key tid (_versionIndex o))
| t_arrive_add key tid v c :
    counters_load (readers_of (readers_at v) o) tid = Ok c →
    trans o (C_arrive_add key tid v)
          (fetch_added (readers_at v) tid c 1 o) (C_load_lr key tid v)
| t_load_lr key tid v :
    trans o (C_load_lr key tid v) o (C_inside key tid v (fg_of (_leftRight o)))
| t_read key tid v m :
    trans o (C_inside key tid v m) o
          (C_depart key tid v (lls_contains key (set_of m o)))
| t_depart key tid v r c :
    counters_load (readers_of (readers_at v) o) tid = Ok c →
    trans o (C_depart key tid v r) (fetch_added (readers_at v) tid c (-1) o) Idle
| t_lock w key :
    _writersMutex o = false →
    trans o (W_lock w key) (with_writersMutex true o) (W_load_lr w key)
| t_wload w key :
    trans o (W_load_lr w key) o (W_first w key (_leftRight o))
| t_first_refused w key lr :
    (op_fun w key (set_of (bg_of lr) o)).1 = false →
    trans o (W_first w key lr)
          (with_set (bg_of lr) (op_fun w key (set_of (bg_of lr) o)).2 o)
          (W_unlock false)
| t_first_done w key lr :
    (op_fun w key (set_of (bg_of lr) o)).1 = true →
    trans o (W_first w key lr)
          (with_set (bg_of lr) (op_fun w key (set_of (bg_of lr) o)).2 o)
          (W_store_lr w key lr)
| t_flip w key lr :
    trans o (W_store_lr w key lr)
          (with_leftRight (if lr =? READS_ON_LEFT then READS_ON_RIGHT else READS_ON_LEFT) o)
          (W_toggle_load w key lr)
| t_toggle_load w key lr :
    is_int (_versionIndex o + 1) = true →
    trans o (W_toggle_load w key lr) o
          (W_scan w key lr (Z.rem (_versionIndex o) 2) (Z.rem (_versionIndex o + 1) 2)
             WaitNext 0)
| t_scan_zero w key lr prev next ph tid :
    tid < _readersLength o →
    counters_load (readers_of (readers_at (phase_version ph prev next)) o) tid = Ok 0 →
    trans o (W_scan w key lr prev next ph tid) o
          (W_scan w key lr prev next ph (to_int (tid + LROLLS_COUNTERS_RATIO)))
| t_scan_busy w key lr prev next ph tid c :
    tid < _readersLength o →
    counters_load (readers_of (readers_at (phase_version ph prev next)) o) tid = Ok c →
    c ≠ 0 →
    trans o (W_scan w key lr prev next ph tid) o (W_yield w key lr prev next ph)
| t_scan_end w key lr prev next ph tid :
    _readersLength o ≤ tid →
    trans o (W_scan w key lr prev next ph tid) o
          match ph with
          | WaitNext => W_store_version w key lr prev next
          | WaitPrev => W_second w key lr
          end
| t_yield w key lr prev next ph :
    trans o (W_yield w key lr prev next ph) o (W_scan w key lr prev next ph 0)
| t_store_version w key lr prev next :
    trans o (W_store_version w key lr prev next) (with_versionIndex next o)
          (W_scan w key lr prev next WaitPrev 0)
| t_second w key lr :
    trans o (W_second w key lr)
          (with_set (fg_of lr) (op_fun w key (set_of (fg_of lr) o)).2 o)
          (W_unlock true)
| t_unlock r :
    trans o (W_unlock r) (with_writersMutex false o) Idle.

(** *** Runs and what they show *)

(** The thread that takes the step a label shows. *)
Definition label_thread (l : label) : nat :=
  match l with
  | Call i _ | Return i _ | Internal i => i
  end.

(** Runs in which thread [j] takes no step. *)
Inductive others_run (j : nat) : system → system → Prop :=
| others_done s : others_run j s s
| others_step s l s' s'' :
    others_run j s s' → step s' l s'' → label_thread l ≠ j → others_run j s s''.

(** The steps [contains] has left to take before it has returned. *)
Definition reader_steps (p : pc) : nat :=
  match p with
  | C_arrive_load _ _ => 5
  | C_arrive_add _ _ _ => 4
  | C_load_lr _ _ _ => 3
  | C_inside _ _ _ _ => 2
  | C_depart _ _ _ _ => 1
  | _ => 0
  end.

(** Whether [key] is in the mirror the selector names: the answer a reader
    that loads the selector now is going to give. *)
Definition visible (o : LROrderedLinkedList) (key : T) : bool :=
  lls_contains key (set_of (foreground o) o).

(** *** Linearization *)

(** The plain set, as its membership function, and the three calls on it. *)
Definition plain_answer (c : @call T) (S : T → bool) : bool :=
  match c with
  | Add key => negb (S key)
  | Remove key | Contains key => S key
  end.

Definition plain_after (c : @call T) (S : T → bool) : T → bool :=
  match c with
  | Add key => λ k, bool_decide (k = key) || S k
  | Remove key => λ k, negb (bool_decide (k = key)) && S k
  | Contains _ => S
  end.

(** Calls in the order in which they take effect, each with the thread that
    made it and its answer. *)
Definition linearization : Type := list (nat * @call T * bool).

(** The plain set after the calls of a linearization. *)
Fixpoint replay (hist : linearization) (S : T → bool) : T → bool :=
  match hist with
  | [] => S
  | (_, c, _) :: hist' => replay hist' (plain_after c S)
  end.

(** Every answer of the linearization is the plain set's. *)
Fixpoint legal (hist : linearization) (S : T → bool) : bool :=
  match hist with
  | [] => true
  | (_, c, r) :: hist' => Bool.eqb r (plain_answer c S) && legal hist' (plain_after c S)
  end.

(** The call of thread [i] that took effect last, with its answer. *)
Fixpoint last_of (i : nat) (hist : linearization) : option (@call T * bool) :=
  match hist with
  | [] => None
  | (j, c, r) :: hist' =>
      match last_of i hist' with
      | Some e => Some e
      | None => if bool_decide (j = i) then Some (c, r) else None
      end
  end.

(** The step at which a call takes effect, and the answer it is then bound
    to give: [contains] at its load of the selector, a refused [add] or
    [remove] at its call on the first mirror, a successful one at its store
    to the selector. *)
Definition lin_point (p : pc) (o : LROrderedLinkedList) : option (@call T * bool) :=
  match p with
  | C_load_lr key _ _ => Some (Contains key, visible o key)
  | W_first w key leftRight =>
      if (op_fun w key (set_of (bg_of leftRight) o)).1 then None
      else Some (call_of w key, false)
  | W_store_lr w key _ => Some (call_of w key, true)
  | _ => None
  end.

(** What an observer of a run writes down: the linearization so far, the
    call each thread is in, and the call of each thread that has taken
    effect and not yet returned, with its answer. *)
Record ghost : Type := {
  history : linearization;
  active : list (option (@call T));
  promise : list (option (@call T * bool));
}.

Definition ghost_step (s : system) (l : label) (g : ghost) : ghost :=
  match l with
  | Call i c =>
      {| history := history g; active := <[i := Some c]> (active g);
         promise := promise g |}
  | Return i _ =>
      {| history := history g; active := <[i := None]> (active g);
         promise := <[i := None]> (promise g) |}
  | Internal i =>
      match threads s !! i with
      | Some (_, p) =>
          match lin_point p (object s) with
          | Some (c, r) =>
              {| history := history g ++ [(i, c, r)]; active := active g;
                 promise := <[i := Some (c, r)]> (promise g) |}
          | None => g
          end
      | None => g
      end
  end.

(** The runs from [s0], with what the observer has written down. *)
Inductive traced (s0 : system) : system → ghost → Prop :=
| traced_start :
    traced s0 s0
      {| history := [];
         active := replicate (length (threads s0)) None;
         promise := replicate (length (threads s0)) None |}
| traced_step s g l s' :
    traced s0 s g → step s l s' → traced s0 s' (ghost_step s l g).

(** The label of the step [step_thread] takes. *)
Definition step_label (i : nat) (c : option (@call T)) (s : system) : option label :=
  match threads s !! i with
  | Some (h, p) =>
      match c, p with
      | Some c, Idle =>
          match enter h c (object s) with
          | Step _ _ _ => Some (Call i c)
          | _ => None
          end
      | Some _, _ => None
      | None, _ =>
          match run_pc p (object s) with
          | Step _ _ (Some retValue) => Some (Return i retValue)
          | Step _ _ None => Some (Internal i)
          | _ => None
          end
      end
  | None => None
  end.

(** The steps of a schedule, with what the observer writes down. *)
Fixpoint traced_schedule (l : list (nat * option (@call T))) (s : system) (g : ghost)
    : option (system * ghost) :=
  match l with
  | [] => Some (s, g)
  | (i, c) :: l' =>
      match step_label i c s, step_thread i c s with
      | Some lbl, Some s' => traced_schedule l' s' (ghost_step s lbl g)
      | _, _ => None
      end
  end.

(** What the observer has written down about a thread at [p]: the call it
    is in and, from the step at which the call takes effect to its return,
    the answer. *)
Definition ghost_ok (o : LROrderedLinkedList) (p : pc)
    (a : option (@call T)) (pr : option (@call T * bool)) : Prop :=
  match p with
  | Idle => a = None ∧ pr = None
  | C_arrive_load key _ | C_arrive_add key _ _ | C_load_lr key _ _ =>
      a = Some (Contains key) ∧ pr = None
  | C_inside key _ _ m =>
      a = Some (Contains key)
      ∧ pr = Some (Contains key, lls_contains key (set_of m o))
  | C_depart key _ _ retValue =>
      a = Some (Contains key) ∧ pr = Some (Contains key, retValue)
  | W_lock w key | W_load_lr w key | W_first w key _ | W_store_lr w key _ =>
      a = Some (call_of w key) ∧ pr = None
  | W_toggle_load w key _ | W_scan w key _ _ _ _ _ | W_yield w key _ _ _ _
  | W_store_version w key _ _ _ | W_second w key _ =>
      a = Some (call_of w key) ∧ pr = Some (call_of w key, true)
  | W_unlock retValue => ∃ c, a = Some c ∧ pr = Some (c, retValue)
  end.

Record ghost_invariant (s : system) (g : ghost) : Prop := {
  gi_legal : legal (history g) (λ _, false) = true;
  gi_replay k : visible (object s) k = replay (history g) (λ _, false) k;
  gi_active : length (active g) = length (threads s);
  gi_promise : length (promise g) = length (threads s);
  gi_thread i h p :
    threads s !! i = Some (h, p) →
    ∃ a pr,
      active g !! i = Some a ∧ promise g !! i = Some pr
      ∧ ghost_ok (object s) p a pr
      ∧ ∀ c r, pr = Some (c, r) → last_of i (history g) = Some (c, r);
}.

(** *** The invariant of the Left-Right protocol *)

(** The number of threads whose program point satisfies [f]. *)
Fixpoint tally (f : pc → bool) (ths : list (Z * pc)) : nat :=
  match ths with
  | [] => 0
  | (_, p) :: ths' => (if f p then 1 else 0) + tally f ths'
  end.

Definition present_at (a : readers) (tid : Z) (p : pc) : bool :=
  match present p with
  | Some (a', tid') => bool_decide (a' = a) && (tid' =? tid)
  | None => false
  end.

(** While the writer is at [p], a reader that counts in cell [tid] of array
    [a] may still be inside the mirror readers are no longer sent to: the
    writer has not yet read a zero from that cell since it moved the
    selector. *)
Definition unscanned (p : pc) (a : readers) (tid : Z) : bool :=
  match p with
  | W_toggle_load _ _ _ => true
  | W_scan _ _ _ _ next WaitNext t =>
      if bool_decide (a = readers_at next) then t <=? tid else true
  | W_yield _ _ _ _ _ WaitNext => true
  | W_store_version _ _ _ _ next => negb (bool_decide (a = readers_at next))
  | W_scan _ _ _ _ next WaitPrev t =>
      negb (bool_decide (a = readers_at next)) && (t <=? tid)
  | W_yield _ _ _ _ next WaitPrev => negb (bool_decide (a = readers_at next))
  | _ => false
  end.

(** The parts of the object no step changes. *)
Record static_ok (o : LROrderedLinkedList) : Prop := {
  st_ratio : 0 < LROLLS_COUNTERS_RATIO;
  st_numCores : 0 < _numCores o;
  st_readersLength : _readersLength o = _numCores o * LROLLS_COUNTERS_RATIO;
  st_fits : _readersLength o ≤ INT_MAX;
  st_length a : Z.of_nat (length (readers_of a o)) = _readersLength o;
}.

Definition slot_index (o : LROrderedLinkedList) (tid : Z) : Prop :=
  ∃ i : nat, (i < Z.to_nat (_numCores o))%nat ∧ tid = Z.of_nat i * LROLLS_COUNTERS_RATIO.

Definition scan_index (o : LROrderedLinkedList) (tid : Z) : Prop :=
  ∃ i : nat, (i ≤ Z.to_nat (_numCores o))%nat ∧ tid = Z.of_nat i * LROLLS_COUNTERS_RATIO.

(** The locals of a thread are what the code computed them to be. *)
Definition valid_pc (o : LROrderedLinkedList) (p : pc) : Prop :=
  match p with
  | C_arrive_load _ tid | C_arrive_add _ tid _ | C_load_lr _ tid _
  | C_inside _ tid _ _ | C_depart _ tid _ _ => slot_index o tid
  | W_scan _ _ _ prev next _ tid =>
      scan_index o tid ∧ readers_at prev ≠ readers_at next ∧ (next = 0 ∨ next = 1)
  | W_yield _ _ _ prev next _ | W_store_version _ _ _ prev next =>
      readers_at prev ≠ readers_at next ∧ (next = 0 ∨ next = 1)
  | _ => True
  end.

(** The selector against the value the writer read from it: unchanged up to
    the writer's store, the other value from then on. *)
Definition selector_ok (o : LROrderedLinkedList) (p : pc) : Prop :=
  match p with
  | W_first _ _ lr | W_store_lr _ _ lr => fg_of lr = foreground o
  | W_toggle_load _ _ lr | W_scan _ _ lr _ _ _ _ | W_yield _ _ lr _ _ _
  | W_store_version _ _ lr _ _ | W_second _ _ lr => bg_of lr = foreground o
  | _ => True
  end.

(** Between the two mutations of a writer, the mirror it has mutated differs
    by exactly its key from the one it has not, on which the call will
    succeed as well. *)
Definition content_ok (o : LROrderedLinkedList) (p : pc) : Prop :=
  match between p with
  | Some (w, key, lr) =>
      lls_contains key (set_of (fg_of lr) o)
      = match w with OpAdd => false | OpRemove => true end
      ∧ ∀ k, lls_contains k (set_of (bg_of lr) o)
             = xorb (bool_decide (k = key)) (lls_contains k (set_of (fg_of lr) o))
  | None => True
  end.

Record invariant (s : system) : Prop := {
  inv_static : static_ok (object s);
  inv_epoch : epoch_ok (object s) = true;
  inv_pool : Z.of_nat (length (threads s)) ≤ INT_MAX;
  inv_count a (i : nat) :
    (i < Z.to_nat (_numCores (object s)))%nat →
    slot LROLLS_COUNTERS_RATIO (readers_of a (object s)) i
    = Some (Some (Z.of_nat
        (tally (present_at a (Z.of_nat i * LROLLS_COUNTERS_RATIO)) (threads s))));
  inv_valid i h p :
    threads s !! i = Some (h, p) → valid_pc (object s) p;
  inv_free i h p :
    _writersMutex (object s) = false →
    threads s !! i = Some (h, p) → writing p = false;
  inv_unique i j hi pi hj pj :
    threads s !! i = Some (hi, pi) → threads s !! j = Some (hj, pj) →
    writing pi = true → writing pj = true → i = j;
  inv_selector i h p :
    threads s !! i = Some (h, p) → selector_ok (object s) p;
  inv_stale j h key tid v m :
    threads s !! j = Some (h, C_inside key tid v m) →
    m = foreground (object s)
    ∨ ∃ i hw pw, threads s !! i = Some (hw, pw)
                 ∧ unscanned pw (readers_at v) tid = true;
  inv_agree :
    (∀ i h p, threads s !! i = Some (h, p) → between p = None) →
    mirrors_agree (object s);
  inv_content i h p :
    threads s !! i = Some (h, p) → content_ok (object s) p;
}.

(** *** The rules are the steps *)

Lemma thread_2_tid_inv h o tid o' t :
  thread_2_tid LROLLS_COUNTERS_RATIO h o = Ok (tid, o', t) → o' = o ∧ t = [].
Proof.
  unfold thread_2_tid, bind, member, throw, ret.
  destruct (to_size_t (_numCores o) =? 0); [done|]. by intros [= <- <- <-].
Qed.

Lemma set_op_Ok w m key o :
  set_op w m key o =
  Ok ((op_fun w key (set_of m o)).1, with_set m (op_fun w key (set_of m o)).2 o,
      [((match w with OpAdd => EvAdd | OpRemove => EvRemove end) m key
          (op_fun w key (set_of m o)).1,
        with_set m (op_fun w key (set_of m o)).2 o)]).
Proof.
  destruct w; simpl; unfold set_add, set_remove, atomic.
  - by destruct (lls_add key (set_of m o)).
  - by destruct (lls_remove key (set_of m o)).
Qed.

Lemma enter_trans h c o o' p r :
  enter h c o = Step o' p r → trans o Idle o' p ∧ r = None.
Proof.
  destruct c as [key|key|key]; simpl.
  - intros [= <- <- <-]. split; [constructor|done].
  - intros [= <- <- <-]. split; [constructor|done].
  - unfold atomically.
    destruct (thread_2_tid _ h o) as [[[tid o1] t1]|[]] eqn:Htid; try done.
    intros [= <- <- <-]. apply thread_2_tid_inv in Htid as Hinv.
    destruct Hinv as [-> ->]. split; [by econstructor|done].
Qed.

Lemma run_pc_trans p o o' p' r :
  run_pc p o = Step o' p' r → trans o p o' p'.
Proof.
  destruct p; simpl; unfold atomically; try done.
  - intros [= <- <- <-]. constructor.
  - unfold readers_at. destruct (localVersionIndex =? 0) eqn:Hv;
      unfold fetch_add_readers, atomic, counters_fetch_add;
      destruct (counters_load _ tid) as [c|[]] eqn:Hc; try done;
      intros [= <- <- <-];
      pose proof (t_arrive_add o key tid localVersionIndex c) as Ht;
      unfold readers_at in Ht; rewrite Hv in Ht; by apply Ht.
  - intros [= <- <- <-]. apply t_load_lr.
  - intros [= <- <- <-]. apply t_read.
  - unfold readIndicatorDepart, bind, readers_at.
    destruct (localVersionIndex =? 0) eqn:Hv;
      unfold fetch_add_readers, atomic, counters_fetch_add;
      destruct (counters_load _ tid) as [c|[]] eqn:Hc; try done;
      intros [= <- <- <-];
      pose proof (t_depart o key tid localVersionIndex retValue c) as Ht;
      unfold readers_at in Ht; rewrite Hv in Ht; by apply Ht.
  - unfold lock, atomic. destruct (_writersMutex o) eqn:Hm; [done|].
    intros [= <- <- <-]. by constructor.
  - intros [= <- <- <-]. constructor.
  - assert ((if leftRight =? READS_ON_LEFT then set_op w Set2 key
             else set_op w Set1 key) = set_op w (bg_of leftRight) key) as ->
      by (unfold bg_of; by destruct (leftRight =? READS_ON_LEFT)).
    rewrite set_op_Ok. destruct (op_fun w key _).1 eqn:Hr;
      intros [= <- <- <-]; by constructor.
  - destruct (leftRight =? READS_ON_LEFT) eqn:Hlr; intros [= <- <- <-];
      pose proof (t_flip o w key leftRight) as Ht; by rewrite Hlr in Ht.
  - unfold bind, load_versionIndex, atomic, int_add.
    destruct (is_int (_versionIndex o + 1)) eqn:Hi; [|done].
    intros [= <- <- <-]. by constructor.
  - destruct (Z.ltb_spec tid (_readersLength o)) as [Hlt|Hge].
    + unfold load_readers, atomic.
      destruct (counters_load _ tid) as [c|[]] eqn:Hc; try done.
      destruct (Z.eqb_spec c 0) as [->|Hne]; intros [= <- <- <-].
      * apply t_scan_zero; [done|]. by destruct ph.
      * eapply t_scan_busy; [done| |done]. by destruct ph.
    + intros [= <- <- <-]. by apply t_scan_end.
  - intros [= <- <- <-]. constructor.
  - intros [= <- <- <-]. constructor.
  - assert ((if leftRight =? READS_ON_LEFT then set_op w Set1 key
             else set_op w Set2 key) = set_op w (fg_of leftRight) key) as ->
      by (unfold fg_of; by destruct (leftRight =? READS_ON_LEFT)).
    rewrite set_op_Ok. intros [= <- <- <-]. constructor.
  - intros [= <- <- <-]. constructor.
Qed.

Lemma step_trans s l s' :
  step s l s' →
  ∃ i h p p',
    threads s !! i = Some (h, p)
    ∧ trans (object s) p (object s') p'
    ∧ threads s' = <[i := (h, p')]> (threads s).
Proof.
  intros [i h c o ths o' p Hi He|i h p o ths o' p' r Hi Hr]; simpl.
  - apply enter_trans in He as [Ht _]. by exists i, h, Idle, p.
  - apply run_pc_trans in Hr. by exists i, h, p, p'.
Qed.

(** *** Counting threads *)

Lemma tally_le_length f ths : (tally f ths ≤ length ths)%nat.
Proof.
  induction ths as [|[h p] ths IH]; simpl; [lia|]. destruct (f p); lia.
Qed.

Lemma tally_insert f ths i h p p' :
  ths !! i = Some (h, p) →
  (tally f (<[i := (h, p')]> ths) + (if f p then 1 else 0)
   = tally f ths + (if f p' then 1 else 0))%nat.
Proof.
  revert i. induction ths as [|[h0 p0] ths IH]; intros [|i] Hi; simpl in *; try done.
  - injection Hi as -> ->. lia.
  - specialize (IH i Hi). lia.
Qed.

Lemma tally_insert_same f ths i h p p' :
  ths !! i = Some (h, p) → f p' = f p →
  tally f (<[i := (h, p')]> ths) = tally f ths.
Proof.
  intros Hi Hf. pose proof (tally_insert f ths i h p p' Hi) as Ht.
  rewrite Hf in Ht. lia.
Qed.

Lemma tally_lookup f ths j h p :
  ths !! j = Some (h, p) → f p = true → (0 < tally f ths)%nat.
Proof.
  revert j. induction ths as [|[h0 p0] ths IH]; intros [|j] Hj Hf; simpl in *; try done.
  - injection Hj as -> ->. rewrite Hf. lia.
  - specialize (IH j Hj Hf). lia.
Qed.

Lemma tally_idle f (hashes : list Z) :
  f Idle = false → tally f ((λ h, (h, Idle)) <$> hashes) = 0%nat.
Proof. intros Hf. induction hashes as [|h hs IH]; simpl; [done|]. by rewrite Hf. Qed.

(** *** What a step leaves alone *)

Lemma trans_static o p o' p' :
  trans o p o' p' →
  _numCores o' = _numCores o ∧ _readersLength o' = _readersLength o
  ∧ ∀ a, length (readers_of a o') = length (readers_of a o).
Proof.
  intros Ht. inversion Ht; subst; try done.
  - unfold fetch_added. split; [by destruct (readers_at v)|].
    split; [by destruct (readers_at v)|].
    intros a. destruct (readers_at v), a; simpl; by rewrite ?length_insert.
  - unfold fetch_added. split; [by destruct (readers_at v)|].
    split; [by destruct (readers_at v)|].
    intros a. destruct (readers_at v), a; simpl; by rewrite ?length_insert.
  - by destruct (bg_of lr).
  - by destruct (bg_of lr).
  - by destruct (fg_of lr).
Qed.

Lemma static_ok_trans o p o' p' : trans o p o' p' → static_ok o → static_ok o'.
Proof.
  intros (Hn & Hl & Hlen)%trans_static [HR Hnc Hrl Hf Hlens].
  split; rewrite ?Hn, ?Hl; try done. intros a. by rewrite Hlen.
Qed.

Lemma valid_pc_static o o' p :
  _numCores o' = _numCores o → valid_pc o p → valid_pc o' p.
Proof.
  intros Hn. unfold valid_pc, slot_index, scan_index. by rewrite Hn.
Qed.

Lemma thread_2_tid_slot_index h o tid :
  static_ok o →
  thread_2_tid LROLLS_COUNTERS_RATIO h o = Ok (tid, o, []) → slot_index o tid.
Proof.
  intros [HR Hn Hl Hf _]. unfold thread_2_tid, bind, member, ret, throw.
  set (x := Z.lxor _ _).
  assert (Hnc : to_size_t (_numCores o) = _numCores o).
  { unfold to_size_t. apply Z.mod_small. unfold INT_MAX in Hf. nia. }
  rewrite Hnc. destruct (Z.eqb_spec (_numCores o) 0); [lia|].
  pose proof (Z.mod_pos_bound x (_numCores o) Hn) as Hm.
  rewrite to_int_id by (unfold INT_MIN, INT_MAX in *; nia).
  intros [= <-]. exists (Z.to_nat (x mod _numCores o)). split; [lia|].
  by rewrite Z2Nat.id by lia.
Qed.

Lemma readers_at_parity v :
  readers_at (Z.rem v 2) ≠ readers_at (Z.rem (v + 1) 2).
Proof.
  unfold readers_at.
  pose proof (Z.rem_mod_eq_0 v 2 ltac:(lia)) as H1.
  pose proof (Z.rem_mod_eq_0 (v + 1) 2 ltac:(lia)) as H2.
  destruct (Z.eqb_spec (Z.rem v 2) 0) as [Hv|Hv],
           (Z.eqb_spec (Z.rem (v + 1) 2) 0) as [Hv1|Hv1]; try done.
  - apply H1 in Hv. apply H2 in Hv1.
    rewrite Zplus_mod, Hv in Hv1. by compute in Hv1.
  - assert (v mod 2 ≠ 0) as Hm by (intros ?; by apply Hv, H1).
    assert ((v + 1) mod 2 ≠ 0) as Hm1 by (intros ?; by apply Hv1, H2).
    pose proof (Z.mod_pos_bound v 2 ltac:(lia)).
    assert (v mod 2 = 1) as Hv2 by lia.
    rewrite Zplus_mod, Hv2 in Hm1. by compute in Hm1.
Qed.

Lemma writing_between p : between p ≠ None → writing p = true.
Proof. by destruct p. Qed.

Lemma writing_selector o p : writing p = false → selector_ok o p.
Proof. by destruct p. Qed.

Lemma writing_unscanned p a tid : unscanned p a tid = true → writing p = true.
Proof. by destruct p. Qed.

Lemma writing_content o p : writing p = false → content_ok o p.
Proof. by destruct p. Qed.

(** *** The invariant is kept by every step

    In the lemmas below thread [i] moves from [p] to [p'] and the object
    from [o] to [o']. *)

Lemma writing_mutex s i h p :
  invariant s → threads s !! i = Some (h, p) → writing p = true →
  _writersMutex (object s) = true.
Proof.
  intros Hinv Hi Hw. destruct (_writersMutex (object s)) eqn:Hm; [done|].
  by rewrite (inv_free s Hinv i h p Hm Hi) in Hw.
Qed.

Lemma keep_valid o ths i h p o' p' :
  invariant {| object := o; threads := ths |} →
  ths !! i = Some (h, p) → trans o p o' p' →
  ∀ j hj pj, <[i := (h, p')]> ths !! j = Some (hj, pj) → valid_pc o' pj.
Proof.
  intros Hinv Hi Ht j hj pj Hj.
  destruct (trans_static _ _ _ _ Ht) as (Hn & Hl & _).
  pose proof (inv_static _ Hinv) as Hst. simpl in Hst.
  pose proof Hst as [HR Hnc Hrl Hf _].
  apply list_lookup_insert_Some in Hj as [(<- & [= <- <-] & _)|[Hne Hj]];
    [|apply (valid_pc_static o); [done|]; by apply (inv_valid _ Hinv j hj)].
  apply (valid_pc_static o); [done|].
  pose proof (inv_valid _ Hinv i h p Hi) as Hv. simpl in Hv.
  inversion Ht; subst; simpl in *; try done.
  - by apply (thread_2_tid_slot_index h0).
  - split; [exists 0%nat; split; lia|]. split; [apply readers_at_parity|].
    pose proof (inv_epoch _ Hinv) as He. unfold epoch_ok in He. simpl in He.
    apply orb_prop in He as [->%Z.eqb_eq| ->%Z.eqb_eq]; [by right|by left].
  - destruct Hv as [(n & Hn' & ->) Hpar]. split; [|done].
    assert (Z.of_nat n < _numCores o') as Hlt
      by (rewrite Hrl in H; by apply Z.mul_lt_mono_pos_r in H).
    assert (0 ≤ Z.of_nat n * LROLLS_COUNTERS_RATIO) by (apply Z.mul_nonneg_nonneg; lia).
    assert (Z.of_nat (S n) * LROLLS_COUNTERS_RATIO ≤ _readersLength o')
      by (rewrite Hrl; apply Z.mul_le_mono_nonneg_r; lia).
    exists (S n). split; [lia|].
    rewrite to_int_id by (unfold INT_MIN, INT_MAX in *; lia). lia.
  - tauto.
  - destruct ph; simpl; tauto.
  - split; [|done]. exists 0%nat. split; lia.
  - split; [|done]. exists 0%nat. split; lia.
Qed.

Lemma keep_free o ths i h p o' p' :
  invariant {| object := o; threads := ths |} →
  ths !! i = Some (h, p) → trans o p o' p' →
  _writersMutex o' = false →
  ∀ j hj pj, <[i := (h, p')]> ths !! j = Some (hj, pj) → writing pj = false.
Proof.
  intros Hinv Hi Ht Hm j hj pj Hj.
  assert (Hwm : writing p = true → _writersMutex o = true)
    by apply (writing_mutex _ i h p Hinv Hi).
  apply list_lookup_insert_Some in Hj as [(<- & [= <- <-] & _)|[Hne Hj]].
  - inversion Ht; subst; simpl in *; try done;
      try (by specialize (Hwm eq_refl); congruence);
      try (destruct (readers_at v); simpl in *; congruence).
    all: specialize (Hwm eq_refl);
      destruct (bg_of lr), (fg_of lr); simpl in *; congruence.
  - destruct (writing pj) eqn:Hwj; [|done].
    pose proof (writing_mutex _ j hj pj Hinv Hj Hwj) as Hmo. simpl in Hmo.
    inversion Ht; subst; simpl in *; try congruence;
      try (destruct (readers_at v); simpl in *; congruence);
      try (destruct (bg_of lr); simpl in *; congruence);
      try (destruct (fg_of lr); simpl in *; congruence).
    by pose proof (inv_unique _ Hinv i j h _ hj pj Hi Hj eq_refl Hwj).
Qed.

Lemma keep_unique o ths i h p o' p' :
  invariant {| object := o; threads := ths |} →
  ths !! i = Some (h, p) → trans o p o' p' →
  ∀ j k hj pj hk pk,
    <[i := (h, p')]> ths !! j = Some (hj, pj) →
    <[i := (h, p')]> ths !! k = Some (hk, pk) →
    writing pj = true → writing pk = true → j = k.
Proof.
  intros Hinv Hi Ht.
  assert (Hone : ∀ k hk pk, ths !! k = Some (hk, pk) → writing p' = true →
                            writing pk = true → i = k).
  { intros k hk pk Hk Hw' Hwk.
    destruct (writing p) eqn:Hw.
    - by apply (inv_unique _ Hinv i k h p hk pk).
    - inversion Ht; subst; simpl in *; try done.
      by rewrite (inv_free _ Hinv k hk pk) in Hwk. }
  intros j k hj pj hk pk Hj Hk Hwj Hwk.
  apply list_lookup_insert_Some in Hj as [(<- & [= <- <-] & _)|[Hnej Hj]];
    apply list_lookup_insert_Some in Hk as [(<- & [= <- <-] & _)|[Hnek Hk]];
    try done.
  - by apply (Hone k hk pk).
  - symmetry. by apply (Hone j hj pj).
  - by apply (inv_unique _ Hinv j k hj pj hk pk).
Qed.

Lemma trans_foreground o p o' p' :
  trans o p o' p' →
  foreground o' = foreground o ∨ ∃ w key lr, p = W_store_lr w key lr.
Proof.
  intros Ht. inversion Ht; subst; try (by left); try (right; by eauto).
  - left. by destruct (readers_at v).
  - left. by destruct (readers_at v).
  - left. by destruct (bg_of lr).
  - left. by destruct (bg_of lr).
  - left. by destruct (fg_of lr).
Qed.

Lemma selector_ok_foreground o o' p :
  foreground o' = foreground o → selector_ok o p → selector_ok o' p.
Proof. intros Hf. unfold selector_ok. by rewrite Hf. Qed.

Lemma keep_selector o ths i h p o' p' :
  invariant {| object := o; threads := ths |} →
  ths !! i = Some (h, p) → trans o p o' p' →
  ∀ j hj pj, <[i := (h, p')]> ths !! j = Some (hj, pj) → selector_ok o' pj.
Proof.
  intros Hinv Hi Ht j hj pj Hj.
  apply list_lookup_insert_Some in Hj as [(<- & [= <- <-] & _)|[Hne Hj]].
  - pose proof (inv_selector _ Hinv i h p Hi) as Hs. simpl in Hs.
    inversion Ht; subst; simpl in *; try done.
    + by destruct (bg_of lr).
    + unfold bg_of, foreground. simpl. by destruct (lr =? READS_ON_LEFT).
    + by destruct ph.
  - pose proof (inv_selector _ Hinv j hj pj Hj) as Hs. simpl in Hs.
    destruct (trans_foreground _ _ _ _ Ht) as [Hf|(w & key & lr & ->)].
    + by apply (selector_ok_foreground o).
    + apply writing_selector. destruct (writing pj) eqn:Hw; [|done].
      by pose proof (inv_unique _ Hinv i j h _ hj pj Hi Hj eq_refl Hw).
Qed.

Lemma slot_index_bounds_conc o tid :
  static_ok o → slot_index o tid → 0 ≤ tid < _readersLength o.
Proof.
  intros [HR Hn Hl Hf _] (n & Hlt & ->). rewrite Hl. split.
  - apply Z.mul_nonneg_nonneg; lia.
  - apply Z.mul_lt_mono_pos_r; lia.
Qed.

(** A cell that reads zero counts no reader: a reader present in array [a]
    at or after the cell the scan is at, is after it. *)
Lemma scan_zero_passes o ths a t j hj pj tid :
  invariant {| object := o; threads := ths |} →
  scan_index o t → t < _readersLength o →
  counters_load (readers_of a o) t = Ok 0 →
  ths !! j = Some (hj, pj) → present pj = Some (a, tid) →
  slot_index o tid → t ≤ tid →
  t + LROLLS_COUNTERS_RATIO ≤ tid.
Proof.
  intros Hinv (n & Hn & ->) Hlt Hload Hj Hp (m & Hm & ->) Hle.
  pose proof (inv_static _ Hinv) as [HR Hnc Hrl Hf _]. simpl in *.
  assert (Z.of_nat n < _numCores o) as Hn'
    by (rewrite Hrl in Hlt; by apply Z.mul_lt_mono_pos_r in Hlt).
  pose proof (inv_count _ Hinv a n ltac:(simpl; lia)) as Hc. simpl in Hc.
  apply counters_load_Ok in Hload as [_ Hload].
  unfold slot in Hc. rewrite Hload in Hc. injection Hc as Hc.
  destruct (decide (m = n)) as [->|Hne].
  - assert (present_at a (Z.of_nat n * LROLLS_COUNTERS_RATIO) pj = true) as Hpa.
    { unfold present_at. rewrite Hp, bool_decide_eq_true_2 by done.
      by rewrite Z.eqb_refl. }
    pose proof (tally_lookup _ _ _ _ _ Hj Hpa). lia.
  - apply Z.mul_le_mono_pos_r in Hle; [|done].
    replace (Z.of_nat n * LROLLS_COUNTERS_RATIO + LROLLS_COUNTERS_RATIO)
      with ((Z.of_nat n + 1) * LROLLS_COUNTERS_RATIO) by lia.
    apply Z.mul_le_mono_nonneg_r; lia.
Qed.

Lemma readers_two a b c : a ≠ c → b ≠ c → a = b :> readers.
Proof. by destruct a, b, c. Qed.

Lemma keep_stale o ths i h p o' p' :
  invariant {| object := o; threads := ths |} →
  ths !! i = Some (h, p) → trans o p o' p' →
  ∀ j hj key tid v m,
    <[i := (h, p')]> ths !! j = Some (hj, C_inside key tid v m) →
    m = foreground o'
    ∨ ∃ k hw pw, <[i := (h, p')]> ths !! k = Some (hw, pw)
                 ∧ unscanned pw (readers_at v) tid = true.
Proof.
  intros Hinv Hi Ht j hj key tid v m Hj.
  pose proof (lookup_lt_Some _ _ _ Hi) as Hlen.
  pose proof (inv_static _ Hinv) as Hst. simpl in Hst.
  apply list_lookup_insert_Some in Hj as [(<- & [= <- ->] & _)|[Hne Hj]].
  { left. inversion Ht; subst; try done.
    match goal with H : match ?ph with _ => _ end = _ |- _ => by destruct ph end. }
  pose proof (inv_valid _ Hinv j hj _ Hj) as Htid. simpl in Htid.
  pose proof (slot_index_bounds_conc _ _ Hst Htid) as [Htid0 Htidlt].
  destruct (inv_stale _ Hinv j hj key tid v m Hj) as [->|(k & hw & pw & Hk & Hu)];
    simpl in *.
  - destruct (trans_foreground _ _ _ _ Ht) as [Hf|(w & key' & lr & ->)];
      [left; by rewrite Hf|].
    right. inversion Ht; subst. exists i, h, (W_toggle_load w key' lr).
    by rewrite list_lookup_insert_eq.
  - right. destruct (decide (k = i)) as [->|Hki];
      [|exists k, hw, pw; by rewrite list_lookup_insert_ne].
    rewrite Hi in Hk. injection Hk as <- <-.
    pose proof (inv_valid _ Hinv i h p Hi) as Hvp. simpl in Hvp.
    exists i, h, p'. rewrite list_lookup_insert_eq by done. split; [done|].
    inversion Ht; subst; simpl in *; try done.
    + (* the scan starts *)
      case_bool_decide; [by apply Z.leb_le|done].
    + (* a cell reads zero *)
      destruct Hvp as (Hsc & Hpar & _).
      assert (Hstep : tid0 ≤ tid →
                readers_at v = readers_at (phase_version ph prev next) →
                to_int (tid0 + LROLLS_COUNTERS_RATIO) ≤ tid).
      { intros Hle Ha.
        pose proof (scan_zero_passes _ ths _ tid0 j hj _ tid Hinv Hsc H H0 Hj
                      ltac:(simpl; by rewrite Ha) Htid Hle) as Hpass.
        rewrite to_int_id; [done|].
        pose proof (st_fits _ Hst). pose proof (st_ratio _ Hst).
        destruct Hsc as (n & _ & ->).
        assert (0 ≤ Z.of_nat n * LROLLS_COUNTERS_RATIO)
          by (apply Z.mul_nonneg_nonneg; lia).
        unfold INT_MIN, INT_MAX in *. lia. }
      destruct ph; simpl in *.
      * case_bool_decide as Ha; [|done]. apply Z.leb_le.
        apply Z.leb_le in Hu. by apply Hstep.
      * apply andb_prop in Hu as [Ha Hle]. rewrite Ha. simpl.
        apply Z.leb_le. apply Z.leb_le in Hle. apply Hstep; [done|].
        apply negb_true_iff, bool_decide_eq_false in Ha.
        by apply (readers_two _ _ (readers_at next)).
    + (* a cell reads non-zero *)
      destruct ph; simpl in *; [done|]. by apply andb_prop in Hu as [Ha _].
    + (* the scan ends *)
      destruct ph; simpl in *.
      * case_bool_decide; [|done]. apply Z.leb_le in Hu. lia.
      * apply andb_prop in Hu as [_ Hle%Z.leb_le]. lia.
    + (* yield *)
      destruct ph; simpl in *.
      * case_bool_decide; [by apply Z.leb_le|done].
      * rewrite Hu. by apply Z.leb_le.
    + (* the version is stored *)
      rewrite Hu. by apply Z.leb_le.
Qed.

Lemma count_same o ths i h p o' p' :
  invariant {| object := o; threads := ths |} →
  ths !! i = Some (h, p) →
  (∀ a, readers_of a o' = readers_of a o) → _numCores o' = _numCores o →
  present p' = present p →
  ∀ a (n : nat), (n < Z.to_nat (_numCores o'))%nat →
    slot LROLLS_COUNTERS_RATIO (readers_of a o') n
    = Some (Some (Z.of_nat
        (tally (present_at a (Z.of_nat n * LROLLS_COUNTERS_RATIO))
               (<[i := (h, p')]> ths)))).
Proof.
  intros Hinv Hi Hr Hn Hp a n Hlt. rewrite Hr, Hn in *.
  rewrite (tally_insert_same _ _ _ _ p) by (done || (unfold present_at; by rewrite Hp)).
  by apply (inv_count _ Hinv).
Qed.

(** The counter cell a reader increments or decrements follows the number of
    readers present in it. *)
Lemma count_moved o ths i h p p' a0 (m : nat) c delta :
  invariant {| object := o; threads := ths |} →
  ths !! i = Some (h, p) →
  (m < Z.to_nat (_numCores o))%nat →
  counters_load (readers_of a0 o) (Z.of_nat m * LROLLS_COUNTERS_RATIO) = Ok c →
  (present p = None
   ∧ present p' = Some (a0, Z.of_nat m * LROLLS_COUNTERS_RATIO) ∧ delta = 1
   ∨ present p = Some (a0, Z.of_nat m * LROLLS_COUNTERS_RATIO)
     ∧ present p' = None ∧ delta = -1) →
  ∀ a (n : nat),
    (n < Z.to_nat (_numCores o))%nat →
    slot LROLLS_COUNTERS_RATIO
      (readers_of a
         (fetch_added a0 (Z.of_nat m * LROLLS_COUNTERS_RATIO) c delta o)) n
    = Some (Some (Z.of_nat
        (tally (present_at a (Z.of_nat n * LROLLS_COUNTERS_RATIO))
               (<[i := (h, p')]> ths)))).
Proof.
  intros Hinv Hi Hm Hload Hcase a n Hn.
  pose proof (inv_static _ Hinv) as [HR Hnc Hrl Hf _]. simpl in *.
  pose proof (inv_pool _ Hinv) as Hpool. simpl in Hpool.
  pose proof (inv_count _ Hinv a n Hn) as Hcn. simpl in Hcn.
  pose proof (inv_count _ Hinv a0 m Hm) as Hcm. simpl in Hcm.
  assert (0 ≤ Z.of_nat m * LROLLS_COUNTERS_RATIO) as Hm0
    by (apply Z.mul_nonneg_nonneg; lia).
  assert (0 ≤ Z.of_nat n * LROLLS_COUNTERS_RATIO) as Hn0
    by (apply Z.mul_nonneg_nonneg; lia).
  destruct (decide ((a, n) = (a0, m))) as [[= -> ->]|Hne].
  - (* the cell that moves *)
    pose proof (counters_load_fetch_added _ _ _ delta _ Hload) as Hnew.
    apply counters_load_Ok in Hnew as [_ Hnew].
    apply counters_load_Ok in Hload as [_ Hload].
    unfold slot in *. rewrite Hnew. rewrite Hload in Hcm. injection Hcm as ->.
    do 2 f_equal.
    pose proof (tally_insert (present_at a0 (Z.of_nat m * LROLLS_COUNTERS_RATIO))
                  ths i h p p' Hi) as Ht.
    pose proof (tally_le_length (present_at a0 (Z.of_nat m * LROLLS_COUNTERS_RATIO))
                  (<[i := (h, p')]> ths)) as Hle.
    rewrite length_insert in Hle.
    assert (∀ q, present q = Some (a0, Z.of_nat m * LROLLS_COUNTERS_RATIO) →
                 present_at a0 (Z.of_nat m * LROLLS_COUNTERS_RATIO) q = true) as Hyes.
    { intros q Hq. unfold present_at.
      by rewrite Hq, bool_decide_eq_true_2, Z.eqb_refl by done. }
    assert (∀ q, present q = None →
                 present_at a0 (Z.of_nat m * LROLLS_COUNTERS_RATIO) q = false) as Hno.
    { intros q Hq. unfold present_at. by rewrite Hq. }
    destruct Hcase as [(Hp & Hp' & ->)|(Hp & Hp' & ->)].
    + rewrite (Hyes p' Hp'), (Hno p Hp) in Ht.
      rewrite to_int_id by (unfold INT_MIN, INT_MAX in *; lia). lia.
    + rewrite (Hyes p Hp), (Hno p' Hp') in Ht.
      rewrite to_int_id by (unfold INT_MIN, INT_MAX in *; lia). lia.
  - (* every other cell *)
    unfold slot in *. rewrite fetch_added_other.
    + rewrite Hcn. do 3 f_equal. symmetry. apply (tally_insert_same _ _ _ _ p); [done|].
      assert (∀ q, present q = Some (a0, Z.of_nat m * LROLLS_COUNTERS_RATIO) →
                   present_at a (Z.of_nat n * LROLLS_COUNTERS_RATIO) q = false) as Hoff.
      { intros q Hq. unfold present_at. rewrite Hq.
        case_bool_decide as Ha; [|done]. subst a0. simpl.
        apply Z.eqb_neq. intros Heq. apply Z.mul_cancel_r in Heq; [|lia].
        apply Hne. f_equal. lia. }
      assert (∀ q, present q = None →
                   present_at a (Z.of_nat n * LROLLS_COUNTERS_RATIO) q = false) as Hnone.
      { intros q Hq. unfold present_at. by rewrite Hq. }
      destruct Hcase as [(Hp & Hp' & _)|(Hp & Hp' & _)].
      * by rewrite (Hoff p'), (Hnone p).
      * by rewrite (Hoff p), (Hnone p').
    + intros [= -> Heq]. apply Hne. f_equal.
      apply Z2Nat.inj in Heq; [|done..]. apply Z.mul_cancel_r in Heq; lia.
Qed.

Lemma keep_count o ths i h p o' p' :
  invariant {| object := o; threads := ths |} →
  ths !! i = Some (h, p) → trans o p o' p' →
  ∀ a (n : nat), (n < Z.to_nat (_numCores o'))%nat →
    slot LROLLS_COUNTERS_RATIO (readers_of a o') n
    = Some (Some (Z.of_nat
        (tally (present_at a (Z.of_nat n * LROLLS_COUNTERS_RATIO))
               (<[i := (h, p')]> ths)))).
Proof.
  intros Hinv Hi Ht.
  pose proof (inv_valid _ Hinv i h p Hi) as Hv. simpl in Hv.
  inversion Ht; subst;
    try (eapply count_same;
         [exact Hinv|exact Hi|intros []; reflexivity|reflexivity|reflexivity]).
  - destruct Hv as (m & Hm & ->). intros a n Hn.
    replace (_numCores (fetch_added _ _ _ _ o)) with (_numCores o) in Hn
      by (unfold fetch_added; by destruct (readers_at v)).
    eapply (count_moved o ths i h _ _ (readers_at v) m c 1); try done.
    left. by repeat split.
  - destruct Hv as (m & Hm & ->). intros a n Hn.
    replace (_numCores (fetch_added _ _ _ _ o)) with (_numCores o) in Hn
      by (unfold fetch_added; by destruct (readers_at v)).
    eapply (count_moved o ths i h _ _ (readers_at v) m c (-1)); try done.
    right. by repeat split.
  - eapply count_same; [exact Hinv|exact Hi| | |reflexivity];
      [intros []|]; by destruct (bg_of lr).
  - eapply count_same; [exact Hinv|exact Hi| | |reflexivity];
      [intros []|]; by destruct (bg_of lr).
  - eapply count_same; [exact Hinv|exact Hi|done|done|by destruct ph].
  - eapply count_same; [exact Hinv|exact Hi| | |reflexivity];
      [intros []|]; by destruct (fg_of lr).
Qed.

(** *** The contents of the mirrors *)

Context `{!LinkedListSetContract T}.

Lemma op_fun_done w key s :
  (op_fun w key s).1 = true →
  lls_contains key s = match w with OpAdd => false | OpRemove => true end.
Proof. destruct w; simpl; [apply lls_add_true|apply lls_remove_true]. Qed.

Lemma op_fun_refused w key s : (op_fun w key s).1 = false → (op_fun w key s).2 = s.
Proof.
  destruct w; simpl; intros Hr.
  - destruct (lls_contains key s) eqn:Hc.
    + by rewrite lls_add_present.
    + by rewrite lls_add_absent in Hr.
  - destruct (lls_contains key s) eqn:Hc.
    + by rewrite lls_remove_present in Hr.
    + by rewrite lls_remove_absent.
Qed.

Lemma op_fun_contains w key s k :
  lls_contains key s = match w with OpAdd => false | OpRemove => true end →
  lls_contains k (op_fun w key s).2 = xorb (bool_decide (k = key)) (lls_contains k s).
Proof.
  destruct w; simpl; intros Hc.
  - rewrite lls_contains_add by done.
    case_bool_decide as Hk; [subst k; by rewrite Hc|done].
  - rewrite lls_contains_remove by done.
    case_bool_decide as Hk; [subst k; by rewrite Hc|done].
Qed.

Lemma fg_bg_of lr : fg_of lr ≠ bg_of lr.
Proof. unfold fg_of, bg_of. by destruct (lr =? READS_ON_LEFT). Qed.

Lemma set_of_with_set m s o : set_of m (with_set m s o) = s.
Proof. by destruct m. Qed.

Lemma set_of_with_set_ne m m' s o : m' ≠ m → set_of m' (with_set m s o) = set_of m' o.
Proof. by destruct m, m'. Qed.

Lemma mirrors_agree_of lr o :
  mirrors_agree o ↔
  ∀ k, lls_contains k (set_of (bg_of lr) o) = lls_contains k (set_of (fg_of lr) o).
Proof.
  unfold mirrors_agree, fg_of, bg_of.
  destruct (lr =? READS_ON_LEFT); simpl; split; intros Ha k; by rewrite Ha.
Qed.

Lemma content_ok_sets o o' p :
  (∀ m, set_of m o' = set_of m o) → content_ok o p → content_ok o' p.
Proof.
  intros Hs. unfold content_ok. destruct (between p) as [[[w key] lr]|]; [|done].
  by rewrite !Hs.
Qed.

Lemma trans_sets o p o' p' :
  trans o p o' p' →
  (∀ m, set_of m o' = set_of m o)
  ∨ (∃ w key lr, p = W_first w key lr) ∨ (∃ w key lr, p = W_second w key lr).
Proof.
  intros Ht. inversion Ht; subst; try (left; intros []; done);
    try (left; intros []; by destruct (readers_at v));
    try (right; left; by eauto); try (right; right; by eauto).
Qed.

Lemma only_writer s i h p :
  invariant s → threads s !! i = Some (h, p) → writing p = true →
  ∀ j hj pj, threads s !! j = Some (hj, pj) → j ≠ i → writing pj = false.
Proof.
  intros Hinv Hi Hw j hj pj Hj Hne. destruct (writing pj) eqn:Hwj; [|done].
  by pose proof (inv_unique _ Hinv j i hj pj h p Hj Hi Hwj Hw).
Qed.

Lemma agree_before_first s i h w key lr :
  invariant s → threads s !! i = Some (h, W_first w key lr) →
  mirrors_agree (object s).
Proof.
  intros Hinv Hi. apply (inv_agree _ Hinv). intros j hj pj Hj.
  destruct (decide (j = i)) as [->|Hne].
  - rewrite Hi in Hj. by injection Hj as <- <-.
  - pose proof (only_writer s i h _ Hinv Hi eq_refl j hj pj Hj Hne) as Hw.
    destruct (between pj) eqn:Hb; [|done].
    by rewrite writing_between in Hw by by rewrite Hb.
Qed.

Lemma keep_content o ths i h p o' p' :
  invariant {| object := o; threads := ths |} →
  ths !! i = Some (h, p) → trans o p o' p' →
  ∀ j hj pj, <[i := (h, p')]> ths !! j = Some (hj, pj) → content_ok o' pj.
Proof.
  intros Hinv Hi Ht j hj pj Hj.
  apply list_lookup_insert_Some in Hj as [(<- & [= <- <-] & _)|[Hne Hj]].
  - pose proof (inv_content _ Hinv i h p Hi) as Hc. simpl in Hc.
    inversion Ht; subst; try done.
    + (* the first mutation is done *)
      pose proof (agree_before_first _ i h w key lr Hinv Hi) as Ha. simpl in Ha.
      pose proof (proj1 (mirrors_agree_of lr o) Ha) as Hbf.
      pose proof (op_fun_done _ _ _ H) as Hpre.
      unfold content_ok. simpl.
      rewrite set_of_with_set, set_of_with_set_ne by apply fg_bg_of.
      split; [by rewrite <-Hbf|]. intros k.
      by rewrite op_fun_contains, Hbf.
    + by destruct ph.
  - pose proof (inv_content _ Hinv j hj pj Hj) as Hc. simpl in Hc.
    destruct (trans_sets _ _ _ _ Ht) as [Hs|[(w & key & lr & ->)|(w & key & lr & ->)]].
    + by apply (content_ok_sets o).
    + apply writing_content.
      by apply (only_writer _ i h _ Hinv Hi eq_refl j hj pj Hj).
    + apply writing_content.
      by apply (only_writer _ i h _ Hinv Hi eq_refl j hj pj Hj).
Qed.

Lemma keep_agree o ths i h p o' p' :
  invariant {| object := o; threads := ths |} →
  ths !! i = Some (h, p) → trans o p o' p' →
  (∀ j hj pj, <[i := (h, p')]> ths !! j = Some (hj, pj) → between pj = None) →
  mirrors_agree o'.
Proof.
  intros Hinv Hi Ht Hnone.
  pose proof (lookup_lt_Some _ _ _ Hi) as Hlen.
  pose proof (Hnone i h p' ltac:(by rewrite list_lookup_insert_eq)) as Hp'.
  assert (Hold : between p = None → mirrors_agree o).
  { intros Hp. apply (inv_agree _ Hinv). intros j hj pj Hj. simpl in Hj.
    destruct (decide (j = i)) as [->|Hne].
    - rewrite Hi in Hj. by injection Hj as <- <-.
    - apply (Hnone j hj pj). by rewrite list_lookup_insert_ne. }
  pose proof (inv_content _ Hinv i h p Hi) as Hc. simpl in Hc.
  inversion Ht; subst; simpl in *; try done; try (by apply Hold).
  - intros k. specialize (Hold eq_refl k). by destruct (readers_at v).
  - intros k. specialize (Hold eq_refl k). by destruct (readers_at v).
  - rewrite op_fun_refused by done.
    change (set_of (bg_of lr) o) with (set_of (bg_of lr) o).
    rewrite with_set_id. by apply Hold.
  - by destruct ph.
  - destruct Hc as [Hpre Hx]. apply (mirrors_agree_of lr). intros k.
    rewrite set_of_with_set, set_of_with_set_ne by (apply not_eq_sym, fg_bg_of).
    by rewrite op_fun_contains, Hx.
Qed.

Lemma keep_epoch o ths i h p o' p' :
  invariant {| object := o; threads := ths |} →
  ths !! i = Some (h, p) → trans o p o' p' → epoch_ok o' = true.
Proof.
  intros Hinv Hi Ht. pose proof (inv_epoch _ Hinv) as He. simpl in He.
  pose proof (inv_valid _ Hinv i h p Hi) as Hv. simpl in Hv.
  inversion Ht; subst; simpl in *; try done;
    try (by destruct (readers_at v)); try (by destruct (bg_of lr));
    try (by destruct (fg_of lr)).
  unfold epoch_ok. simpl. by destruct Hv as (_ & [-> | ->]).
Qed.

(** *** Every reachable state satisfies the invariant *)

Lemma invariant_step s l s' : invariant s → step s l s' → invariant s'.
Proof.
  intros Hinv Hstep. destruct (step_trans _ _ _ Hstep) as (i & h & p & p' & Hi & Ht & Hths).
  destruct s as [o ths], s' as [o' ths']. simpl in *. subst ths'.
  split; simpl.
  - exact (static_ok_trans _ _ _ _ Ht (inv_static _ Hinv)).
  - by apply (keep_epoch o ths i h p o' p').
  - rewrite length_insert. apply (inv_pool _ Hinv).
  - by apply (keep_count o ths i h p o' p').
  - by apply (keep_valid o ths i h p o' p').
  - intros j hj pj Hm Hj. by apply (keep_free o ths i h p o' p' Hinv Hi Ht Hm j hj).
  - by apply (keep_unique o ths i h p o' p').
  - by apply (keep_selector o ths i h p o' p').
  - by apply (keep_stale o ths i h p o' p').
  - by apply (keep_agree o ths i h p o' p').
  - by apply (keep_content o ths i h p o' p').
Qed.

Lemma invariant_initial fuel hw hashes :
  config_ok LROLLS_NUMBER_OF_CORES LROLLS_COUNTERS_RATIO fuel hw = true →
  Z.of_nat (length hashes) ≤ INT_MAX →
  invariant (initial hw hashes).
Proof.
  intros Hok Hpool.
  pose proof (constructed_quiescent _ _ fuel hw Hok) as Hq.
  apply quiescent_spec in Hq as ((Hwf & Hz)%no_readers_spec & He & Hm).
  pose proof Hwf as [HR Hn Hl Hf Hlen _].
  assert (Hidle : ∀ i h p,
            ((λ h, (h, Idle)) <$> hashes) !! i = Some (h, p) → p = Idle).
  { intros i h p Hi. rewrite list_lookup_fmap in Hi.
    destruct (hashes !! i); simpl in Hi; [|done]. by injection Hi as <- <-. }
  split; simpl; try done.
  - by rewrite length_fmap.
  - intros a i Hi. rewrite tally_idle by done.
    pose proof (proj1 (slots_all_spec _ _ _ _) (Hz a) i Hi) as (c & Hc & Hc0).
    apply Z.eqb_eq in Hc0 as <-. exact Hc.
  - intros i h p Hi. by rewrite (Hidle i h p Hi).
  - intros i h p _ Hi. by rewrite (Hidle i h p Hi).
  - intros i j hi pi hj pj Hi _ Hw. by rewrite (Hidle i hi pi Hi) in Hw.
  - intros i h p Hi. by rewrite (Hidle i h p Hi).
  - intros j h key tid v m Hj. by pose proof (Hidle j h _ Hj).
  - intros i h p Hi. by rewrite (Hidle i h p Hi).
Qed.

Lemma invariant_reachable fuel hw hashes s :
  config_ok LROLLS_NUMBER_OF_CORES LROLLS_COUNTERS_RATIO fuel hw = true →
  Z.of_nat (length hashes) ≤ INT_MAX →
  reachable (initial hw hashes) s → invariant s.
Proof.
  intros Hok Hpool Hr. induction Hr as [|s l s' _ IH Hstep].
  - by apply (invariant_initial fuel).
  - by apply (invariant_step s l s').
Qed.

(** *** No step goes wrong *)

Lemma valid_slot_load s a (n : nat) :
  invariant s → (n < Z.to_nat (_numCores (object s)))%nat →
  ∃ c, counters_load (readers_of a (object s)) (Z.of_nat n * LROLLS_COUNTERS_RATIO) = Ok c.
Proof.
  intros Hinv Hn. pose proof (inv_static _ Hinv) as [HR _ _ _ _].
  eexists. apply counters_load_slot; [apply Z.mul_nonneg_nonneg; lia|].
  by apply (inv_count _ Hinv).
Qed.

Lemma run_pc_no_fault s i h p e :
  invariant s → threads s !! i = Some (h, p) → run_pc p (object s) ≠ Failed e.
Proof.
  intros Hinv Hi. pose proof (inv_valid _ Hinv i h p Hi) as Hv.
  pose proof (inv_static _ Hinv) as Hst. pose proof Hst as [HR Hnc Hrl Hf _].
  destruct p; simpl in *; unfold atomically; try done.
  - destruct Hv as (n & Hn & ->).
    destruct (valid_slot_load s (readers_at localVersionIndex) n Hinv Hn) as [c Hc].
    unfold readers_at in Hc.
    destruct (localVersionIndex =? 0); by rewrite (fetch_add_readers_Ok _ _ _ c).
  - destruct Hv as (n & Hn & ->).
    destruct (valid_slot_load s (readers_at localVersionIndex) n Hinv Hn) as [c Hc].
    by rewrite (readIndicatorDepart_Ok _ _ c).
  - unfold lock, atomic. by destruct (_writersMutex (object s)).
  - destruct (leftRight =? READS_ON_LEFT); by rewrite set_op_Ok.
  - by destruct (leftRight =? READS_ON_LEFT).
  - pose proof (inv_epoch _ Hinv) as He. unfold epoch_ok in He.
    unfold bind, load_versionIndex, atomic, int_add.
    by apply orb_prop in He as [->%Z.eqb_eq| ->%Z.eqb_eq].
  - destruct (Z.ltb_spec tid (_readersLength (object s))) as [Hlt|Hge]; [|done].
    destruct Hv as ((n & Hn & ->) & _).
    assert (Z.of_nat n < _numCores (object s)) as Hn'
      by (rewrite Hrl in Hlt; by apply Z.mul_lt_mono_pos_r in Hlt).
    destruct (valid_slot_load s
                (readers_at (phase_version ph prevVersionIndex nextVersionIndex))
                n Hinv ltac:(lia)) as [c Hc].
    unfold load_readers, atomic.
    replace (if (match ph with WaitNext => nextVersionIndex | WaitPrev => prevVersionIndex end) =? 0
             then Version0 else Version1)
      with (readers_at (phase_version ph prevVersionIndex nextVersionIndex))
      by by destruct ph.
    by rewrite Hc.
  - destruct (leftRight =? READS_ON_LEFT); by rewrite set_op_Ok.
Qed.

Lemma enter_no_fault s h c e : invariant s → enter h c (object s) ≠ Failed e.
Proof.
  intros Hinv. pose proof (inv_static _ Hinv) as [HR Hnc Hrl Hf _].
  destruct c as [key|key|key]; simpl; try done.
  unfold atomically, thread_2_tid, bind, member, ret, throw.
  assert (Hn : to_size_t (_numCores (object s)) = _numCores (object s)).
  { unfold to_size_t. apply Z.mod_small. unfold INT_MAX in Hf. nia. }
  rewrite Hn. by destruct (Z.eqb_spec (_numCores (object s)) 0); [lia|].
Qed.

(** *** Safety of the Left-Right protocol *)

Lemma exclusion s i j hw pw hr pr m m' :
  invariant s →
  threads s !! i = Some (hw, pw) → threads s !! j = Some (hr, pr) →
  mutating pw = Some m → reading pr = Some m' → m ≠ m'.
Proof.
  intros Hinv Hi Hj Hm Hr.
  destruct pr; try done. injection Hr as ->.
  pose proof (inv_selector _ Hinv i hw pw Hi) as Hs.
  assert (Hw : writing pw = true) by by destruct pw.
  assert (Hu : ∀ a t, unscanned pw a t = false) by by destruct pw.
  assert (m ≠ foreground (object s)) as Hne.
  { destruct pw; try done; simpl in *; injection Hm as <-; rewrite <-Hs.
    - apply not_eq_sym, fg_bg_of.
    - apply fg_bg_of. }
  destruct (inv_stale _ Hinv j hr key tid localVersionIndex m' Hj)
    as [->|(k & hk & pk & Hk & Hus)]; [done|].
  pose proof (writing_unscanned _ _ _ Hus) as Hwk.
  pose proof (inv_unique _ Hinv i k hw pw hk pk Hi Hk Hw Hwk) as <-.
  rewrite Hi in Hk. injection Hk as <- <-. by rewrite Hu in Hus.
Qed.

Lemma drained s i h w key lr :
  invariant s → threads s !! i = Some (h, W_second w key lr) →
  bg_of lr = foreground (object s)
  ∧ ∀ j hj key' tid v m,
      threads s !! j = Some (hj, C_inside key' tid v m) → m = foreground (object s).
Proof.
  intros Hinv Hi. split; [apply (inv_selector _ Hinv i h _ Hi)|].
  intros j hj key' tid v m Hj.
  destruct (inv_stale _ Hinv j hj key' tid v m Hj) as [->|(k & hk & pk & Hk & Hus)];
    [done|].
  pose proof (writing_unscanned _ _ _ Hus) as Hwk.
  pose proof (inv_unique _ Hinv i k h _ hk pk Hi Hk eq_refl Hwk) as <-.
  rewrite Hi in Hk. by injection Hk as <- <-.
Qed.

Lemma complete_mirrors s :
  invariant s →
  mirrors_agree (object s)
  ∨ ∃ i h p w key lr,
      threads s !! i = Some (h, p) ∧ between p = Some (w, key, lr)
      ∧ mirrors_differ_by key (object s).
Proof.
  intros Hinv.
  destruct (Exists_dec (λ hp : Z * pc, between hp.2 ≠ None) (threads s)) as [Hex|Hno].
  - right. apply Exists_exists in Hex as ([h p] & Hin & Hb). simpl in Hb.
    apply list_elem_of_lookup in Hin as [i Hi].
    destruct (between p) as [[[w key] lr]|] eqn:Hbp; [|done].
    exists i, h, p, w, key, lr. split; [done|]. split; [done|].
    pose proof (inv_content _ Hinv i h p Hi) as Hc. unfold content_ok in Hc.
    rewrite Hbp in Hc. destruct Hc as [_ Hx]. intros k. specialize (Hx k).
    unfold fg_of, bg_of in Hx. destruct (lr =? READS_ON_LEFT); simpl in Hx;
      rewrite Hx; case_bool_decide;
      match goal with |- context [lls_contains k ?x] => destruct (lls_contains k x) end;
      naive_solver.
  - left. apply (inv_agree _ Hinv). intros i h p Hi.
    destruct (between p) eqn:Hb; [|done]. exfalso. apply Hno.
    apply Exists_exists. exists (h, p). split.
    + apply list_elem_of_lookup. by exists i.
    + simpl. by rewrite Hb.
Qed.

(** A step changes no mirror but the one its thread is mutating. *)
Lemma trans_sets_other o p o' p' m :
  trans o p o' p' → mutating p ≠ Some m → set_of m o' = set_of m o.
Proof.
  intros Ht Hm.
  destruct (trans_sets o p o' p' Ht) as [Hs|[(w & key & lr & ->)|(w & key & lr & ->)]];
    [done| |]; inversion Ht; subst; apply set_of_with_set_ne;
    intros ->; by apply Hm.
Qed.

(** The mirror a reader is inside is left as it is by every step of every
    thread. *)
Lemma reader_mirror_stable s l s' j hj key tid v m :
  invariant s → step s l s' →
  threads s !! j = Some (hj, C_inside key tid v m) →
  set_of m (object s') = set_of m (object s).
Proof.
  intros Hinv Hstep Hj.
  destruct (step_trans s l s' Hstep) as (i & h & p & p' & Hi & Ht & _).
  apply (trans_sets_other _ _ _ _ m Ht). intros Hm.
  by apply (exclusion s i j h p hj (C_inside key tid v m) m m Hinv Hi Hj Hm).
Qed.

(** C2: in every state the threads can reach by interleaving their atomic
    operations from a new object, (1) no writer is inside the mirror a reader
    is inside; (2) when a writer has finished the drain and is inside its
    second mutation, the selector names the other mirror and every reader
    inside a mirror is inside that other one; (3) the call of a reader inside
    a mirror returns the membership of its key in that mirror, while the two
    mirrors hold the same keys or differ by exactly the key of the one writer
    that is between its two mutations: the reader sees the set before or
    after that mutation; (4) no step of any thread faults; (5) no step of any
    thread changes the mirror a reader is inside. *)
Theorem left_right_safety fuel hw hashes s :
  config_ok LROLLS_NUMBER_OF_CORES LROLLS_COUNTERS_RATIO fuel hw = true →
  Z.of_nat (length hashes) ≤ INT_MAX →
  reachable (initial hw hashes) s →
  (∀ i j hw pw hr pr m m',
     threads s !! i = Some (hw, pw) → threads s !! j = Some (hr, pr) →
     mutating pw = Some m → reading pr = Some m' → m ≠ m')
  ∧ (∀ i h w key lr,
       threads s !! i = Some (h, W_second w key lr) →
       mutating (W_second w key lr) ≠ Some (foreground (object s))
       ∧ ∀ j hj key' tid v m,
           threads s !! j = Some (hj, C_inside key' tid v m) →
           m = foreground (object s))
  ∧ (∀ j hj key tid v m,
       threads s !! j = Some (hj, C_inside key tid v m) →
       run_pc (C_inside key tid v m) (object s)
       = Step (object s)
              (C_depart key tid v (lls_contains key (set_of m (object s)))) None
       ∧ (mirrors_agree (object s)
          ∨ ∃ i h p w k lr,
              threads s !! i = Some (h, p) ∧ between p = Some (w, k, lr)
              ∧ (∀ i' h' p', threads s !! i' = Some (h', p') →
                             between p' ≠ None → i' = i)
              ∧ mirrors_differ_by k (object s)))
  ∧ (∀ i h p e c,
       threads s !! i = Some (h, p) →
       run_pc p (object s) ≠ Failed e ∧ enter h c (object s) ≠ Failed e)
  ∧ (∀ l s' j hj key tid v m,
       step s l s' → threads s !! j = Some (hj, C_inside key tid v m) →
       set_of m (object s') = set_of m (object s)).
Proof.
  intros Hok Hpool Hr.
  pose proof (invariant_reachable fuel hw hashes s Hok Hpool Hr) as Hinv.
  split; [|split; [|split; [|split]]].
  - intros i j hw' pw hr pr m m'. by apply exclusion.
  - intros i h w key lr Hi. destruct (drained s i h w key lr Hinv Hi) as [Hbg Hall].
    split; [|done]. simpl. rewrite <-Hbg. intros [= Heq]. by apply fg_bg_of in Heq.
  - intros j hj key tid v m Hj. split; [done|].
    destruct (complete_mirrors s Hinv) as [Ha|(i & h & p & w & k & lr & Hi & Hb & Hd)];
      [by left|right].
    exists i, h, p, w, k, lr. split; [done|]. split; [done|]. split; [|done].
    intros i' h' p' Hi' Hb'.
    apply (inv_unique _ Hinv i' i h' p' h p Hi' Hi).
    + by apply writing_between.
    + apply writing_between. by rewrite Hb.
  - intros i h p e c Hi. split; [by apply (run_pc_no_fault s i h)|by apply enter_no_fault].
  - intros l s' j hj key tid v m Hstep Hj.
    by apply (reader_mirror_stable s l s' j hj key tid v m).
Qed.

(** *** A thread that runs alone runs the sequential layer *)

Lemma solo_step n p o o' p' :
  run_pc p o = Step o' p' None → solo (S n) p o = solo n p' o'.
Proof. simpl. by intros ->. Qed.

Lemma solo_return n p o o' p' r :
  run_pc p o = Step o' p' (Some r) → solo (S n) p o = Ok (r, o').
Proof. simpl. by intros ->. Qed.

Lemma solo_scan w key lr prev next ph (k i n : nat) o :
  well_formed_facts LROLLS_COUNTERS_RATIO o →
  slots_all LROLLS_COUNTERS_RATIO (Z.eqb 0) (_numCores o)
    (readers_of (readers_at (phase_version ph prev next)) o) = true →
  (i + k = Z.to_nat (_numCores o))%nat →
  solo (k + S n) (W_scan w key lr prev next ph (Z.of_nat i * LROLLS_COUNTERS_RATIO)) o
  = solo n match ph with
           | WaitNext => W_store_version w key lr prev next
           | WaitPrev => W_second w key lr
           end o.
Proof.
  intros Hwf Hz. pose proof Hwf as [HR Hn Hl Hf _ _].
  rewrite slots_all_spec in Hz. revert i.
  induction k as [|k IH]; intros i Hik.
  - apply solo_step. simpl.
    destruct (Z.ltb_spec (Z.of_nat i * LROLLS_COUNTERS_RATIO) (_readersLength o));
      [nia|done].
  - destruct (slot_index_bounds _ o i Hwf ltac:(lia)) as [Hlo Hhi].
    destruct (Hz i ltac:(lia)) as (c & Hc & <-%Z.eqb_eq).
    pose proof (counters_load_slot _ _ _ _ Hlo Hc) as Hload.
    change (S k + S n)%nat with (S (k + S n)).
    rewrite (solo_step _ _ o o
               (W_scan w key lr prev next ph
                  (Z.of_nat (S i) * LROLLS_COUNTERS_RATIO))).
    + apply IH. lia.
    + simpl.
      destruct (Z.ltb_spec (Z.of_nat i * LROLLS_COUNTERS_RATIO) (_readersLength o));
        [|lia].
      unfold atomically, load_readers, atomic.
      replace (if (match ph with WaitNext => next | WaitPrev => prev end) =? 0
               then Version0 else Version1)
        with (readers_at (phase_version ph prev next)) by by destruct ph.
      rewrite Hload. simpl.
      rewrite to_int_id by (unfold INT_MIN, INT_MAX in *; lia).
      do 2 f_equal. lia.
Qed.

Lemma solo_contains h key o :
  well_formed LROLLS_COUNTERS_RATIO o = true →
  ∃ t, contains LROLLS_COUNTERS_RATIO h key o
       = Ok (lls_contains key (set_of (foreground o) o), o, t)
       ∧ solo_call 5 h (Contains key) o
         = Ok (lls_contains key (set_of (foreground o) o), o).
Proof.
  intros Hwf. destruct (contains_Ok _ h key o Hwf) as (tid' & c' & Hc).
  simpl in Hc. eexists. split; [exact Hc|]. clear Hc tid' c'.
  apply well_formed_spec in Hwf.
  destruct (thread_2_tid_slot _ h o Hwf) as (i & Hi & Htid).
  destruct (wf_slot _ o Hwf (readers_at (_versionIndex o)) i Hi) as (c & Hslot & Hc).
  destruct (slot_index_bounds _ o i Hwf Hi) as [Hlo _].
  pose proof (counters_load_slot _ _ _ _ Hlo Hslot) as Hload.
  unfold solo_call. simpl. unfold atomically at 1. rewrite Htid. simpl.
  set (o1 := fetch_added (readers_at (_versionIndex o))
               (Z.of_nat i * LROLLS_COUNTERS_RATIO) c 1 o).
  assert (Hadd : (if _versionIndex o =? 0
                  then fetch_add_readers Version0 (Z.of_nat i * LROLLS_COUNTERS_RATIO) 1
                  else fetch_add_readers Version1 (Z.of_nat i * LROLLS_COUNTERS_RATIO) 1) o
                 = Ok (c, o1, [(EvFetchAdd (readers_at (_versionIndex o))
                                  (Z.of_nat i * LROLLS_COUNTERS_RATIO) 1, o1)])).
  { pose proof (fetch_add_readers_Ok _ _ 1 _ _ Hload) as Ha.
    unfold readers_at in *. by destruct (_versionIndex o =? 0). }
  unfold atomically at 1. rewrite Hadd. simpl.
  assert (Hdep := readIndicatorDepart_Ok _ _ _ _
                    (counters_load_fetch_added _ _ _ 1 _ Hload)).
  rewrite (fetch_added_back _ _ _ 1) in Hdep by done. fold o1 in Hdep.
  unfold atomically. rewrite Hdep. simpl.
  assert (Hlr : _leftRight o1 = _leftRight o) by (unfold o1; by destruct (readers_at _)).
  assert (Hsets : ∀ m, set_of m o1 = set_of m o)
    by (intros []; unfold o1; by destruct (readers_at _)).
  rewrite Hlr. unfold foreground. by rewrite Hsets.
Qed.

Lemma run_W_first w key lr o :
  run_pc (W_first w key lr) o
  = Step (with_set (bg_of lr) (op_fun w key (set_of (bg_of lr) o)).2 o)
         (if negb (op_fun w key (set_of (bg_of lr) o)).1
          then W_unlock false else W_store_lr w key lr) None.
Proof.
  simpl. unfold atomically, bg_of.
  destruct (lr =? READS_ON_LEFT); by rewrite set_op_Ok.
Qed.

Lemma run_W_second w key lr o :
  run_pc (W_second w key lr) o
  = Step (with_set (fg_of lr) (op_fun w key (set_of (fg_of lr) o)).2 o)
         (W_unlock true) None.
Proof.
  simpl. unfold atomically, fg_of.
  destruct (lr =? READS_ON_LEFT); by rewrite set_op_Ok.
Qed.

Lemma run_W_store_lr w key lr o :
  run_pc (W_store_lr w key lr) o
  = Step (with_leftRight (if lr =? READS_ON_LEFT then READS_ON_RIGHT else READS_ON_LEFT) o)
         (W_toggle_load w key lr) None.
Proof. simpl. by destruct (lr =? READS_ON_LEFT). Qed.

Lemma run_W_toggle_load w key lr o :
  epoch_ok o = true →
  run_pc (W_toggle_load w key lr) o
  = Step o (W_scan w key lr (Z.rem (_versionIndex o) 2) (1 - _versionIndex o)
              WaitNext 0) None.
Proof.
  unfold epoch_ok. simpl. unfold atomically, bind, load_versionIndex, atomic, int_add.
  by intros [->%Z.eqb_eq| ->%Z.eqb_eq]%orb_prop.
Qed.

Lemma invoke_call_of fuel h w key :
  invoke LROLLS_COUNTERS_RATIO fuel h (call_of w key)
  = writer LROLLS_COUNTERS_RATIO (op_fun w)
      match w with OpAdd => EvAdd | OpRemove => EvRemove end fuel key.
Proof. by destruct w. Qed.

Lemma solo_writer fuel h w key o :
  quiescent LROLLS_COUNTERS_RATIO o = true →
  (Z.to_nat (_numCores o) < fuel)%nat →
  ∃ n r o' t,
    (n ≤ 2 * Z.to_nat (_numCores o) + 10)%nat
    ∧ invoke LROLLS_COUNTERS_RATIO fuel h (call_of w key) o = Ok (r, o', t)
    ∧ solo_call n h (call_of w key) o = Ok (r, o').
Proof.
  intros Hq Hfuel. pose proof Hq as (Hnr & Hep & Hm)%quiescent_spec.
  pose proof Hnr as [Hwf Hz]%no_readers_spec.
  rewrite invoke_call_of.
  set (oL := with_writersMutex true o).
  assert (Hlock : run_pc (W_lock w key) o = Step oL (W_load_lr w key) None)
    by (simpl; unfold atomically, lock, atomic; by rewrite Hm).
  assert (Henter : ∀ n, solo_call n h (call_of w key) o = solo n (W_lock w key) o)
    by (intros n; by destruct w).
  assert (Hbg : bg_of (_leftRight o) = background o) by done.
  destruct (op_fun w key (set_of (background o) o)).1 eqn:Hr.
  - (* both mirrors are mutated *)
    destruct (writer_success _ (op_fun w)
                match w with OpAdd => EvAdd | OpRemove => EvRemove end
                fuel key o Hq Hfuel Hr) as (t & Hw & _).
    exists (S (S (S (S (S (Z.to_nat (_numCores o)
              + S (S (Z.to_nat (_numCores o) + 3)))))))),
      true, (writer_result (op_fun w) key o), t.
    split; [lia|]. split; [exact Hw|].
    rewrite Henter, (solo_step _ _ _ _ _ Hlock).
    rewrite (solo_step _ _ oL oL (W_first w key (_leftRight o))) by done.
    rewrite (solo_step _ _ _ _ _ (run_W_first w key (_leftRight o) oL)).
    change (set_of (bg_of (_leftRight o)) oL) with (set_of (background o) o).
    rewrite Hr. cbn [negb].
    rewrite (solo_step _ _ _ _ _ (run_W_store_lr _ _ _ _)).
    set (o2 := with_leftRight _ _).
    assert (Hwf2 : ∀ v, well_formed_facts LROLLS_COUNTERS_RATIO (with_versionIndex v o2)).
    { intros v. apply well_formed_spec. apply well_formed_spec in Hwf.
      subst o2. by destruct (bg_of (_leftRight o)). }
    assert (Hz2 : ∀ v a, slots_all LROLLS_COUNTERS_RATIO (Z.eqb 0) (_numCores o)
                     (readers_of a (with_versionIndex v o2)) = true).
    { intros v a. specialize (Hz a). subst o2.
      by destruct a, (bg_of (_leftRight o)). }
    assert (Hid : ∀ a, readers_of a o2 = readers_of a (with_versionIndex 0 o2))
      by by intros [].
    assert (Hwf2' : well_formed_facts LROLLS_COUNTERS_RATIO o2).
    { apply well_formed_spec. apply well_formed_spec in Hwf.
      subst o2. by destruct (bg_of (_leftRight o)). }
    assert (Hep2 : epoch_ok o2 = true)
      by (subst o2; by destruct (bg_of (_leftRight o))).
    assert (Hn2 : _numCores o2 = _numCores o)
      by (subst o2; by destruct (bg_of (_leftRight o))).
    assert (Hv2 : _versionIndex o2 = _versionIndex o)
      by (subst o2; by destruct (bg_of (_leftRight o))).
    rewrite (solo_step _ _ _ _ _ (run_W_toggle_load _ _ _ _ Hep2)).
    rewrite <-Hn2 at 1.
    rewrite (solo_scan _ _ _ _ _ WaitNext _ 0 _ o2 Hwf2')
      by (rewrite ?Hn2, ?Hid; (apply Hz2 || done)).
    rewrite (solo_step _ _ o2 (with_versionIndex (1 - _versionIndex o2) o2)
               (W_scan w key (_leftRight o) (Z.rem (_versionIndex o2) 2)
                  (1 - _versionIndex o2) WaitPrev 0)) by done.
    set (o3 := with_versionIndex _ o2).
    replace (Z.to_nat (_numCores o)) with (Z.to_nat (_numCores o3))
      by (change (_numCores o3) with (_numCores o2); by rewrite Hn2).
    rewrite (solo_scan _ _ _ _ _ WaitPrev _ 0 _ o3 (Hwf2 _))
      by (try done; change (_numCores o3) with (_numCores o2); rewrite Hn2; apply Hz2).
    rewrite (solo_step _ _ _ _ _ (run_W_second _ _ _ _)).
    rewrite (solo_return _ _ _ (with_writersMutex false
               (with_set (fg_of (_leftRight o))
                  (op_fun w key (set_of (fg_of (_leftRight o)) o3)).2 o3))
               Idle true) by done.
    do 2 f_equal.
    unfold writer_result, branch_result, o3, o2, oL, fg_of, bg_of, background.
    by destruct (_leftRight o =? READS_ON_LEFT).
  - (* the call is refused *)
    pose proof (op_fun_refused _ _ _ Hr) as Hsame.
    assert (Hf : op_fun w key (set_of (background o) o)
                 = (false, set_of (background o) o)).
    { destruct (op_fun w key (set_of (background o) o)) as [r s'].
      simpl in *. by subst. }
    exists 4%nat, false, o. eexists. split; [lia|]. split; [by apply writer_noop|].
    rewrite Henter, (solo_step _ _ _ _ _ Hlock).
    rewrite (solo_step _ _ oL oL (W_first w key (_leftRight o))) by done.
    rewrite (solo_step _ _ _ _ _ (run_W_first w key (_leftRight o) oL)).
    change (set_of (bg_of (_leftRight o)) oL) with (set_of (background o) o).
    rewrite Hr, Hsame. cbn [negb].
    rewrite (solo_return _ _ _ (with_writersMutex false
               (with_set (bg_of (_leftRight o)) (set_of (background o) o) oL))
               Idle false) by done.
    do 2 f_equal. rewrite Hbg. unfold oL, background.
    destruct o; simpl in *. subst.
    by destruct (_leftRight0 =? READS_ON_LEFT).
Qed.

(** A call made by a thread while no other thread is inside the class runs,
    step by step, to the result and the object of the sequential layer, in
    no more steps than two passes over the slots and ten more. *)
Lemma solo_invoke fuel h c o :
  quiescent LROLLS_COUNTERS_RATIO o = true →
  (Z.to_nat (_numCores o) < fuel)%nat →
  ∃ n r o' t,
    (n ≤ 2 * Z.to_nat (_numCores o) + 10)%nat
    ∧ invoke LROLLS_COUNTERS_RATIO fuel h c o = Ok (r, o', t)
    ∧ solo_call n h c o = Ok (r, o').
Proof.
  intros Hq Hfuel. destruct c as [key|key|key].
  - apply (solo_writer fuel h OpAdd key o Hq Hfuel).
  - apply (solo_writer fuel h OpRemove key o Hq Hfuel).
  - pose proof Hq as ([Hwf _]%no_readers_spec & _)%quiescent_spec.
    destruct (solo_contains h key o) as (t & Hc & Hs); [by apply well_formed_spec|].
    exists 5%nat, (lls_contains key (set_of (foreground o) o)), o, t.
    split; [lia|done].
Qed.

(** *** Which steps are enabled *)

Lemma atomically_blocked {A} (m : M A) o (k : A → pc * option bool) :
  atomically m o k = Blocked → m o = Fault Deadlock.
Proof. unfold atomically. by destruct (m o) as [[[? ?] ?]|[]]. Qed.

Lemma counters_load_fault a tid e :
  counters_load a tid = Fault e → e ≠ Deadlock.
Proof.
  unfold counters_load. destruct (tid <? 0); [by intros [= <-]|].
  destruct (a !! Z.to_nat tid) as [[c|]|]; by intros [= <-].
Qed.

Lemma fetch_add_readers_fault a tid delta o e :
  fetch_add_readers a tid delta o = Fault e → e ≠ Deadlock.
Proof.
  unfold fetch_add_readers, atomic, counters_fetch_add.
  destruct (counters_load (readers_of a o) tid) as [c|e'] eqn:Hc; [done|].
  intros [= <-]. by apply counters_load_fault in Hc.
Qed.

Lemma load_readers_fault a tid o e :
  load_readers a tid o = Fault e → e ≠ Deadlock.
Proof.
  unfold load_readers, atomic.
  destruct (counters_load (readers_of a o) tid) as [c|e'] eqn:Hc; [done|].
  intros [= <-]. by apply counters_load_fault in Hc.
Qed.

(** Only [lock] on a held mutex blocks. *)
Lemma run_pc_blocked p o :
  run_pc p o = Blocked →
  p = Idle ∨ (∃ w key, p = W_lock w key) ∧ _writersMutex o = true.
Proof.
  destruct p; simpl; try (by left);
    try (intros Hb%atomically_blocked; revert Hb).
  - by destruct (localVersionIndex =? 0); intros Hb%fetch_add_readers_fault.
  - unfold readIndicatorDepart, bind.
    destruct (localVersionIndex =? 0);
      (destruct (fetch_add_readers _ tid (-1) o) as [[[? ?] ?]|e] eqn:Hf; [done|]);
      intros [= ->]; by apply fetch_add_readers_fault in Hf.
  - unfold lock, atomic. destruct (_writersMutex o); [|done].
    right. split; [by eexists _, _|done].
  - destruct (leftRight =? READS_ON_LEFT); by rewrite set_op_Ok.
  - by destruct (leftRight =? READS_ON_LEFT).
  - unfold bind, load_versionIndex, atomic, int_add, throw, ret.
    by destruct (is_int _).
  - destruct (tid <? _readersLength o); [|done].
    by intros Hb%atomically_blocked%load_readers_fault.
  - destruct (leftRight =? READS_ON_LEFT); by rewrite set_op_Ok.
Qed.

Lemma run_pc_enabled s i h p :
  invariant s → threads s !! i = Some (h, p) → p ≠ Idle →
  (∀ w key, p = W_lock w key → _writersMutex (object s) = false) →
  ∃ o' p' r, run_pc p (object s) = Step o' p' r.
Proof.
  intros Hinv Hi Hidle Hlock.
  destruct (run_pc p (object s)) as [o' p' r| |e] eqn:Hr.
  - by eexists _, _, _.
  - apply run_pc_blocked in Hr as [->|[(w & key & ->) Hm]]; [done|].
    by rewrite (Hlock w key) in Hm.
  - by apply (run_pc_no_fault s i h) in Hr.
Qed.

Lemma enter_enabled s h c :
  invariant s → ∃ p, enter h c (object s) = Step (object s) p None.
Proof.
  intros Hinv. destruct (enter h c (object s)) as [o' p' r| |e] eqn:He.
  - pose proof (enter_trans _ _ _ _ _ _ He) as [Ht ->].
    exists p'. f_equal. inversion Ht; done.
  - destruct c; simpl in He; try done.
    apply atomically_blocked in He. revert He.
    unfold thread_2_tid, bind, member, throw, ret.
    by destruct (to_size_t (_numCores (object s)) =? 0).
  - by apply enter_no_fault in He.
Qed.

(** *** The mutex and its holder *)

Lemma trans_mutex o p o' p' :
  trans o p o' p' →
  (_writersMutex o' = _writersMutex o ∧ writing p' = writing p)
  ∨ (_writersMutex o' = true ∧ writing p' = true)
  ∨ _writersMutex o' = false.
Proof.
  intros Ht. inversion Ht; subst; simpl; try (by left);
    try (by right; left); try (by right; right).
  - left. by destruct (readers_at v).
  - left. by destruct (readers_at v).
  - left. by destruct (bg_of lr).
  - left. by destruct (bg_of lr).
  - left. by destruct ph.
  - left. by destruct (fg_of lr).
Qed.

Lemma mutex_holder s0 s :
  _writersMutex (object s0) = false → reachable s0 s →
  _writersMutex (object s) = true →
  ∃ i h p, threads s !! i = Some (h, p) ∧ writing p = true.
Proof.
  intros Hfree Hr. induction Hr as [|s l s' _ IH Hstep]; [by rewrite Hfree|].
  intros Hm. destruct (step_trans s l s' Hstep) as (i & h & p & p' & Hi & Ht & Hths).
  assert (Hi' : threads s' !! i = Some (h, p')).
  { rewrite Hths. apply list_lookup_insert_eq. by eapply lookup_lt_Some. }
  destruct (trans_mutex _ _ _ _ Ht) as [[Hsame Hw]|[[_ Hw]|Hf]].
  - rewrite Hsame in Hm. destruct (IH Hm) as (j & hj & pj & Hj & Hwj).
    destruct (decide (j = i)) as [->|Hne].
    + exists i, h, p'. split; [done|]. rewrite Hw. congruence.
    + exists j, hj, pj. split; [|done]. rewrite Hths.
      by rewrite list_lookup_insert_ne.
  - by exists i, h, p'.
  - congruence.
Qed.

(** X6: [contains] is wait-free.  In every state the threads can reach, a
    thread outside the class can enter [contains], and a thread inside
    [contains] can take its next step, whatever the other threads are doing:
    the step is neither blocked nor faulty, it brings the thread one step
    closer to the return, of which it is never more than five steps away
    (the four atomic operations and the call on the mirror, taken as one
    step), and it changes no mirror, selector, version index or mutex. *)
Theorem contains_wait_free fuel hw hashes s i h p :
  config_ok LROLLS_NUMBER_OF_CORES LROLLS_COUNTERS_RATIO fuel hw = true →
  Z.of_nat (length hashes) ≤ INT_MAX →
  reachable (initial hw hashes) s →
  threads s !! i = Some (h, p) →
  (∀ key, ∃ tid,
     enter h (Contains key) (object s) = Step (object s) (C_arrive_load key tid) None)
  ∧ ((0 < reader_steps p)%nat →
     ∃ o' p' r,
       run_pc p (object s) = Step o' p' r
       ∧ reader_steps p = S (reader_steps p')
       ∧ (r ≠ None ↔ reader_steps p' = 0%nat)
       ∧ (∀ m, set_of m o' = set_of m (object s))
       ∧ _leftRight o' = _leftRight (object s)
       ∧ _versionIndex o' = _versionIndex (object s)
       ∧ _writersMutex o' = _writersMutex (object s)).
Proof.
  intros Hok Hpool Hr Hi.
  pose proof (invariant_reachable fuel hw hashes s Hok Hpool Hr) as Hinv.
  split.
  - intros key. destruct (enter_enabled s h (Contains key) Hinv) as [p' He].
    simpl in He |- *. unfold atomically in *.
    destruct (thread_2_tid _ h (object s)) as [[[tid o1] t1]|[]]; try done.
    exists tid. by injection He as -> _.
  - intros Hsteps. pose proof (inv_valid _ Hinv i h p Hi) as Hv.
    destruct p; simpl in Hsteps; try lia; simpl in Hv.
    + eexists _, _, _. split; [reflexivity|]. by repeat split.
    + destruct Hv as (n & Hn & ->).
      destruct (valid_slot_load s (readers_at localVersionIndex) n Hinv Hn) as [c Hc].
      destruct (fetch_added_fields (readers_at localVersionIndex)
                  (Z.of_nat n * LROLLS_COUNTERS_RATIO) c 1 (object s))
        as (? & ? & ? & _ & _ & ?).
      exists (fetch_added (readers_at localVersionIndex)
                (Z.of_nat n * LROLLS_COUNTERS_RATIO) c 1 (object s)),
        (C_load_lr key (Z.of_nat n * LROLLS_COUNTERS_RATIO) localVersionIndex), None.
      split; [|by repeat split].
      simpl. unfold atomically, readers_at in *.
      destruct (localVersionIndex =? 0); by rewrite (fetch_add_readers_Ok _ _ _ c).
    + eexists _, _, _. split; [reflexivity|]. by repeat split.
    + eexists _, _, _. split; [reflexivity|]. by repeat split.
    + destruct Hv as (n & Hn & ->).
      destruct (valid_slot_load s (readers_at localVersionIndex) n Hinv Hn) as [c Hc].
      destruct (fetch_added_fields (readers_at localVersionIndex)
                  (Z.of_nat n * LROLLS_COUNTERS_RATIO) c (-1) (object s))
        as (? & ? & ? & _ & _ & ?).
      exists (fetch_added (readers_at localVersionIndex)
                (Z.of_nat n * LROLLS_COUNTERS_RATIO) c (-1) (object s)),
        Idle, (Some retValue).
      split; [|by repeat split].
      simpl. unfold atomically. by rewrite (readIndicatorDepart_Ok _ _ c).
Qed.

(** X7: [add] and [remove] exclude each other.  In every state the threads
    can reach, at most one thread is between taking and releasing the mutex,
    and the mutex is held exactly when there is such a thread. *)
Theorem writers_exclude_each_other fuel hw hashes s :
  config_ok LROLLS_NUMBER_OF_CORES LROLLS_COUNTERS_RATIO fuel hw = true →
  Z.of_nat (length hashes) ≤ INT_MAX →
  reachable (initial hw hashes) s →
  (∀ i j hi pi hj pj,
     threads s !! i = Some (hi, pi) → threads s !! j = Some (hj, pj) →
     writing pi = true → writing pj = true → i = j)
  ∧ (_writersMutex (object s) = true
     ↔ ∃ i h p, threads s !! i = Some (h, p) ∧ writing p = true).
Proof.
  intros Hok Hpool Hr.
  pose proof (invariant_reachable fuel hw hashes s Hok Hpool Hr) as Hinv.
  split; [apply (inv_unique _ Hinv)|]. split.
  - by apply (mutex_holder (initial hw hashes)).
  - intros (i & h & p & Hi & Hw). by apply (writing_mutex s i h p).
Qed.

(** X8: no state the threads can reach is a deadlock.  A thread outside the
    class can enter any of the three calls; a thread inside a call can take
    its next step, unless it is about to take the mutex while another thread
    holds it, and then that other thread can take its next step. *)
Theorem no_deadlock fuel hw hashes s i h p :
  config_ok LROLLS_NUMBER_OF_CORES LROLLS_COUNTERS_RATIO fuel hw = true →
  Z.of_nat (length hashes) ≤ INT_MAX →
  reachable (initial hw hashes) s →
  threads s !! i = Some (h, p) →
  (∀ c, ∃ p', enter h c (object s) = Step (object s) p' None)
  ∧ (p ≠ Idle →
     (∃ o' p' r, run_pc p (object s) = Step o' p' r)
     ∨ ((∃ w key, p = W_lock w key)
        ∧ ∃ j hj pj o' p' r,
            j ≠ i ∧ threads s !! j = Some (hj, pj) ∧ writing pj = true
            ∧ run_pc pj (object s) = Step o' p' r)).
Proof.
  intros Hok Hpool Hr Hi.
  pose proof (invariant_reachable fuel hw hashes s Hok Hpool Hr) as Hinv.
  split; [intros c; by apply enter_enabled|]. intros Hidle.
  destruct (run_pc p (object s)) as [o' p' r| |e] eqn:Hrun.
  - left. by eexists _, _, _.
  - right. apply run_pc_blocked in Hrun as [->|[(w & key & ->) Hm]]; [done|].
    split; [by eexists _, _|].
    destruct (mutex_holder (initial hw hashes) s eq_refl Hr Hm)
      as (j & hj & pj & Hj & Hw).
    destruct (run_pc_enabled s j hj pj Hinv Hj) as (o' & p' & r & Hstep).
    + by destruct pj.
    + intros w' key' ->. done.
    + exists j, hj, pj, o', p', r. split; [|done].
      intros ->. rewrite Hi in Hj. by injection Hj as _ <-.
  - by apply (run_pc_no_fault s i h) in Hrun.
Qed.

(** X9: the presence counters count the readers.  In every state the threads
    can reach, each slot of each array holds the number of threads that have
    added one to it in [readIndicatorArrive] and have not yet subtracted it
    in [readIndicatorDepart]; it is never negative and never more than the
    number of threads. *)
Theorem counters_count_readers fuel hw hashes s a (n : nat) :
  config_ok LROLLS_NUMBER_OF_CORES LROLLS_COUNTERS_RATIO fuel hw = true →
  Z.of_nat (length hashes) ≤ INT_MAX →
  reachable (initial hw hashes) s →
  (n < Z.to_nat (_numCores (object s)))%nat →
  ∃ c,
    counters_load (readers_of a (object s)) (Z.of_nat n * LROLLS_COUNTERS_RATIO) = Ok c
    ∧ c = Z.of_nat (tally (present_at a (Z.of_nat n * LROLLS_COUNTERS_RATIO)) (threads s))
    ∧ 0 ≤ c ≤ Z.of_nat (length (threads s))
    ∧ c ≤ INT_MAX.
Proof.
  intros Hok Hpool Hr Hn.
  pose proof (invariant_reachable fuel hw hashes s Hok Hpool Hr) as Hinv.
  pose proof (inv_static _ Hinv) as [HR _ _ _ _].
  pose proof (inv_pool _ Hinv) as Hp.
  pose proof (tally_le_length (present_at a (Z.of_nat n * LROLLS_COUNTERS_RATIO))
                (threads s)) as Hle.
  eexists. split; [|split; [reflexivity|lia]].
  apply counters_load_slot; [apply Z.mul_nonneg_nonneg; lia|].
  by apply (inv_count _ Hinv).
Qed.

(** *** The set readers are answered from *)

Lemma step_inv s l s' :
  step s l s' →
  ∃ h p o' p',
    threads s !! label_thread l = Some (h, p)
    ∧ s' = {| object := o'; threads := <[label_thread l := (h, p')]> (threads s) |}
    ∧ ((∃ c, p = Idle ∧ l = Call (label_thread l) c
             ∧ enter h c (object s) = Step o' p' None)
       ∨ (∃ r, run_pc p (object s) = Step o' p' r
               ∧ l = match r with
                     | Some b => Return (label_thread l) b
                     | None => Internal (label_thread l)
                     end)).
Proof.
  intros [i h c o ths o' p Hi He|i h p o ths o' p' r Hi Hr].
  - exists h, Idle, o', p. simpl. split; [done|]. split; [done|]. left. by exists c.
  - exists h, p, o', p'.
    destruct r; simpl; (split; [done|]); (split; [done|]); right; by eexists.
Qed.

Lemma visible_kept o o' :
  foreground o' = foreground o →
  set_of (foreground o) o' = set_of (foreground o) o →
  ∀ k, visible o' k = visible o k.
Proof. intros Hf Hs k. unfold visible. by rewrite Hf, Hs. Qed.

Lemma visible_store s i h w key lr o' p' :
  invariant s → threads s !! i = Some (h, W_store_lr w key lr) →
  trans (object s) (W_store_lr w key lr) o' p' →
  visible (object s) key = match w with OpAdd => false | OpRemove => true end
  ∧ ∀ k, visible o' k = xorb (bool_decide (k = key)) (visible (object s) k).
Proof.
  intros Hinv Hi Ht.
  pose proof (inv_selector _ Hinv i h _ Hi) as Hsel.
  pose proof (inv_content _ Hinv i h _ Hi) as Hcon.
  simpl in Hsel. unfold content_ok in Hcon. simpl in Hcon.
  destruct Hcon as [Hkey Hall]. unfold visible. rewrite <-Hsel.
  split; [done|]. intros k.
  assert (foreground o' = bg_of lr ∧ ∀ m, set_of m o' = set_of m (object s))
    as [-> Hsets].
  { inversion Ht; subst. split; [|by intros []].
    unfold foreground, bg_of. simpl. by destruct (lr =? READS_ON_LEFT). }
  by rewrite Hsets, Hall.
Qed.

Lemma visible_trans s i h p o' p' :
  invariant s → threads s !! i = Some (h, p) → trans (object s) p o' p' →
  (∀ k, visible o' k = visible (object s) k)
  ∨ ∃ w key lr,
      p = W_store_lr w key lr
      ∧ visible (object s) key = match w with OpAdd => false | OpRemove => true end
      ∧ ∀ k, visible o' k = xorb (bool_decide (k = key)) (visible (object s) k).
Proof.
  intros Hinv Hi Ht.
  pose proof (inv_selector _ Hinv i h p Hi) as Hsel.
  destruct (trans_sets _ _ _ _ Ht) as [Hsets|[(w & key & lr & ->)|(w & key & lr & ->)]].
  - destruct (trans_foreground _ _ _ _ Ht) as [Hfg|(w & key & lr & ->)].
    + left. by apply visible_kept.
    + right. exists w, key, lr. split; [done|]. by apply (visible_store s i h w key lr o' p').
  - left. simpl in Hsel. apply visible_kept.
    + inversion Ht; subst; by destruct (bg_of lr).
    + rewrite <-Hsel. pose proof (fg_bg_of lr).
      inversion Ht; subst; by apply set_of_with_set_ne.
  - left. simpl in Hsel. apply visible_kept.
    + inversion Ht; subst; by destruct (fg_of lr).
    + rewrite <-Hsel. pose proof (fg_bg_of lr).
      inversion Ht; subst; by apply set_of_with_set_ne.
Qed.

(** X10: a mutation becomes visible in one step.  The set a reader is
    answered from, the mirror the selector names, is changed by no step of
    any thread but a writer's store to the selector; that store changes it
    by exactly the writer's key: the key of an [add] was not in it and is in
    it afterwards, the key of a [remove] was in it and is not afterwards.
    The two calls on the mirrors themselves change nothing a reader that
    arrives can see. *)
Theorem mutation_visible_at_store fuel hw hashes s l s' :
  config_ok LROLLS_NUMBER_OF_CORES LROLLS_COUNTERS_RATIO fuel hw = true →
  Z.of_nat (length hashes) ≤ INT_MAX →
  reachable (initial hw hashes) s → step s l s' →
  (∀ k, visible (object s') k = visible (object s) k)
  ∨ ∃ h w key lr,
      threads s !! label_thread l = Some (h, W_store_lr w key lr)
      ∧ l = Internal (label_thread l)
      ∧ visible (object s) key = match w with OpAdd => false | OpRemove => true end
      ∧ ∀ k, visible (object s') k = xorb (bool_decide (k = key)) (visible (object s) k).
Proof.
  intros Hok Hpool Hr Hstep.
  pose proof (invariant_reachable fuel hw hashes s Hok Hpool Hr) as Hinv.
  destruct (step_inv s l s' Hstep) as (h & p & o' & p' & Hi & -> & Hcase). simpl.
  assert (Ht : trans (object s) p o' p').
  { destruct Hcase as [(c & -> & _ & He)|(r & Hrun & _)].
    - by apply enter_trans in He as [Ht _].
    - by apply run_pc_trans in Hrun. }
  destruct (visible_trans s _ h p o' p' Hinv Hi Ht)
    as [Hsame|(w & key & lr & -> & Hkey & Hall)]; [by left|right].
  exists h, w, key, lr. split; [done|]. split; [|done].
  destruct Hcase as [(c & [=] & _)|(r & Hrun & Hl)].
  rewrite run_W_store_lr in Hrun. by injection Hrun as _ _ <-.
Qed.

Lemma op_fun_answer w key s :
  (op_fun w key s).1
  = match w with
    | OpAdd => negb (lls_contains key s)
    | OpRemove => lls_contains key s
    end.
Proof.
  destruct w; simpl; destruct (lls_contains key s) eqn:Hc; simpl.
  - by rewrite lls_add_present.
  - by apply lls_add_absent.
  - by apply lls_remove_present.
  - by rewrite lls_remove_absent.
Qed.

(** X11: what a writer is answered.  When a writer is about to make its
    first call, on the mirror readers are not sent to, the two mirrors hold
    the same keys; so [add] finds its key absent there, and [remove] finds it
    present, exactly when the set readers are answered from says so.  If the
    call is refused the step leaves the object as it is and the writer goes
    on to release the mutex and return false; otherwise it goes on to store
    the selector. *)
Theorem writer_answer fuel hw hashes s i h w key lr :
  config_ok LROLLS_NUMBER_OF_CORES LROLLS_COUNTERS_RATIO fuel hw = true →
  Z.of_nat (length hashes) ≤ INT_MAX →
  reachable (initial hw hashes) s →
  threads s !! i = Some (h, W_first w key lr) →
  mirrors_agree (object s)
  ∧ bg_of lr = background (object s)
  ∧ if match w with
       | OpAdd => negb (visible (object s) key)
       | OpRemove => visible (object s) key
       end
    then run_pc (W_first w key lr) (object s)
         = Step (with_set (bg_of lr)
                   (op_fun w key (set_of (bg_of lr) (object s))).2 (object s))
                (W_store_lr w key lr) None
    else run_pc (W_first w key lr) (object s)
         = Step (object s) (W_unlock false) None
         ∧ run_pc (W_unlock false) (object s)
           = Step (with_writersMutex false (object s)) Idle (Some false).
Proof.
  intros Hok Hpool Hr Hi.
  pose proof (invariant_reachable fuel hw hashes s Hok Hpool Hr) as Hinv.
  pose proof (agree_before_first s i h w key lr Hinv Hi) as Hagree.
  pose proof (inv_selector _ Hinv i h _ Hi) as Hsel. simpl in Hsel.
  split; [done|]. split.
  { revert Hsel. unfold fg_of, bg_of, foreground, background.
    by destruct (lr =? READS_ON_LEFT), (_leftRight (object s) =? READS_ON_LEFT). }
  assert (Hvis : lls_contains key (set_of (bg_of lr) (object s))
                 = visible (object s) key).
  { unfold visible. rewrite <-Hsel. by apply mirrors_agree_of. }
  rewrite run_W_first, op_fun_answer, Hvis.
  destruct (match w with
            | OpAdd => negb (visible (object s) key)
            | OpRemove => visible (object s) key
            end) eqn:Hans; [done|].
  split; [|done]. cbn [negb]. f_equal.
  rewrite op_fun_refused by by rewrite op_fun_answer, Hvis.
  apply with_set_id.
Qed.

(** *** A reader among other threads *)

Lemma others_run_keep j s s' :
  invariant s → others_run j s s' →
  invariant s' ∧ threads s' !! j = threads s !! j.
Proof.
  intros Hinv Hrun. induction Hrun as [s|s l s' s'' _ IH Hstep Hl]; [done|].
  destruct (IH Hinv) as [Hinv' Hj].
  split; [by apply (invariant_step s' l)|].
  destruct (step_inv _ _ _ Hstep) as (h & p & o' & p' & _ & -> & _). simpl.
  by rewrite list_lookup_insert_ne.
Qed.

Lemma others_run_mirror j h key tid v m s s' :
  invariant s → threads s !! j = Some (h, C_inside key tid v m) →
  others_run j s s' →
  set_of m (object s') = set_of m (object s).
Proof.
  intros Hinv Hj Hrun. induction Hrun as [s|s l s' s'' Hrun IH Hstep Hl]; [done|].
  destruct (others_run_keep j s s' Hinv Hrun) as [Hinv' Hj'].
  rewrite <-(IH Hinv Hj).
  apply (reader_mirror_stable s' l s'' j h key tid v m Hinv' Hstep).
  by rewrite Hj'.
Qed.

Lemma step_of_thread s l s' j h p :
  step s l s' → label_thread l = j →
  threads s !! j = Some (h, p) → p ≠ Idle →
  ∃ o' p' r,
    run_pc p (object s) = Step o' p' r
    ∧ l = match r with
          | Some b => Return j b
          | None => Internal j
          end
    ∧ s' = {| object := o'; threads := <[j := (h, p')]> (threads s) |}.
Proof.
  intros Hstep <- Hi Hidle.
  destruct (step_inv _ _ _ Hstep) as (h' & p0 & o' & p' & Hi' & -> & Hcase).
  rewrite Hi in Hi'. injection Hi' as <- <-.
  destruct Hcase as [(c & -> & _)|(r & Hrun & Hl)]; [done|].
  by exists o', p', r.
Qed.

(** X12: [contains] answers from the moment it loads the selector.  Take any
    state the threads can reach in which a thread is about to load the
    selector in [contains].  Whatever steps the other threads take between
    that load and the thread's call on the mirror, and between that call and
    its [readIndicatorDepart], the call returns whether the key was in the
    set readers are answered from in the state of the load. *)
Theorem contains_linearizes fuel hw hashes j h key tid v s0 l1 s1 s2 l3 s3 s4 l5 s5 :
  config_ok LROLLS_NUMBER_OF_CORES LROLLS_COUNTERS_RATIO fuel hw = true →
  Z.of_nat (length hashes) ≤ INT_MAX →
  reachable (initial hw hashes) s0 →
  threads s0 !! j = Some (h, C_load_lr key tid v) →
  step s0 l1 s1 → label_thread l1 = j →
  others_run j s1 s2 →
  step s2 l3 s3 → label_thread l3 = j →
  others_run j s3 s4 →
  step s4 l5 s5 → label_thread l5 = j →
  l5 = Return j (visible (object s0) key)
  ∧ threads s5 !! j = Some (h, Idle).
Proof.
  intros Hok Hpool Hr Hj0 Hstep1 Hl1 Hrun2 Hstep3 Hl3 Hrun4 Hstep5 Hl5.
  pose proof (invariant_reachable fuel hw hashes s0 Hok Hpool Hr) as Hinv0.
  pose proof (invariant_step _ _ _ Hinv0 Hstep1) as Hinv1.
  pose proof (lookup_lt_Some _ _ _ Hj0) as Hlt0.
  destruct (step_of_thread _ _ _ _ _ _ Hstep1 Hl1 Hj0 ltac:(done))
    as (o1 & p1 & r1 & Hpc1 & _ & ->).
  simpl in Hpc1. injection Hpc1 as <- <- <-.
  set (m := if _leftRight (object s0) =? READS_ON_LEFT then Set1 else Set2) in *.
  assert (Hj1 : <[j := (h, C_inside key tid v m)]> (threads s0) !! j
                = Some (h, C_inside key tid v m))
    by by apply list_lookup_insert_eq.
  destruct (others_run_keep _ _ _ Hinv1 Hrun2) as [Hinv2 Hj2]. simpl in Hj2.
  rewrite Hj1 in Hj2.
  pose proof (others_run_mirror _ _ _ _ _ _ _ _ Hinv1 Hj1 Hrun2) as Hm2.
  simpl in Hm2.
  destruct (step_of_thread _ _ _ _ _ _ Hstep3 Hl3 Hj2 ltac:(done))
    as (o3 & p3 & r3 & Hpc3 & _ & ->).
  simpl in Hpc3. injection Hpc3 as <- <- <-.
  pose proof (invariant_step _ _ _ Hinv2 Hstep3) as Hinv3.
  destruct (others_run_keep _ _ _ Hinv3 Hrun4) as [Hinv4 Hj4]. simpl in Hj4.
  rewrite list_lookup_insert_eq in Hj4 by by eapply lookup_lt_Some.
  destruct (step_of_thread _ _ _ _ _ _ Hstep5 Hl5 Hj4 ltac:(done))
    as (o5 & p5 & r5 & Hpc5 & -> & ->).
  simpl in Hpc5. unfold atomically in Hpc5.
  destruct (readIndicatorDepart _ _ _) as [[[[] o'] t']|[]]; try done.
  injection Hpc5 as <- <- <-. simpl. rewrite Hm2.
  split; [done|].
  apply list_lookup_insert_eq. by eapply lookup_lt_Some.
Qed.

(** *** When every thread is outside the class *)

Lemma tally_none f ths :
  (∀ i h p, ths !! i = Some (h, p) → f p = false) → tally f ths = 0%nat.
Proof.
  induction ths as [|[h p] ths IH]; intros Hall; simpl; [done|].
  rewrite (Hall 0%nat h p eq_refl). apply IH.
  intros i h' p' Hi. by apply (Hall (S i) h' p').
Qed.

Lemma reachable_static s0 s :
  reachable s0 s →
  _numCores (object s) = _numCores (object s0)
  ∧ _readersLength (object s) = _readersLength (object s0)
  ∧ length (threads s) = length (threads s0).
Proof.
  intros Hr. induction Hr as [|s l s' _ IH Hstep]; [done|].
  destruct (step_trans s l s' Hstep) as (i & h & p & p' & _ & Ht & ->).
  destruct (trans_static _ _ _ _ Ht) as (-> & -> & _).
  by rewrite length_insert.
Qed.

Lemma idle_quiescent s0 s :
  _writersMutex (object s0) = false → reachable s0 s → invariant s →
  (∀ i h p, threads s !! i = Some (h, p) → p = Idle) →
  quiescent LROLLS_COUNTERS_RATIO (object s) = true.
Proof.
  intros Hfree Hr Hinv Hidle.
  pose proof (inv_static _ Hinv) as [HR Hn Hl Hf Hlen].
  assert (Hzero : ∀ a (n : nat),
            (n < Z.to_nat (_numCores (object s)))%nat →
            slot LROLLS_COUNTERS_RATIO (readers_of a (object s)) n = Some (Some 0)).
  { intros a n Hlt. rewrite (inv_count _ Hinv a n Hlt), tally_none; [done|].
    intros i h p Hi. by rewrite (Hidle i h p Hi). }
  apply quiescent_spec. split; [|split].
  - apply no_readers_spec. split.
    + split; try done. intros a n Hlt. exists 0. by rewrite Hzero.
    + intros a. apply slots_all_spec. intros n Hlt. exists 0. by rewrite Hzero.
  - apply (inv_epoch _ Hinv).
  - destruct (_writersMutex (object s)) eqn:Hm; [|done].
    destruct (mutex_holder s0 s Hfree Hr Hm) as (i & h & p & Hi & Hw).
    by rewrite (Hidle i h p Hi) in Hw.
Qed.

(** X13: when every call has returned the object is at rest.  In every
    state the threads can reach in which all of them are outside the class,
    every presence counter is zero, the mutex is free, the version index is
    0 or 1 and the two mirrors hold the same keys; the number of cores, the
    length of the arrays and the number of threads are those of the start. *)
Theorem idle_is_at_rest fuel hw hashes s :
  config_ok LROLLS_NUMBER_OF_CORES LROLLS_COUNTERS_RATIO fuel hw = true →
  Z.of_nat (length hashes) ≤ INT_MAX →
  reachable (initial hw hashes) s →
  (∀ i h p, threads s !! i = Some (h, p) → p = Idle) →
  quiescent LROLLS_COUNTERS_RATIO (object s) = true
  ∧ mirrors_agree (object s)
  ∧ _numCores (object s) = cores_of LROLLS_NUMBER_OF_CORES hw
  ∧ _readersLength (object s) = cores_of LROLLS_NUMBER_OF_CORES hw * LROLLS_COUNTERS_RATIO
  ∧ length (threads s) = length hashes.
Proof.
  intros Hok Hpool Hr Hidle.
  pose proof (invariant_reachable fuel hw hashes s Hok Hpool Hr) as Hinv.
  split; [by apply (idle_quiescent (initial hw hashes))|].
  split.
  - apply (inv_agree _ Hinv). intros i h p Hi. by rewrite (Hidle i h p Hi).
  - destruct (reachable_static _ _ Hr) as (-> & -> & ->).
    simpl. by rewrite length_fmap.
Qed.

(** X14: a call that runs alone runs as the sequential layer says.  From
    every state the threads can reach in which all of them are outside the
    class, a thread that makes a call and takes all the next steps returns
    after no more steps than two passes over the slots and ten more, with
    the answer and the object the member function of the sequential layer
    gives. *)
Theorem call_alone_is_sequential fuel hw hashes s fuel' h c :
  config_ok LROLLS_NUMBER_OF_CORES LROLLS_COUNTERS_RATIO fuel hw = true →
  Z.of_nat (length hashes) ≤ INT_MAX →
  reachable (initial hw hashes) s →
  (∀ i h p, threads s !! i = Some (h, p) → p = Idle) →
  (Z.to_nat (_numCores (object s)) < fuel')%nat →
  ∃ n r o' t,
    (n ≤ 2 * Z.to_nat (_numCores (object s)) + 10)%nat
    ∧ invoke LROLLS_COUNTERS_RATIO fuel' h c (object s) = Ok (r, o', t)
    ∧ solo_call n h c (object s) = Ok (r, o')
    ∧ r = match c with
          | Add key => negb (visible (object s) key)
          | Remove key | Contains key => visible (object s) key
          end.
Proof.
  intros Hok Hpool Hr Hidle Hfuel.
  pose proof (invariant_reachable fuel hw hashes s Hok Hpool Hr) as Hinv.
  pose proof (idle_quiescent (initial hw hashes) s eq_refl Hr Hinv Hidle) as Hq.
  assert (Hagree : mirrors_agree (object s)).
  { apply (inv_agree _ Hinv). intros i h' p Hi. by rewrite (Hidle i h' p Hi). }
  destruct (solo_invoke fuel' h c (object s) Hq Hfuel) as (n & r & o' & t & Hn & Hi & Hs).
  exists n, r, o', t. split; [done|]. split; [done|]. split; [done|].
  pose proof Hq as ([Hwf _]%no_readers_spec & _ & Hm)%quiescent_spec.
  assert (Hbg : ∀ key, lls_contains key (set_of (background (object s)) (object s))
                       = visible (object s) key).
  { intros key. unfold visible, background, foreground.
    destruct (_leftRight (object s) =? READS_ON_LEFT); simpl; by rewrite (Hagree key). }
  destruct c as [key|key|key]; simpl in Hi.
  - destruct (op_fun OpAdd key (set_of (background (object s)) (object s))).1 eqn:Hans.
    + destruct (writer_success _ lls_add EvAdd fuel' key (object s) Hq Hfuel Hans)
        as (t' & Hw & _).
      rewrite add_writer, Hw in Hi. injection Hi as <- _ _.
      rewrite op_fun_answer, Hbg in Hans. by rewrite Hans.
    + rewrite add_writer, (writer_noop _ lls_add EvAdd) in Hi; [| done |].
      * injection Hi as <- _ _. rewrite op_fun_answer, Hbg in Hans. by rewrite Hans.
      * pose proof (op_fun_refused OpAdd key _ Hans) as Hsame. simpl in *.
        destruct (lls_add key _); simpl in *. by subst.
  - destruct (op_fun OpRemove key (set_of (background (object s)) (object s))).1 eqn:Hans.
    + destruct (writer_success _ lls_remove EvRemove fuel' key (object s) Hq Hfuel Hans)
        as (t' & Hw & _).
      rewrite remove_writer, Hw in Hi. injection Hi as <- _ _.
      by rewrite op_fun_answer, Hbg in Hans.
    + rewrite remove_writer, (writer_noop _ lls_remove EvRemove) in Hi; [| done |].
      * injection Hi as <- _ _. by rewrite op_fun_answer, Hbg in Hans.
      * pose proof (op_fun_refused OpRemove key _ Hans) as Hsame. simpl in *.
        destruct (lls_remove key _); simpl in *. by subst.
  - destruct (contains_Ok LROLLS_COUNTERS_RATIO h key (object s)
                ltac:(by apply well_formed_spec)) as (tid & c & Hc).
    simpl in Hc. rewrite Hc in Hi. by injection Hi as <- _ _.
Qed.

(** *** A writer and the readers that are registered *)

(** X15: a writer does not scan past a registered reader.  In every state
    the threads can reach, when a writer's scan is at the slot, of the array
    it is waiting on, to which some thread has added one and not yet
    subtracted it, the writer's next step reads a value that is not zero and
    takes it to [yield], from where the scan starts again. *)
Theorem scan_stops_at_reader fuel hw hashes s i h w key lr prev next ph tid j hj pj :
  config_ok LROLLS_NUMBER_OF_CORES LROLLS_COUNTERS_RATIO fuel hw = true →
  Z.of_nat (length hashes) ≤ INT_MAX →
  reachable (initial hw hashes) s →
  threads s !! i = Some (h, W_scan w key lr prev next ph tid) →
  threads s !! j = Some (hj, pj) →
  present pj = Some (readers_at (phase_version ph prev next), tid) →
  run_pc (W_scan w key lr prev next ph tid) (object s)
  = Step (object s) (W_yield w key lr prev next ph) None
  ∧ run_pc (W_yield w key lr prev next ph) (object s)
    = Step (object s) (W_scan w key lr prev next ph 0) None.
Proof.
  intros Hok Hpool Hr Hi Hj Hp.
  pose proof (invariant_reachable fuel hw hashes s Hok Hpool Hr) as Hinv.
  pose proof (inv_static _ Hinv) as Hst. pose proof Hst as [HR _ _ _ _].
  split; [|done].
  assert (Hslot : slot_index (object s) tid).
  { pose proof (inv_valid _ Hinv j hj pj Hj) as Hv.
    destruct pj; simpl in Hp; try done; by injection Hp as _ <-. }
  pose proof (slot_index_bounds_conc _ _ Hst Hslot) as [Hlo Hhi].
  destruct Hslot as (n & Hn & ->).
  set (a := readers_at (phase_version ph prev next)) in *.
  pose proof (inv_count _ Hinv a n Hn) as Hc.
  pose proof (tally_lookup (present_at a (Z.of_nat n * LROLLS_COUNTERS_RATIO))
                (threads s) j hj pj Hj) as Hpos.
  unfold present_at in Hpos at 1. rewrite Hp in Hpos.
  rewrite bool_decide_eq_true_2, Z.eqb_refl in Hpos by done.
  specialize (Hpos eq_refl).
  apply counters_load_slot in Hc; [|done].
  simpl. destruct (Z.ltb_spec (Z.of_nat n * LROLLS_COUNTERS_RATIO)
                     (_readersLength (object s))); [|lia].
  unfold atomically, load_readers, atomic.
  replace (if (match ph with WaitNext => next | WaitPrev => prev end) =? 0
           then Version0 else Version1) with a by by destruct ph.
  rewrite Hc. simpl.
  destruct (Z.eqb_spec (Z.of_nat (tally (present_at a (Z.of_nat n * LROLLS_COUNTERS_RATIO))
                                    (threads s))) 0); [lia|done].
Qed.

Lemma finish_second w key lr o n :
  ∃ o', solo (S (S n)) (W_second w key lr) o = Ok (true, o')
        ∧ _writersMutex o' = false.
Proof.
  rewrite (solo_step _ _ _ _ _ (run_W_second _ _ _ _)).
  eexists. split; [by apply (solo_return _ _ _ _ Idle)|done].
Qed.

Lemma finish_scan_prev w key lr prev next (i k : nat) o n :
  no_readers LROLLS_COUNTERS_RATIO o = true →
  (i + k = Z.to_nat (_numCores o))%nat →
  ∃ o', solo (k + S (S (S n)))
          (W_scan w key lr prev next WaitPrev (Z.of_nat i * LROLLS_COUNTERS_RATIO)) o
        = Ok (true, o')
        ∧ _writersMutex o' = false.
Proof.
  intros [Hwf Hz]%no_readers_spec Hik.
  rewrite (solo_scan _ _ _ _ _ WaitPrev _ _ _ _ Hwf (Hz _) Hik).
  apply finish_second.
Qed.

Lemma finish_store_version w key lr prev next o n :
  no_readers LROLLS_COUNTERS_RATIO o = true →
  ∃ o', solo (S (Z.to_nat (_numCores o) + S (S (S n))))
          (W_store_version w key lr prev next) o
        = Ok (true, o')
        ∧ _writersMutex o' = false.
Proof.
  intros Hnr.
  rewrite (solo_step _ _ o (with_versionIndex next o)
             (W_scan w key lr prev next WaitPrev 0)) by done.
  by apply (finish_scan_prev w key lr prev next 0 _ (with_versionIndex next o)).
Qed.

Lemma finish_scan_next w key lr prev next (i k : nat) o n :
  no_readers LROLLS_COUNTERS_RATIO o = true →
  (i + k = Z.to_nat (_numCores o))%nat →
  ∃ o', solo (k + S (S (Z.to_nat (_numCores o) + S (S (S n)))))
          (W_scan w key lr prev next WaitNext (Z.of_nat i * LROLLS_COUNTERS_RATIO)) o
        = Ok (true, o')
        ∧ _writersMutex o' = false.
Proof.
  intros Hnr Hik. pose proof Hnr as [Hwf Hz]%no_readers_spec.
  rewrite (solo_scan _ _ _ _ _ WaitNext _ _ _ _ Hwf (Hz _) Hik).
  by apply finish_store_version.
Qed.

Lemma finish_store_lr w key lr o n :
  no_readers LROLLS_COUNTERS_RATIO o = true → epoch_ok o = true →
  ∃ o', solo (S (S (Z.to_nat (_numCores o)
                    + S (S (Z.to_nat (_numCores o) + S (S (S n)))))))
          (W_store_lr w key lr) o
        = Ok (true, o')
        ∧ _writersMutex o' = false.
Proof.
  intros Hnr Hep.
  rewrite (solo_step _ _ _ _ _ (run_W_store_lr _ _ _ _)).
  set (o2 := with_leftRight _ o).
  rewrite (solo_step _ _ _ _ _ (run_W_toggle_load w key lr o2 Hep)).
  by apply (finish_scan_next w key lr _ _ 0 _ o2).
Qed.

Lemma finish_writer p o :
  no_readers LROLLS_COUNTERS_RATIO o = true → epoch_ok o = true →
  valid_pc o p → writing p = true →
  ∃ n r o',
    (n ≤ 2 * Z.to_nat (_numCores o) + 9)%nat
    ∧ solo n p o = Ok (r, o')
    ∧ _writersMutex o' = false.
Proof.
  intros Hnr Hep Hv Hw.
  assert (Hfirst : ∀ w key lr,
            ∃ n r o',
              (n ≤ 2 * Z.to_nat (_numCores o) + 8)%nat
              ∧ solo n (W_first w key lr) o = Ok (r, o')
              ∧ _writersMutex o' = false).
  { intros w key lr.
    destruct (op_fun w key (set_of (bg_of lr) o)).1 eqn:Hans.
    - destruct (finish_store_lr w key lr
                  (with_set (bg_of lr) (op_fun w key (set_of (bg_of lr) o)).2 o) 0)
        as (o' & Hs & Hm); [by destruct (bg_of lr)..|].
      eexists (S _), true, o'. split; [|split; [|done]].
      2: { rewrite (solo_step _ _ _ _ _ (run_W_first _ _ _ _)), Hans. exact Hs. }
      destruct (bg_of lr); simpl; lia.
    - exists 2%nat, false,
        (with_writersMutex false
           (with_set (bg_of lr) (op_fun w key (set_of (bg_of lr) o)).2 o)).
      split; [lia|]. split; [|done].
      rewrite (solo_step _ _ _ _ _ (run_W_first _ _ _ _)), Hans.
      by apply (solo_return _ _ _ _ Idle). }
  destruct p; try done; simpl in Hv.
  - destruct (Hfirst w key (_leftRight o)) as (n & r & o' & Hn & Hs & Hm).
    exists (S n), r, o'. split; [lia|]. split; [|done].
    by rewrite (solo_step _ _ o o (W_first w key (_leftRight o))).
  - destruct (Hfirst w key leftRight) as (n & r & o' & Hn & Hs & Hm).
    exists n, r, o'. split; [lia|done].
  - destruct (finish_store_lr w key leftRight o 0 Hnr Hep) as (o' & Hs & Hm).
    eexists _, true, o'. split; [|done]. lia.
  - destruct (finish_scan_next w key leftRight (Z.rem (_versionIndex o) 2)
                (1 - _versionIndex o) 0 _ o 0 Hnr eq_refl) as (o' & Hs & Hm).
    eexists (S _), true, o'. split; [|split; [|done]].
    2: { rewrite (solo_step _ _ _ _ _ (run_W_toggle_load w key leftRight o Hep)).
         exact Hs. }
    lia.
  - destruct Hv as [(i & Hi & ->) _]. destruct ph.
    + destruct (finish_scan_next w key leftRight prevVersionIndex nextVersionIndex
                  i (Z.to_nat (_numCores o) - i) o 0 Hnr ltac:(lia))
        as (o' & Hs & Hm).
      eexists _, true, o'. split; [|done]. lia.
    + destruct (finish_scan_prev w key leftRight prevVersionIndex nextVersionIndex
                  i (Z.to_nat (_numCores o) - i) o 0 Hnr ltac:(lia))
        as (o' & Hs & Hm).
      eexists _, true, o'. split; [|done]. lia.
  - destruct ph.
    + destruct (finish_scan_next w key leftRight prevVersionIndex nextVersionIndex
                  0 _ o 0 Hnr eq_refl) as (o' & Hs & Hm).
      eexists (S _), true, o'. split; [|split; [|done]].
      2: { rewrite (solo_step _ _ o o
                      (W_scan w key leftRight prevVersionIndex nextVersionIndex
                         WaitNext 0)) by done.
           exact Hs. }
      lia.
    + destruct (finish_scan_prev w key leftRight prevVersionIndex nextVersionIndex
                  0 _ o 0 Hnr eq_refl) as (o' & Hs & Hm).
      eexists (S _), true, o'. split; [|split; [|done]].
      2: { rewrite (solo_step _ _ o o
                      (W_scan w key leftRight prevVersionIndex nextVersionIndex
                         WaitPrev 0)) by done.
           exact Hs. }
      lia.
  - destruct (finish_store_version w key leftRight prevVersionIndex nextVersionIndex
                o 0 Hnr) as (o' & Hs & Hm).
    eexists _, true, o'. split; [|done]. lia.
  - destruct (finish_second w key leftRight o 0) as (o' & Hs & Hm).
    eexists _, true, o'. split; [|done]. lia.
  - exists 1%nat, retValue, (with_writersMutex false o).
    split; [lia|]. split; [|done].
    by apply (solo_return _ _ _ _ Idle).
Qed.

(** X16: without registered readers a writer finishes.  In every state the
    threads can reach in which no thread is between its
    [readIndicatorArrive] and its [readIndicatorDepart], the thread that
    holds the mutex, when it takes the next steps, returns with the mutex
    released after no more steps than two passes over the slots and nine
    more. *)
Theorem writer_finishes_without_readers fuel hw hashes s i h p :
  config_ok LROLLS_NUMBER_OF_CORES LROLLS_COUNTERS_RATIO fuel hw = true →
  Z.of_nat (length hashes) ≤ INT_MAX →
  reachable (initial hw hashes) s →
  threads s !! i = Some (h, p) → writing p = true →
  (∀ j hj pj, threads s !! j = Some (hj, pj) → present pj = None) →
  ∃ n r o',
    (n ≤ 2 * Z.to_nat (_numCores (object s)) + 9)%nat
    ∧ solo n p (object s) = Ok (r, o')
    ∧ _writersMutex o' = false.
Proof.
  intros Hok Hpool Hr Hi Hw Hnone.
  pose proof (invariant_reachable fuel hw hashes s Hok Hpool Hr) as Hinv.
  pose proof (inv_static _ Hinv) as [HR Hn Hl Hf Hlen].
  assert (Hzero : ∀ a (n : nat),
            (n < Z.to_nat (_numCores (object s)))%nat →
            slot LROLLS_COUNTERS_RATIO (readers_of a (object s)) n = Some (Some 0)).
  { intros a n Hlt. rewrite (inv_count _ Hinv a n Hlt), tally_none; [done|].
    intros j hj pj Hj. unfold present_at. by rewrite (Hnone j hj pj Hj). }
  apply finish_writer; [|apply (inv_epoch _ Hinv)|by apply (inv_valid _ Hinv i h)|done].
  apply no_readers_spec. split.
  - split; try done. intros a n Hlt. exists 0. by rewrite Hzero.
  - intros a. apply slots_all_spec. intros n Hlt. exists 0. by rewrite Hzero.
Qed.

(** *** Schedules are runs *)

Lemma step_thread_label i c s s' :
  step_thread i c s = Some s' → ∃ l, step s l s' ∧ label_thread l = i.
Proof.
  unfold step_thread. destruct s as [o ths]. simpl.
  destruct (ths !! i) as [[h p]|] eqn:Hi; [|done].
  destruct c as [c|].
  - destruct p; try done.
    destruct (enter h c o) as [o' p' r| |] eqn:He; try done.
    intros [= <-]. pose proof (enter_trans _ _ _ _ _ _ He) as [_ ->].
    exists (Call i c). split; [by eapply step_enter|done].
  - destruct (run_pc p o) as [o' p' r| |] eqn:Hr; try done.
    intros [= <-].
    exists (match r with Some b => Return i b | None => Internal i end).
    split; [by eapply step_run|by destruct r].
Qed.

Lemma schedule_others_run j l s s' :
  Forall (λ ic : nat * option (@call T), ic.1 ≠ j) l →
  schedule l s = Some s' → others_run j s s'.
Proof.
  intros Hall. revert s'.
  induction l as [|[i c] l IH] using rev_ind; intros s'.
  - intros [= <-]. constructor.
  - apply Forall_app in Hall as [Hall Hlast]. apply Forall_cons in Hlast as [Hi _].
    intros Hs.
    assert (∃ s1, schedule l s = Some s1 ∧ step_thread i c s1 = Some s')
      as (s1 & Hs1 & Hstep).
    { clear IH Hall. revert s Hs. induction l as [|[i' c'] l IHl]; intros s; simpl.
      - destruct (step_thread i c s) as [s2|] eqn:H2; [|done].
        intros [= <-]. by exists s.
      - destruct (step_thread i' c' s) as [s2|]; [|done]. apply IHl. }
    apply step_thread_label in Hstep as (lbl & Hstep & Hlbl).
    eapply others_step; [by apply IH|exact Hstep|by rewrite Hlbl].
Qed.

(** *** Every run is linearizable *)

Lemma replay_app hist i c r S k :
  replay (hist ++ [(i, c, r)]) S k = plain_after c (replay hist S) k.
Proof.
  revert S. induction hist as [|[[j c'] r'] hist IH]; intros S; simpl; [done|apply IH].
Qed.

Lemma legal_app hist i c r S :
  legal (hist ++ [(i, c, r)]) S
  = legal hist S && Bool.eqb r (plain_answer c (replay hist S)).
Proof.
  revert S. induction hist as [|[[j c'] r'] hist IH]; intros S; simpl.
  - by rewrite andb_true_r.
  - by rewrite IH, andb_assoc.
Qed.

Lemma last_of_app hist i j c r :
  last_of i (hist ++ [(j, c, r)])
  = if bool_decide (j = i) then Some (c, r) else last_of i hist.
Proof.
  induction hist as [|[[j' c'] r'] hist IH]; simpl; [done|].
  rewrite IH. by case_bool_decide.
Qed.

Lemma plain_answer_ext c S S' :
  (∀ k, S k = S' k) → plain_answer c S = plain_answer c S'.
Proof. intros Heq. destruct c; simpl; by rewrite Heq. Qed.

Lemma plain_after_ext c S S' k :
  (∀ k, S k = S' k) → plain_after c S k = plain_after c S' k.
Proof. intros Heq. destruct c; simpl; by rewrite Heq. Qed.

Lemma run_pc_return p o o' p' r :
  run_pc p o = Step o' p' r →
  r = match p with
      | C_depart _ _ _ retValue | W_unlock retValue => Some retValue
      | _ => None
      end.
Proof.
  destruct p; simpl; unfold atomically; intros Hr; repeat case_match; by simplify_eq.
Qed.

(** At the step at which a call takes effect its answer is the plain set's
    on the set readers are answered from, and that set becomes the plain
    set's after the call; no other step changes it. *)
Lemma lin_effect s i h p o' p' :
  invariant s → threads s !! i = Some (h, p) → trans (object s) p o' p' →
  match lin_point p (object s) with
  | Some (c, r) =>
      r = plain_answer c (visible (object s))
      ∧ ∀ k, visible o' k = plain_after c (visible (object s)) k
  | None => ∀ k, visible o' k = visible (object s) k
  end.
Proof.
  intros Hinv Hi Ht.
  assert (Hother : (∀ w key lr, p ≠ W_store_lr w key lr) →
                   ∀ k, visible o' k = visible (object s) k).
  { intros Hne. destruct (visible_trans s i h p o' p' Hinv Hi Ht)
      as [Hsame|(w & key & lr & -> & _)]; [done|]. by destruct (Hne w key lr). }
  destruct p; simpl; try (by apply Hother).
  - split; [done|]. by apply Hother.
  - destruct (op_fun w key (set_of (bg_of leftRight) (object s))).1 eqn:Hans;
      [by apply Hother|].
    pose proof (agree_before_first s i h w key leftRight Hinv Hi) as Hagree.
    pose proof (inv_selector _ Hinv i h _ Hi) as Hsel. simpl in Hsel.
    assert (Hvis : lls_contains key (set_of (bg_of leftRight) (object s))
                   = visible (object s) key).
    { unfold visible. rewrite <-Hsel. by apply mirrors_agree_of. }
    rewrite op_fun_answer, Hvis in Hans.
    split.
    + destruct w; simpl in *; [by rewrite Hans|done].
    + intros k. rewrite Hother by done.
      destruct w; simpl in *; case_bool_decide as Hk; simpl; try done; subst k.
      * by destruct (visible (object s) key).
      * done.
  - destruct (visible_store s i h w key leftRight o' p' Hinv Hi Ht) as [Hkey Hall].
    split.
    + destruct w; simpl; by rewrite Hkey.
    + intros k. rewrite Hall.
      destruct w; simpl in *; case_bool_decide as Hk; simpl; try done; subst k;
        by rewrite Hkey.
Qed.

Lemma ghost_ok_other s i h p o' p' j hj pj a pr :
  invariant s → threads s !! i = Some (h, p) → trans (object s) p o' p' →
  threads s !! j = Some (hj, pj) →
  ghost_ok (object s) pj a pr → ghost_ok o' pj a pr.
Proof.
  intros Hinv Hi Ht Hj. destruct pj; simpl; try done.
  rewrite (trans_sets_other _ _ _ _ m Ht); [done|].
  intros Hm.
  by apply (exclusion s i j h p hj (C_inside key tid localVersionIndex m) m m
              Hinv Hi Hj Hm).
Qed.

Lemma ghost_ok_own o p o' p' a pr :
  trans o p o' p' → p ≠ Idle → ghost_ok o p a pr →
  match p with
  | C_depart _ _ _ _ | W_unlock _ => ghost_ok o' p' None None
  | _ => ghost_ok o' p' a match lin_point p o with Some e => Some e | None => pr end
  end.
Proof.
  intros Ht Hidle Hok. inversion Ht; subst; simpl in *; try done.
  - by destruct Hok as [-> ->].
  - rewrite H. destruct Hok as [-> ->]. by eexists.
  - by rewrite H.
  - by destruct Hok as [-> ->].
  - by destruct ph.
  - destruct Hok as [-> ->]. by eexists.
Qed.

Lemma ghost_invariant_step s g l s' :
  invariant s → ghost_invariant s g → step s l s' →
  ghost_invariant s' (ghost_step s l g).
Proof.
  intros Hinv Hg Hstep.
  destruct Hstep as [i h c o ths o' p' Hi He|i h p o ths o' p' r Hi Hr].
  - (* a call is entered *)
    destruct (gi_thread _ _ Hg i h Idle Hi) as (a & pr & Ha & Hpr & [-> ->] & _).
    pose proof (enter_trans _ _ _ _ _ _ He) as [Ht _].
    pose proof (lin_effect _ i h Idle o' p' Hinv Hi Ht) as Hlin. simpl in Hlin.
    split; simpl.
    + apply (gi_legal _ _ Hg).
    + intros k. rewrite Hlin. apply (gi_replay _ _ Hg).
    + rewrite !length_insert. apply (gi_active _ _ Hg).
    + rewrite length_insert. apply (gi_promise _ _ Hg).
    + intros j hj pj Hj.
      apply list_lookup_insert_Some in Hj as [(<- & [= <- <-] & _)|[Hne Hj]].
      * exists (Some c), None. split; [|split; [done|split; [|done]]].
        { apply list_lookup_insert_eq. by eapply lookup_lt_Some. }
        destruct c; simpl in He.
        -- by injection He as _ <-.
        -- by injection He as _ <-.
        -- unfold atomically in He.
           destruct (thread_2_tid _ h o) as [[[tid o1] t1]|[]]; try done.
           by injection He as _ <-.
      * destruct (gi_thread _ _ Hg j hj pj Hj) as (aj & prj & Haj & Hprj & Hokj & Hlj).
        exists aj, prj. split; [by rewrite list_lookup_insert_ne|].
        split; [done|]. split; [|done].
        by apply (ghost_ok_other _ i h Idle o' p' j hj pj aj prj Hinv Hi Ht Hj).
  - (* a step inside a call *)
    destruct (gi_thread _ _ Hg i h p Hi) as (a & pr & Ha & Hpr & Hok & Hlast).
    pose proof (run_pc_trans _ _ _ _ _ Hr) as Ht.
    pose proof (run_pc_return _ _ _ _ _ Hr) as Hret.
    assert (Hidle : p ≠ Idle) by (intros ->; done).
    pose proof (lin_effect _ i h p o' p' Hinv Hi Ht) as Hlin. simpl in Hlin.
    pose proof (ghost_ok_own _ _ _ _ _ _ Ht Hidle Hok) as Hown. simpl in Hown.
    assert (Hrest : ∀ j hj pj, j ≠ i → ths !! j = Some (hj, pj) →
              ∃ aj prj, active g !! j = Some aj ∧ promise g !! j = Some prj
                ∧ ghost_ok o' pj aj prj
                ∧ ∀ c r, prj = Some (c, r) → last_of j (history g) = Some (c, r)).
    { intros j hj pj Hne Hj.
      destruct (gi_thread _ _ Hg j hj pj Hj) as (aj & prj & Haj & Hprj & Hokj & Hlj).
      exists aj, prj. split; [done|]. split; [done|]. split; [|done].
      by apply (ghost_ok_other _ i h p o' p' j hj pj aj prj Hinv Hi Ht Hj). }
    assert (Hia : (i < length (active g))%nat)
      by (rewrite (gi_active _ _ Hg); by eapply lookup_lt_Some).
    assert (Hip : (i < length (promise g))%nat)
      by (rewrite (gi_promise _ _ Hg); by eapply lookup_lt_Some).
    destruct r as [b|]; simpl.
    + (* the call returns *)
      assert (lin_point p o = None ∧ ghost_ok o' p' None None) as [Hlp Hown'].
      { destruct p; try done. }
      rewrite Hlp in Hlin.
      split; simpl.
      * apply (gi_legal _ _ Hg).
      * intros k. rewrite Hlin. apply (gi_replay _ _ Hg).
      * rewrite !length_insert. apply (gi_active _ _ Hg).
      * rewrite !length_insert. apply (gi_promise _ _ Hg).
      * intros j hj pj Hj.
        apply list_lookup_insert_Some in Hj as [(<- & [= <- <-] & _)|[Hne Hj]].
        -- exists None, None. rewrite !list_lookup_insert_eq by done. done.
        -- destruct (Hrest j hj pj ltac:(done) Hj) as (aj & prj & ? & ? & ? & ?).
           exists aj, prj. by rewrite !list_lookup_insert_ne.
    + (* the call goes on *)
      assert (Hown' : ghost_ok o' p' a
                        match lin_point p o with Some e => Some e | None => pr end)
        by (destruct p; done).
      rewrite Hi. destruct (lin_point p o) as [[c r0]|] eqn:Hlp.
      * destruct Hlin as [Hans Hafter].
        split; simpl.
        -- rewrite legal_app, (gi_legal _ _ Hg), Hans. simpl.
           rewrite (plain_answer_ext c (visible o) (replay (history g) (λ _, false))
                      (gi_replay _ _ Hg)).
           apply eqb_reflx.
        -- intros k. rewrite replay_app, Hafter.
           apply plain_after_ext. apply (gi_replay _ _ Hg).
        -- rewrite length_insert. apply (gi_active _ _ Hg).
        -- rewrite !length_insert. apply (gi_promise _ _ Hg).
        -- intros j hj pj Hj.
           apply list_lookup_insert_Some in Hj as [(<- & [= <- <-] & _)|[Hne Hj]].
           ++ exists a, (Some (c, r0)). rewrite list_lookup_insert_eq by done.
              split; [done|]. split; [done|]. split; [done|].
              intros c' r' [= <- <-]. rewrite last_of_app.
              by rewrite bool_decide_eq_true_2.
           ++ destruct (Hrest j hj pj ltac:(done) Hj) as (aj & prj & ? & ? & ? & Hlj).
              exists aj, prj. rewrite list_lookup_insert_ne by done.
              split; [done|]. split; [done|]. split; [done|].
              intros c' r' Hc'. rewrite last_of_app.
              rewrite bool_decide_eq_false_2 by done. by apply Hlj.
      * split; simpl.
        -- apply (gi_legal _ _ Hg).
        -- intros k. rewrite Hlin. apply (gi_replay _ _ Hg).
        -- rewrite length_insert. apply (gi_active _ _ Hg).
        -- rewrite length_insert. apply (gi_promise _ _ Hg).
        -- intros j hj pj Hj.
           apply list_lookup_insert_Some in Hj as [(<- & [= <- <-] & _)|[Hne Hj]].
           ++ by exists a, pr.
           ++ by apply (Hrest j hj pj).
Qed.

Lemma ghost_invariant_initial hw hashes :
  ghost_invariant (initial hw hashes)
    {| history := [];
       active := replicate (length (threads (initial hw hashes))) None;
       promise := replicate (length (threads (initial hw hashes))) None |}.
Proof.
  split; simpl.
  - done.
  - intros k. unfold visible. simpl. apply lls_contains_new.
  - by rewrite length_replicate.
  - by rewrite length_replicate.
  - intros i h p Hi. pose proof (lookup_lt_Some _ _ _ Hi) as Hlt.
    apply list_lookup_fmap_Some in Hi as (h' & [= -> ->] & _).
    exists None, None. by rewrite !lookup_replicate_2.
Qed.

Lemma traced_reachable s0 s g : traced s0 s g → reachable s0 s.
Proof.
  intros Ht. induction Ht as [|s g l s' _ IH Hstep]; [constructor|].
  by eapply reachable_step.
Qed.

Lemma ghost_invariant_traced fuel hw hashes s g :
  config_ok LROLLS_NUMBER_OF_CORES LROLLS_COUNTERS_RATIO fuel hw = true →
  Z.of_nat (length hashes) ≤ INT_MAX →
  traced (initial hw hashes) s g → ghost_invariant s g.
Proof.
  intros Hok Hpool Ht. induction Ht as [|s g l s' Ht IH Hstep].
  - apply ghost_invariant_initial.
  - apply ghost_invariant_step; [|done..].
    apply (invariant_reachable fuel hw hashes); [done..|].
    by apply (traced_reachable _ _ g).
Qed.

(** X17: every run is linearizable.  Let an observer of any interleaving
    write down each call at one step between its entry and its return:
    [contains] at its load of the selector, a refused [add] or [remove] at
    its call on the first mirror, a successful one at its store to the
    selector, each with the answer the thread is then bound to give.  Then
    (1) the calls written down, in that order, with those answers, are a run
    of the plain set from the empty set; (2) the set readers are answered
    from is the plain set after those calls; (3) a call that returns has
    been written down, as the last of its thread, with the answer it
    returns; (4) a thread that can enter a call has nothing pending, and a
    thread at the step at which its call takes effect has not had this call
    written down before. *)
Theorem linearizable fuel hw hashes s g :
  config_ok LROLLS_NUMBER_OF_CORES LROLLS_COUNTERS_RATIO fuel hw = true →
  Z.of_nat (length hashes) ≤ INT_MAX →
  traced (initial hw hashes) s g →
  legal (history g) (λ _, false) = true
  ∧ (∀ k, visible (object s) k = replay (history g) (λ _, false) k)
  ∧ (∀ i b s', step s (Return i b) s' →
       ∃ c, active g !! i = Some (Some c)
            ∧ promise g !! i = Some (Some (c, b))
            ∧ last_of i (history g) = Some (c, b))
  ∧ (∀ i c s', step s (Call i c) s' →
       active g !! i = Some None ∧ promise g !! i = Some None)
  ∧ (∀ i h p, threads s !! i = Some (h, p) → lin_point p (object s) ≠ None →
       promise g !! i = Some None).
Proof.
  intros Hok Hpool Ht.
  pose proof (ghost_invariant_traced fuel hw hashes s g Hok Hpool Ht) as Hg.
  split; [apply (gi_legal _ _ Hg)|]. split; [apply (gi_replay _ _ Hg)|].
  split; [|split].
  - intros i b s' Hstep.
    destruct (step_inv _ _ _ Hstep) as (h & p & o' & p' & Hi & _ & Hcase).
    simpl in *. destruct Hcase as [(c & _ & [=] & _)|(r & Hrun & Hl)].
    pose proof (run_pc_return _ _ _ _ _ Hrun) as Hret.
    destruct (gi_thread _ _ Hg i h p Hi) as (a & pr & Ha & Hpr & Hok' & Hlast).
    destruct r as [b'|]; [|done]. injection Hl as ->.
    destruct p; try done; simpl in *; injection Hret as ->.
    + destruct Hok' as [-> ->]. eexists. split; [done|]. split; [done|].
      by apply Hlast.
    + destruct Hok' as (c & -> & ->). exists c. split; [done|]. split; [done|].
      by apply Hlast.
  - intros i c s' Hstep.
    destruct (step_inv _ _ _ Hstep) as (h & p & o' & p' & Hi & _ & Hcase).
    simpl in *. destruct Hcase as [(c' & -> & _)|(r & _ & Hl)].
    + destruct (gi_thread _ _ Hg i h Idle Hi) as (a & pr & Ha & Hpr & [-> ->] & _).
      done.
    + by destruct r.
  - intros i h p Hi Hlp.
    destruct (gi_thread _ _ Hg i h p Hi) as (a & pr & Ha & Hpr & Hok' & _).
    destruct p; simpl in *; try done; by destruct Hok' as [_ ->].
Qed.

Lemma step_label_step i c s lbl s' :
  step_label i c s = Some lbl → step_thread i c s = Some s' → step s lbl s'.
Proof.
  unfold step_label, step_thread. destruct s as [o ths]. simpl.
  destruct (ths !! i) as [[h p]|] eqn:Hi; [|done].
  destruct c as [c|].
  - destruct p; try done.
    destruct (enter h c o) as [o' p' r| |] eqn:He; try done.
    intros [= <-] [= <-]. pose proof (enter_trans _ _ _ _ _ _ He) as [_ ->].
    by eapply step_enter.
  - destruct (run_pc p o) as [o' p' r| |] eqn:Hr; try done.
    destruct r; intros [= <-] [= <-];
      [apply (step_run i h p o ths o' p' (Some b))
      |apply (step_run i h p o ths o' p' None)]; done.
Qed.

Lemma traced_schedule_traced l s0 s g s' g' :
  traced s0 s g → traced_schedule l s g = Some (s', g') → traced s0 s' g'.
Proof.
  revert s g. induction l as [|[i c] l IH]; intros s g Ht; simpl.
  - by intros [= <- <-].
  - destruct (step_label i c s) as [lbl|] eqn:Hl; [|done].
    destruct (step_thread i c s) as [s1|] eqn:Hs; [|done].
    apply IH. apply traced_step; [done|]. by apply (step_label_step i c).
Qed.

(** *** Schedules reach reachable states *)

Lemma step_thread_step i c s s' :
  step_thread i c s = Some s' → ∃ l, step s l s'.
Proof.
  unfold step_thread. destruct s as [o ths]. simpl.
  destruct (ths !! i) as [[h p]|] eqn:Hi; [|done].
  destruct c as [c|].
  - destruct p; try done.
    destruct (enter h c o) as [o' p' r| |] eqn:He; try done.
    intros [= <-]. pose proof (enter_trans _ _ _ _ _ _ He) as [_ ->].
    eexists. by eapply step_enter.
  - destruct (run_pc p o) as [o' p' r| |] eqn:Hr; try done.
    intros [= <-]. eexists. by eapply step_run.
Qed.

Lemma schedule_reachable l s0 s s' :
  reachable s0 s → schedule l s = Some s' → reachable s0 s'.
Proof.
  revert s. induction l as [|[i c] l IH]; intros s Hr; simpl.
  - by intros [= <-].
  - destruct (step_thread i c s) as [s1|] eqn:Hs; [|done].
    apply step_thread_step in Hs as [lbl Hs].
    apply IH. by eapply reachable_step.
Qed.

End Threads.

End Concurrent.

(** ** The development at work: [T = int], 4 cores

    The macros take the values the header gives their namesakes
    ([LROLL_NUMBER_OF_CORES] = 32, [LROLL_COUNTERS_RATIO] = 3 * 64 / 4 = 48). *)

Definition sample : LROrderedLinkedList (T := Z) :=
  Eval vm_compute in constructed 32 48 4.

(** [sample] after [add(5)]. *)
Definition sample_with_5 : LROrderedLinkedList (T := Z) :=
  Eval vm_compute in
    match add 48 8 5 sample with
    | Ok (_, o, _) => o
    | Fault _ => sample
    end.

Lemma sequential_refinement_witness :
  config_ok 32 48 8 4 = true
  ∧ ∃ o o' t,
      constructor (T := Z) 32 48 8 4 = Ok o
      ∧ run 48 8 12345 [Add 5; Contains 5; Remove 7; Remove 5; Contains 5] o
        = Ok (plain_set_run [Add 5; Contains 5; Remove 7; Remove 5; Contains 5] ∅, o', t).
Proof.
  split; [reflexivity|].
  exact (sequential_refinement 32 48 8 4 12345
           [Add 5; Contains 5; Remove 7; Remove 5; Contains 5] eq_refl).
Defined.

Lemma mirrors_converge_witness :
  ∃ o' t,
    add 48 8 5 sample = Ok (true, o', t)
    ∧ mirrors_agree o'
    ∧ length (List.filter is_mutation (events t)) = 2%nat
    ∧ between_mutations t ≠ []
    ∧ Forall (mirrors_differ_by 5) (between_mutations t).
Proof.
  assert (Hadd : ∃ o' t, add 48 8 5 sample = Ok (true, o', t))
    by (vm_compute; by eexists _, _).
  destruct Hadd as (o' & t & Hadd). exists o', t. split; [exact Hadd|].
  apply (mirrors_converge 48 8 5 sample o' t); [by intros k|by left].
Defined.

Lemma noop_leaves_state_witness :
  (∃ t, add 48 8 5 sample_with_5 = Ok (false, sample_with_5, t)
        ∧ events t = [EvLock; EvLoadLeftRight 1; EvAdd Set1 5 false; EvUnlock])
  ∧ (∃ t, remove 48 8 5 sample = Ok (false, sample, t)
          ∧ events t = [EvLock; EvLoadLeftRight 0; EvRemove Set2 5 false; EvUnlock]).
Proof.
  split.
  - destruct (noop_leaves_state 48 8 5 sample_with_5 eq_refl) as [Hadd _].
    { intros k. reflexivity. }
    destruct (Hadd eq_refl) as (t & Ht & Hev & _). by exists t.
  - destruct (noop_leaves_state 48 8 5 sample eq_refl) as [_ Hrem].
    { intros k. reflexivity. }
    destruct (Hrem eq_refl) as (t & Ht & Hev & _). by exists t.
Defined.

Lemma toggleVersionAndWait_order_witness :
  ∃ o',
    toggleVersionAndWait 48 8 sample =
      Ok (tt, o',
          (EvLoadVersionIndex 0, sample)
          :: scan_trace 48 Version1 sample
          ++ (EvStoreVersionIndex 1, o')
          :: scan_trace 48 Version0 o')
    ∧ _versionIndex o' = 1.
Proof.
  destruct (toggleVersionAndWait_order 48 8 sample eq_refl eq_refl ltac:(simpl; lia))
    as (o' & Ht & _ & _ & Hv & _).
  exists o'. split; [exact Ht|exact Hv].
Defined.

Lemma arrive_depart_round_trip_witness :
  ∃ tid o1,
    thread_2_tid 48 12345 sample = Ok (tid, sample, [])
    ∧ readIndicatorArrive tid sample
      = Ok (0, o1, [(EvLoadVersionIndex 0, sample); (EvFetchAdd Version0 tid 1, o1)])
    ∧ counters_load (_readersVersion0 o1) tid = Ok 1
    ∧ readIndicatorDepart tid 0 o1 = Ok (tt, sample, [(EvFetchAdd Version0 tid (-1), sample)]).
Proof.
  destruct (arrive_depart_round_trip 48 12345 sample eq_refl)
    as (tid & c & o1 & Htid & Hc & Harr & Hc1 & _ & _ & Hdep & _).
  exists tid, o1. split; [exact Htid|]. split; [exact Harr|]. split; [|exact Hdep].
  assert (tid = 48 ∧ c = 0) as [-> ->].
  { vm_compute in Htid. injection Htid as <-. vm_compute in Hc. by injection Hc as <-. }
  exact Hc1.
Defined.

Lemma contains_reads_foreground_witness :
  ∃ t, contains 48 12345 5 sample_with_5 = Ok (true, sample_with_5, t)
       ∧ List.filter is_set_call (events t) = [EvContains Set2 5 true].
Proof.
  assert (Hwf : well_formed 48 sample_with_5 = true) by (vm_compute; reflexivity).
  destruct (contains_reads_foreground 48 12345 5 sample_with_5 Hwf)
    as (t & Hc & Hev & _).
  exists t. split; [exact Hc|exact Hev].
Defined.

Lemma scenario_witness :
  ∃ o o' t,
    constructor (T := Z) 32 48 8 4 = Ok o
    ∧ run 48 8 12345 [Add 5; Add 5; Contains 5; Remove 5; Contains 5; Remove 5] o
      = Ok ([true; false; true; true; false; false], o', t).
Proof.
  destruct (scenario 32 48 8 4 12345 5 eq_refl) as (o & Ho & (o' & t & Hrun) & _).
  by exists o, o', t.
Defined.

Lemma core_count_use_witness :
  ∃ o o' o1 t1 o1' t1',
    constructor (T := Z) 32 48 40 4 = Ok o ∧ constructor (T := Z) 32 48 40 0 = Ok o'
    ∧ _numCores o = 4 ∧ _numCores o' = 32
    ∧ length (_readersVersion0 o) = 192%nat
    ∧ thread_2_tid 48 12345 o = Ok (mixed_tid 12345 mod 4 * 48, o, [])
    ∧ run 48 40 12345 [Add 5; Add 5; Remove 5] o = Ok ([true; false; true], o1, t1)
    ∧ run 48 40 12345 [Add 5; Add 5; Remove 5] o' = Ok ([true; false; true], o1', t1')
    ∧ ∀ fuel1 o2, constructor (T := Z) 32 48 fuel1 4 = Ok o2 → o2 = o.
Proof.
  destruct (core_count_use 32 48 40 4 0 12345 [Add 5; Add 5; Remove 5])
    as [Hany Hgood].
  destruct (Hgood eq_refl eq_refl)
    as (o & o' & Ho & Ho' & Hn & _ & Hl & _ & _ & Htid & _
        & o1 & t1 & o1' & t1' & H1 & H1').
  destruct (Hany 40%nat 4 o Ho) as (_ & _ & _ & _ & Hsame).
  destruct (Hany 40%nat 0 o' Ho') as (Hn' & _).
  exists o, o', o1, t1, o1', t1'.
  split; [exact Ho|]. split; [exact Ho'|]. split; [exact Hn|]. split; [exact Hn'|].
  split; [apply Nat2Z.inj; rewrite Hl, Hn; reflexivity|].
  split; [by rewrite Hn in Htid|]. split; [exact H1|]. split; [exact H1'|exact Hsame].
Defined.

(** C8, as the spec states it, fails on the code.
    - There is no hint: on a machine that reports 4, every object the
      constructor returns has 4 cores, and when the hardware reports 0 the
      number of cores is the constant 32, not the reported value.
    - The number of cores is not used for the size of the arrays alone: the
      same thread is sent to slot 48 of an object built for 2 cores and to
      slot 0 of one built for 3.
    - The arrays need not have [numCores * LROLLS_COUNTERS_RATIO] cells and
      the number of cores does affect later calls: when the hardware reports
      89478486 the product wraps around in [int] to 32, the arrays have 32
      cells, the thread of hash 1 is sent to slot 1711276848 and its
      [contains(5)] indexes out of bounds, where an object built for 4 cores
      answers false. *)
Lemma core_count_hint_counterexample :
  (∀ fuel o, constructor (T := Z) 32 48 fuel 4 = Ok o → _numCores o = 4)
  ∧ (∃ o, constructor (T := Z) 32 48 40 0 = Ok o ∧ _numCores o = 32 ∧ _numCores o ≠ 0)
  ∧ (∃ o2 o3,
       constructor (T := Z) 32 48 40 2 = Ok o2
       ∧ constructor (T := Z) 32 48 40 3 = Ok o3
       ∧ thread_2_tid 48 1 o2 = Ok (48, o2, [])
       ∧ thread_2_tid 48 1 o3 = Ok (0, o3, []))
  ∧ (∃ o o4 t,
       constructor (T := Z) 32 48 40 89478486 = Ok o
       ∧ _numCores o = 89478486
       ∧ _numCores o * 48 = 4294967328
       ∧ _readersLength o = 32
       ∧ length (_readersVersion0 o) = 32%nat
       ∧ length (_readersVersion1 o) = 32%nat
       ∧ thread_2_tid 48 1 o = Ok (1711276848, o, [])
       ∧ contains 48 1 5 o = Fault OutOfBounds
       ∧ constructor (T := Z) 32 48 40 4 = Ok o4
       ∧ contains 48 1 5 o4 = Ok (false, o4, t)).
Proof.
  split; [|split; [|split]].
  - intros fuel o Ho. by destruct (constructor_inv 32 48 fuel 4 o Ho) as [-> _].
  - eexists. split; [vm_compute; reflexivity|]. by split.
  - eexists _, _. split; [vm_compute; reflexivity|].
    split; [vm_compute; reflexivity|]. split; vm_compute; reflexivity.
  - eexists _, _, _. split; [vm_compute; reflexivity|].
    split; [reflexivity|]. split; [reflexivity|]. split; [reflexivity|].
    split; [reflexivity|]. split; [reflexivity|].
    assert (Htid : ∀ o : LROrderedLinkedList (T := Z),
              _numCores o = 89478486 → thread_2_tid 48 1 o = Ok (1711276848, o, [])).
    { intros o Hn. rewrite thread_2_tid_modulus, Hn. reflexivity. }
    split; [by apply Htid|]. split.
    + apply (contains_beyond 48 1 5 _ 1711276848); [by apply Htid|].
      intros []; simpl; lia.
    + split; [vm_compute; reflexivity|]. vm_compute. reflexivity.
Qed.

Lemma slot_accesses_in_bounds_witness :
  ∃ o tid,
    constructor (T := Z) 32 48 8 4 = Ok o
    ∧ thread_2_tid 48 12345 o = Ok (tid, o, [])
    ∧ 0 ≤ tid < 192 ∧ tid mod 48 = 0
    ∧ _readersVersion0 o !! Z.to_nat tid = Some (Some 0)
    ∧ _readersVersion0 o !! 1%nat = Some None.
Proof.
  destruct (slot_accesses_in_bounds 32 48 8 4 12345 0 eq_refl)
    as (o & Ho & Hwf & Hcells & Hall).
  destruct (Hall o Hwf eq_refl) as [(tid & Htid & H0 & Hmod & Hlt & Hlen & _ & Hz & _) _].
  exists o, tid. split; [exact Ho|]. split; [exact Htid|].
  assert (_readersLength o = 192) as Hrl
    by (vm_compute in Ho; by injection Ho as <-).
  split; [lia|]. split; [exact Hmod|]. split; [apply (Hz Version0)|].
  apply (Hcells Version0 1%nat).
  vm_compute in Ho. injection Ho as <-. vm_compute. lia.
Defined.

(** A writer inside its first mutation next to a reader inside the other
    mirror: thread 1 has entered [contains(5)] and gone on to the call on
    [_set1]; thread 0 has then entered [add(5)], taken the mutex and read the
    selector. *)
Definition sample_schedule : list (nat * option (@call Z)) :=
  [(1%nat, Some (Contains 5)); (1%nat, None); (1%nat, None); (1%nat, None);
   (0%nat, Some (Add 5)); (0%nat, None); (0%nat, None)].

Lemma left_right_safety_witness :
  ∃ s,
    Concurrent.schedule 48 sample_schedule (Concurrent.initial 32 48 2 [1; 2]) = Some s
    ∧ Concurrent.threads s !! 0%nat = Some (1, Concurrent.W_first Concurrent.OpAdd 5 0)
    ∧ Concurrent.threads s !! 1%nat = Some (2, Concurrent.C_inside 5 0 0 Set1)
    ∧ Concurrent.mutating (Concurrent.W_first Concurrent.OpAdd 5 0) = Some Set2
    ∧ Set2 ≠ Set1.
Proof.
  destruct (Concurrent.schedule 48 sample_schedule (Concurrent.initial 32 48 2 [1; 2]))
    as [s|] eqn:Hs; [|by vm_compute in Hs].
  exists s. split; [done|].
  assert (Hr : Concurrent.reachable 48 (Concurrent.initial 32 48 2 [1; 2]) s).
  { eapply Concurrent.schedule_reachable; [apply Concurrent.reachable_start|exact Hs]. }
  vm_compute in Hs. injection Hs as <-.
  split; [reflexivity|]. split; [reflexivity|]. split; [reflexivity|].
  destruct (Concurrent.left_right_safety 32 48 3 2 [1; 2] _ eq_refl
              ltac:(vm_compute; discriminate) Hr) as (Hex & _).
  apply (Hex 0%nat 1%nat 1 (Concurrent.W_first Concurrent.OpAdd 5 0)
           2 (Concurrent.C_inside 5 0 0 Set1) Set2 Set1); reflexivity.
Defined.

(** [sample] after [readIndicatorArrive] by the thread of hash 12345, whose
    slot is cell 48. *)
Definition sample_with_reader : LROrderedLinkedList (T := Z) :=
  Eval vm_compute in
    match readIndicatorArrive 48 sample with
    | Ok (_, o, _) => o
    | Fault _ => sample
    end.

Lemma readIndicatorIsEmpty_result_witness :
  ∃ t, readIndicatorIsEmpty 48 8 0 sample_with_reader = Ok (false, sample_with_reader, t)
       ∧ (length t ≤ 4)%nat.
Proof.
  destruct (readIndicatorIsEmpty_result 48 8 0 sample_with_reader eq_refl
              ltac:(vm_compute; lia)) as (b & t & Hs & Hb & Hlen & _).
  exists t. split; [|exact Hlen].
  destruct b; [|exact Hs].
  destruct Hb as [Hzero _]. specialize (Hzero eq_refl 1%nat ltac:(vm_compute; lia)).
  vm_compute in Hzero. discriminate.
Defined.

Lemma writer_waits_for_reader_witness :
  ∃ t1,
    readIndicatorArrive 48 sample = Ok (0, sample_with_reader, t1)
    ∧ add 48 8 5 sample_with_reader = Fault OutOfFuel.
Proof.
  destruct (writer_waits_for_reader 48 8 12345 5 sample eq_refl
              ltac:(by intros k) ltac:(vm_compute; lia))
    as (tid & o1 & t1 & Htid & Harr & Hadd & _).
  vm_compute in Htid. injection Htid as <-.
  assert (o1 = sample_with_reader) as ->
    by (vm_compute in Harr; by injection Harr as <- _).
  exists t1. split; [exact Harr|]. by apply Hadd.
Defined.

Lemma thread_2_tid_spacing_witness :
  ∃ tid tid',
    thread_2_tid 48 1 sample = Ok (tid, sample, [])
    ∧ thread_2_tid 48 12345 sample = Ok (tid', sample, [])
    ∧ (tid = tid' ∨ 48 ≤ Z.abs (tid - tid')).
Proof. exact (thread_2_tid_spacing 48 1 12345 sample eq_refl). Defined.

Lemma successful_write_flips_witness :
  ∃ o' t,
    add 48 8 5 sample = Ok (true, o', t)
    ∧ foreground sample = Set1 ∧ foreground o' = Set2
    ∧ _versionIndex sample = 0 ∧ _versionIndex o' = 1
    ∧ quiescent 48 o' = true.
Proof.
  assert (Hadd : ∃ o' t, add 48 8 5 sample = Ok (true, o', t))
    by (vm_compute; by eexists _, _).
  destruct Hadd as (o' & t & Hadd). exists o', t. split; [exact Hadd|].
  destruct (successful_write_flips 48 8 5 sample o' t eq_refl
              ltac:(vm_compute; lia) (or_introl Hadd))
    as (Hfg & _ & _ & Hv & _ & _ & _ & Hq).
  split; [reflexivity|]. split; [exact Hfg|]. split; [reflexivity|].
  split; [exact Hv|exact Hq].
Defined.

Lemma calls_keep_at_rest_witness :
  ∃ o' t,
    run 48 8 12345 [Add 5; Contains 5; Remove 7; Remove 5; Contains 5] sample
    = Ok ([true; true; false; true; false], o', t)
    ∧ quiescent 48 o' = true
    ∧ mirrors_agree o'
    ∧ _numCores o' = 4.
Proof.
  destruct (calls_keep_at_rest 48 8 12345
              [Add 5; Contains 5; Remove 7; Remove 5; Contains 5] sample ∅ eq_refl
              (constructed_represents 32 48 4) ltac:(vm_compute; lia))
    as (o' & t & Hrun & Hq & _ & Hag & Hn & _).
  exists o', t. split; [exact Hrun|]. split; [exact Hq|]. split; [exact Hag|exact Hn].
Defined.

(** The state [sample_schedule] leads to: thread 1 is inside [_set1] in
    [contains(5)], thread 0 is about to call [_set2.add(5)]. *)
Lemma sample_state :
  ∃ s, Concurrent.schedule 48 sample_schedule (Concurrent.initial 32 48 2 [1; 2]) = Some s
       ∧ Concurrent.reachable 48 (Concurrent.initial 32 48 2 [1; 2]) s.
Proof.
  destruct (Concurrent.schedule 48 sample_schedule (Concurrent.initial 32 48 2 [1; 2]))
    as [s|] eqn:Hs; [|by vm_compute in Hs].
  exists s. split; [done|].
  eapply Concurrent.schedule_reachable; [apply Concurrent.reachable_start|exact Hs].
Defined.

Lemma contains_wait_free_witness :
  ∃ s o',
    Concurrent.schedule 48 sample_schedule (Concurrent.initial 32 48 2 [1; 2]) = Some s
    ∧ Concurrent.threads s !! 1%nat = Some (2, Concurrent.C_inside 5 0 0 Set1)
    ∧ Concurrent.run_pc 48 (Concurrent.C_inside 5 0 0 Set1) (Concurrent.object s)
      = Concurrent.Step o' (Concurrent.C_depart 5 0 0 false) None
    ∧ _set1 o' = _set1 (Concurrent.object s).
Proof.
  destruct sample_state as (s & Hs & Hr).
  destruct (Concurrent.contains_wait_free 32 48 3 2 [1; 2] s 1%nat 2
              (Concurrent.C_inside 5 0 0 Set1) eq_refl
              ltac:(vm_compute; discriminate) Hr) as [_ Hstep].
  { vm_compute in Hs. by injection Hs as <-. }
  destruct (Hstep ltac:(simpl; lia)) as (o' & p' & r & Hrun & _ & _ & Hsets & _).
  exists s, o'. split; [exact Hs|].
  split; [vm_compute in Hs; by injection Hs as <-|].
  split; [|exact (Hsets Set1)].
  rewrite Hrun. vm_compute in Hs. injection Hs as <-.
  vm_compute in Hrun. by injection Hrun as <- <- <-.
Defined.

Lemma writers_exclude_each_other_witness :
  ∃ s,
    Concurrent.schedule 48 sample_schedule (Concurrent.initial 32 48 2 [1; 2]) = Some s
    ∧ _writersMutex (Concurrent.object s) = true
    ∧ ∃ i h p, Concurrent.threads s !! i = Some (h, p) ∧ Concurrent.writing p = true.
Proof.
  destruct sample_state as (s & Hs & Hr).
  destruct (Concurrent.writers_exclude_each_other 32 48 3 2 [1; 2] s eq_refl
              ltac:(vm_compute; discriminate) Hr) as [_ [Hholder _]].
  exists s. split; [exact Hs|].
  assert (Hm : _writersMutex (Concurrent.object s) = true)
    by (vm_compute in Hs; by injection Hs as <-).
  split; [exact Hm|exact (Hholder Hm)].
Defined.

(** Thread 0 has taken the mutex in [add(5)]; thread 1 has entered [add(7)]
    and is about to take it. *)
Definition blocked_schedule : list (nat * option (@call Z)) :=
  [(0%nat, Some (Add 5)); (0%nat, None); (1%nat, Some (Add 7))].

Lemma no_deadlock_witness :
  ∃ s,
    Concurrent.schedule 48 blocked_schedule (Concurrent.initial 32 48 2 [1; 2]) = Some s
    ∧ Concurrent.run_pc 48 (Concurrent.W_lock Concurrent.OpAdd 7) (Concurrent.object s)
      = Concurrent.Blocked
    ∧ ∃ j hj pj o' p' r,
        j ≠ 1%nat ∧ Concurrent.threads s !! j = Some (hj, pj)
        ∧ Concurrent.run_pc 48 pj (Concurrent.object s) = Concurrent.Step o' p' r.
Proof.
  destruct (Concurrent.schedule 48 blocked_schedule (Concurrent.initial 32 48 2 [1; 2]))
    as [s|] eqn:Hs; [|by vm_compute in Hs].
  assert (Hr : Concurrent.reachable 48 (Concurrent.initial 32 48 2 [1; 2]) s).
  { eapply Concurrent.schedule_reachable; [apply Concurrent.reachable_start|exact Hs]. }
  exists s. split; [done|].
  vm_compute in Hs. injection Hs as <-.
  split; [reflexivity|].
  destruct (Concurrent.no_deadlock 32 48 3 2 [1; 2] _ 1%nat 2
              (Concurrent.W_lock Concurrent.OpAdd 7) eq_refl
              ltac:(vm_compute; discriminate) Hr eq_refl) as [_ Hstep].
  destruct (Hstep ltac:(discriminate)) as [(o' & p' & r & Hrun)|[_ Hother]].
  - vm_compute in Hrun. discriminate.
  - destruct Hother as (j & hj & pj & o' & p' & r & Hj & Hlook & _ & Hrun).
    by exists j, hj, pj, o', p', r.
Defined.

Lemma counters_count_readers_witness :
  ∃ s,
    Concurrent.schedule 48 sample_schedule (Concurrent.initial 32 48 2 [1; 2]) = Some s
    ∧ counters_load (_readersVersion0 (Concurrent.object s)) 0 = Ok 1
    ∧ Concurrent.tally (Concurrent.present_at Version0 0) (Concurrent.threads s) = 1%nat.
Proof.
  destruct sample_state as (s & Hs & Hr).
  destruct (Concurrent.counters_count_readers 32 48 3 2 [1; 2] s Version0 0 eq_refl
              ltac:(vm_compute; discriminate) Hr)
    as (c & Hload & Hc & _).
  { vm_compute in Hs. injection Hs as <-. vm_compute. lia. }
  exists s. split; [exact Hs|].
  assert (Ht : Concurrent.tally (Concurrent.present_at Version0 0) (Concurrent.threads s)
               = 1%nat)
    by (vm_compute in Hs; by injection Hs as <-).
  split; [|exact Ht]. change (Z.of_nat 0 * 48) with 0 in Hload, Hc.
  rewrite Ht in Hc. by rewrite Hc in Hload.
Defined.

(** Thread 0 has made its first call in [add(5)] and is about to store the
    selector. *)
Definition store_schedule : list (nat * option (@call Z)) :=
  [(0%nat, Some (Add 5)); (0%nat, None); (0%nat, None); (0%nat, None)].

Lemma mutation_visible_at_store_witness :
  ∃ s s' l,
    Concurrent.schedule 48 store_schedule (Concurrent.initial 32 48 2 [1; 2]) = Some s
    ∧ Concurrent.step 48 s l s'
    ∧ Concurrent.visible (Concurrent.object s) 5 = false
    ∧ Concurrent.visible (Concurrent.object s') 5 = true
    ∧ ((∀ k, Concurrent.visible (Concurrent.object s') k
             = Concurrent.visible (Concurrent.object s) k)
       ∨ ∃ h w key lr,
           Concurrent.threads s !! Concurrent.label_thread l
           = Some (h, Concurrent.W_store_lr w key lr)
           ∧ l = Concurrent.Internal (Concurrent.label_thread l)
           ∧ Concurrent.visible (Concurrent.object s) key
             = match w with Concurrent.OpAdd => false | Concurrent.OpRemove => true end
           ∧ ∀ k, Concurrent.visible (Concurrent.object s') k
                  = xorb (bool_decide (k = key))
                      (Concurrent.visible (Concurrent.object s) k)).
Proof.
  destruct (Concurrent.schedule 48 store_schedule (Concurrent.initial 32 48 2 [1; 2]))
    as [s|] eqn:Hs; [|by vm_compute in Hs].
  assert (Hr : Concurrent.reachable 48 (Concurrent.initial 32 48 2 [1; 2]) s).
  { eapply Concurrent.schedule_reachable; [apply Concurrent.reachable_start|exact Hs]. }
  destruct (Concurrent.step_thread 48 0 None s) as [s'|] eqn:Hs';
    [|vm_compute in Hs; injection Hs as <-; by vm_compute in Hs'].
  destruct (Concurrent.step_thread_label _ _ _ _ _ Hs') as (l & Hstep & _).
  exists s, s', l. split; [done|]. split; [exact Hstep|].
  split; [vm_compute in Hs; by injection Hs as <-|].
  split; [vm_compute in Hs; injection Hs as <-; vm_compute in Hs'; by injection Hs' as <-|].
  exact (Concurrent.mutation_visible_at_store 32 48 3 2 [1; 2] s l s' eq_refl
           ltac:(vm_compute; discriminate) Hr Hstep).
Defined.

Lemma writer_answer_witness :
  ∃ s,
    Concurrent.schedule 48 sample_schedule (Concurrent.initial 32 48 2 [1; 2]) = Some s
    ∧ Concurrent.visible (Concurrent.object s) 5 = false
    ∧ Concurrent.run_pc 48 (Concurrent.W_first Concurrent.OpAdd 5 0) (Concurrent.object s)
      = Concurrent.Step
          (with_set Set2 (lls_add 5 (_set2 (Concurrent.object s))).2 (Concurrent.object s))
          (Concurrent.W_store_lr Concurrent.OpAdd 5 0) None.
Proof.
  destruct sample_state as (s & Hs & Hr).
  destruct (Concurrent.writer_answer 32 48 3 2 [1; 2] s 0%nat 1 Concurrent.OpAdd 5 0
              eq_refl ltac:(vm_compute; discriminate) Hr) as (_ & _ & Hans).
  { vm_compute in Hs. by injection Hs as <-. }
  exists s. split; [exact Hs|].
  assert (Hv : Concurrent.visible (Concurrent.object s) 5 = false)
    by (vm_compute in Hs; by injection Hs as <-).
  split; [exact Hv|]. rewrite Hv in Hans. exact Hans.
Defined.

(** Thread 1 has arrived in [contains(5)] and is about to load the selector;
    then thread 0 runs [add(5)] up to and with its store to the selector;
    later it goes on into [toggleVersionAndWait]. *)
Definition arrived_schedule : list (nat * option (@call Z)) :=
  [(1%nat, Some (Contains 5)); (1%nat, None); (1%nat, None)].

Definition flip_schedule : list (nat * option (@call Z)) :=
  [(0%nat, Some (Add 5)); (0%nat, None); (0%nat, None); (0%nat, None); (0%nat, None)].

Definition wait_schedule : list (nat * option (@call Z)) :=
  [(0%nat, None); (0%nat, None); (0%nat, None)].

Lemma contains_linearizes_witness :
  ∃ s0 s1 s2 s3 s4 s5 l5,
    Concurrent.schedule 48 arrived_schedule (Concurrent.initial 32 48 2 [1; 2]) = Some s0
    ∧ Concurrent.step_thread 48 1 None s0 = Some s1
    ∧ Concurrent.schedule 48 flip_schedule s1 = Some s2
    ∧ Concurrent.step_thread 48 1 None s2 = Some s3
    ∧ Concurrent.schedule 48 wait_schedule s3 = Some s4
    ∧ Concurrent.visible (Concurrent.object s0) 5 = false
    ∧ Concurrent.visible (Concurrent.object s2) 5 = true
    ∧ Concurrent.step 48 s4 l5 s5
    ∧ l5 = Concurrent.Return 1 false.
Proof.
  assert (Hall : ∃ s0 s1 s2 s3 s4 s5,
            Concurrent.schedule 48 arrived_schedule (Concurrent.initial 32 48 2 [1; 2])
            = Some s0
            ∧ Concurrent.step_thread 48 1 None s0 = Some s1
            ∧ Concurrent.schedule 48 flip_schedule s1 = Some s2
            ∧ Concurrent.step_thread 48 1 None s2 = Some s3
            ∧ Concurrent.schedule 48 wait_schedule s3 = Some s4
            ∧ Concurrent.step_thread 48 1 None s4 = Some s5
            ∧ Concurrent.threads s0 !! 1%nat = Some (2, Concurrent.C_load_lr 5 0 0)
            ∧ Concurrent.visible (Concurrent.object s0) 5 = false
            ∧ Concurrent.visible (Concurrent.object s2) 5 = true).
  { eexists _, _, _, _, _, _. repeat (split; [vm_compute; reflexivity|]).
    vm_compute; reflexivity. }
  destruct Hall as (s0 & s1 & s2 & s3 & s4 & s5
                    & H0 & H1 & H2 & H3 & H4 & H5 & Hj & Hv0 & Hv2).
  assert (Hr : Concurrent.reachable 48 (Concurrent.initial 32 48 2 [1; 2]) s0).
  { eapply Concurrent.schedule_reachable; [apply Concurrent.reachable_start|exact H0]. }
  destruct (Concurrent.step_thread_label _ _ _ _ _ H1) as (l1 & Hstep1 & Hl1).
  destruct (Concurrent.step_thread_label _ _ _ _ _ H3) as (l3 & Hstep3 & Hl3).
  destruct (Concurrent.step_thread_label _ _ _ _ _ H5) as (l5 & Hstep5 & Hl5).
  assert (Hrun2 : Concurrent.others_run 48 1 s1 s2).
  { apply (Concurrent.schedule_others_run 48 1 flip_schedule); [|exact H2].
    by repeat constructor. }
  assert (Hrun4 : Concurrent.others_run 48 1 s3 s4).
  { apply (Concurrent.schedule_others_run 48 1 wait_schedule); [|exact H4].
    by repeat constructor. }
  exists s0, s1, s2, s3, s4, s5, l5.
  repeat (split; [assumption|]).
  destruct (Concurrent.contains_linearizes 32 48 3 2 [1; 2] 1%nat 2 5 0 0
              s0 l1 s1 s2 l3 s3 s4 l5 s5 eq_refl ltac:(vm_compute; discriminate)
              Hr Hj Hstep1 Hl1 Hrun2 Hstep3 Hl3 Hrun4 Hstep5 Hl5) as [Hret _].
  by rewrite Hv0 in Hret.
Defined.

(** Thread 0 has run [add(5)] from its call to its return. *)
Definition done_schedule : list (nat * option (@call Z)) :=
  (0%nat, Some (Add 5)) :: replicate 14 (0%nat, None).

Lemma done_state :
  ∃ s,
    Concurrent.schedule 48 done_schedule (Concurrent.initial 32 48 2 [1; 2]) = Some s
    ∧ Concurrent.reachable 48 (Concurrent.initial 32 48 2 [1; 2]) s
    ∧ Concurrent.threads s = [(1, Concurrent.Idle); (2, Concurrent.Idle)]
    ∧ Concurrent.visible (Concurrent.object s) 5 = true.
Proof.
  destruct (Concurrent.schedule 48 done_schedule (Concurrent.initial 32 48 2 [1; 2]))
    as [s|] eqn:Hs; [|by vm_compute in Hs].
  exists s. split; [done|]. split.
  - eapply Concurrent.schedule_reachable; [apply Concurrent.reachable_start|exact Hs].
  - vm_compute in Hs. by injection Hs as <-.
Defined.

Lemma idle_is_at_rest_witness :
  ∃ s,
    Concurrent.schedule 48 done_schedule (Concurrent.initial 32 48 2 [1; 2]) = Some s
    ∧ Concurrent.visible (Concurrent.object s) 5 = true
    ∧ quiescent 48 (Concurrent.object s) = true
    ∧ mirrors_agree (Concurrent.object s)
    ∧ _numCores (Concurrent.object s) = 2.
Proof.
  destruct done_state as (s & Hs & Hr & Hths & Hv).
  destruct (Concurrent.idle_is_at_rest 32 48 3 2 [1; 2] s eq_refl
              ltac:(vm_compute; discriminate) Hr) as (Hq & Hag & Hn & _).
  { rewrite Hths. intros [|[|i]] h p; simpl; by intros [= _ <-]. }
  exists s. split; [exact Hs|]. split; [exact Hv|]. split; [exact Hq|].
  split; [exact Hag|exact Hn].
Defined.

Lemma call_alone_is_sequential_witness :
  ∃ s n o' t,
    Concurrent.schedule 48 done_schedule (Concurrent.initial 32 48 2 [1; 2]) = Some s
    ∧ (n ≤ 14)%nat
    ∧ invoke 48 8 2 (Remove 5) (Concurrent.object s) = Ok (true, o', t)
    ∧ Concurrent.solo_call 48 n 2 (Remove 5) (Concurrent.object s) = Ok (true, o').
Proof.
  destruct done_state as (s & Hs & Hr & Hths & Hv).
  assert (Hn : _numCores (Concurrent.object s) = 2)
    by (vm_compute in Hs; by injection Hs as <-).
  destruct (Concurrent.call_alone_is_sequential 32 48 3 2 [1; 2] s 8 2 (Remove 5)
              eq_refl ltac:(vm_compute; discriminate) Hr)
    as (n & r & o' & t & Hle & Hinv & Hsolo & ->).
  { rewrite Hths. intros [|[|i]] h p; simpl; by intros [= _ <-]. }
  { rewrite Hn. simpl. lia. }
  exists s, n, o', t. split; [exact Hs|].
  rewrite Hn in Hle. rewrite Hv in Hinv, Hsolo.
  split; [simpl in Hle; lia|]. split; [exact Hinv|exact Hsolo].
Defined.

(** Thread 1 has arrived in [contains(5)], in slot 0 of the array of version
    0; thread 0 has run [add(5)] into the second wait, for the readers of
    version 0, and is at slot 0. *)
Definition drain_schedule : list (nat * option (@call Z)) :=
  arrived_schedule ++ (0%nat, Some (Add 5)) :: replicate 9 (0%nat, None).

Lemma scan_stops_at_reader_witness :
  ∃ s,
    Concurrent.schedule 48 drain_schedule (Concurrent.initial 32 48 2 [1; 2]) = Some s
    ∧ Concurrent.threads s !! 0%nat
      = Some (1, Concurrent.W_scan Concurrent.OpAdd 5 0 0 1 Concurrent.WaitPrev 0)
    ∧ Concurrent.threads s !! 1%nat = Some (2, Concurrent.C_load_lr 5 0 0)
    ∧ Concurrent.run_pc 48
        (Concurrent.W_scan Concurrent.OpAdd 5 0 0 1 Concurrent.WaitPrev 0)
        (Concurrent.object s)
      = Concurrent.Step (Concurrent.object s)
          (Concurrent.W_yield Concurrent.OpAdd 5 0 0 1 Concurrent.WaitPrev) None.
Proof.
  destruct (Concurrent.schedule 48 drain_schedule (Concurrent.initial 32 48 2 [1; 2]))
    as [s|] eqn:Hs; [|by vm_compute in Hs].
  assert (Hr : Concurrent.reachable 48 (Concurrent.initial 32 48 2 [1; 2]) s).
  { eapply Concurrent.schedule_reachable; [apply Concurrent.reachable_start|exact Hs]. }
  exists s. split; [done|].
  assert (H0 : Concurrent.threads s !! 0%nat
               = Some (1, Concurrent.W_scan Concurrent.OpAdd 5 0 0 1 Concurrent.WaitPrev 0))
    by (vm_compute in Hs; by injection Hs as <-).
  assert (H1 : Concurrent.threads s !! 1%nat = Some (2, Concurrent.C_load_lr 5 0 0))
    by (vm_compute in Hs; by injection Hs as <-).
  split; [exact H0|]. split; [exact H1|].
  by destruct (Concurrent.scan_stops_at_reader 32 48 3 2 [1; 2] s 0%nat 1
                 Concurrent.OpAdd 5 0 0 1 Concurrent.WaitPrev 0 1%nat 2
                 (Concurrent.C_load_lr 5 0 0) eq_refl
                 ltac:(vm_compute; discriminate) Hr H0 H1 eq_refl) as [Hrun _].
Defined.

(** Thread 0 has taken the mutex in [add(5)]; thread 1 is outside the
    class. *)
Definition locked_schedule : list (nat * option (@call Z)) :=
  [(0%nat, Some (Add 5)); (0%nat, None)].

Lemma writer_finishes_without_readers_witness :
  ∃ s n r o',
    Concurrent.schedule 48 locked_schedule (Concurrent.initial 32 48 2 [1; 2]) = Some s
    ∧ (n ≤ 13)%nat
    ∧ Concurrent.solo 48 n (Concurrent.W_load_lr Concurrent.OpAdd 5) (Concurrent.object s)
      = Ok (r, o')
    ∧ _writersMutex (Concurrent.object s) = true
    ∧ _writersMutex o' = false.
Proof.
  destruct (Concurrent.schedule 48 locked_schedule (Concurrent.initial 32 48 2 [1; 2]))
    as [s|] eqn:Hs; [|by vm_compute in Hs].
  assert (Hr : Concurrent.reachable 48 (Concurrent.initial 32 48 2 [1; 2]) s).
  { eapply Concurrent.schedule_reachable; [apply Concurrent.reachable_start|exact Hs]. }
  assert (Hths : Concurrent.threads s
                 = [(1, Concurrent.W_load_lr Concurrent.OpAdd 5); (2, Concurrent.Idle)])
    by (vm_compute in Hs; by injection Hs as <-).
  assert (Hn : _numCores (Concurrent.object s) = 2)
    by (vm_compute in Hs; by injection Hs as <-).
  assert (Hm : _writersMutex (Concurrent.object s) = true)
    by (vm_compute in Hs; by injection Hs as <-).
  destruct (Concurrent.writer_finishes_without_readers 32 48 3 2 [1; 2] s 0%nat 1
              (Concurrent.W_load_lr Concurrent.OpAdd 5) eq_refl
              ltac:(vm_compute; discriminate) Hr)
    as (n & r & o' & Hle & Hsolo & Hfree).
  { by rewrite Hths. }
  { reflexivity. }
  { rewrite Hths. intros [|[|j]] hj pj; simpl; by intros [= _ <-]. }
  exists s, n, r, o'. split; [done|]. rewrite Hn in Hle.
  split; [simpl in Hle; lia|]. split; [exact Hsolo|]. split; [exact Hm|exact Hfree].
Defined.

(** Thread 1 loads the selector in [contains(5)]; then thread 0 runs
    [add(5)] up to and with its store to the selector; then thread 1 goes
    on to its return. *)
Definition overtaken_schedule : list (nat * option (@call Z)) :=
  arrived_schedule ++ [(1%nat, None)] ++ flip_schedule
  ++ [(1%nat, None); (1%nat, None)].

Lemma linearizable_witness :
  ∃ s g,
    Concurrent.traced_schedule 48 overtaken_schedule (Concurrent.initial 32 48 2 [1; 2])
      {| Concurrent.history := [];
         Concurrent.active := [None; None];
         Concurrent.promise := [None; None] |}
    = Some (s, g)
    ∧ Concurrent.history g = [(1%nat, Contains 5, false); (0%nat, Add 5, true)]
    ∧ Concurrent.threads s !! 1%nat = Some (2, Concurrent.Idle)
    ∧ Concurrent.legal (Concurrent.history g) (λ _, false) = true
    ∧ Concurrent.visible (Concurrent.object s) 5
      = Concurrent.replay (Concurrent.history g) (λ _, false) 5.
Proof.
  destruct (Concurrent.traced_schedule 48 overtaken_schedule
              (Concurrent.initial 32 48 2 [1; 2])
              {| Concurrent.history := [];
                 Concurrent.active := [None; None];
                 Concurrent.promise := [None; None] |})
    as [[s g]|] eqn:Hs; [|by vm_compute in Hs].
  exists s, g. split; [done|].
  pose proof (Concurrent.traced_schedule_traced 48 _ _ _ _ _ _
                (Concurrent.traced_start 48 (Concurrent.initial 32 48 2 [1; 2])) Hs)
    as Ht.
  destruct (Concurrent.linearizable 32 48 3 2 [1; 2] s g eq_refl
              ltac:(vm_compute; discriminate) Ht) as (Hlegal & Hreplay & _).
  split; [vm_compute in Hs; by injection Hs as <- <-|].
  split; [vm_compute in Hs; by injection Hs as <- <-|].
  split; [exact Hlegal|exact (Hreplay 5)].
Defined.
